(** * Wedding shuttle optimizer: the pickup scheduler and its HTTP shim

    A shallow embedding of [solver.py] and [main.py].  The scheduler
    builds a CP-SAT formulation, hands it to the OR-tools solver and
    reads the plan off the solver's answer.  The formulation is embedded
    as data (variables with their domains, constraints, objective)
    together with an executable meaning; the solver itself is an
    external collaborator and enters as a section variable that answers
    with a status and an assignment. *)

From Stdlib Require Import String ZArith List Bool Lia Permutation Arith.
Import ListNotations.
Open Scope Z_scope.

Set Implicit Arguments.

(** ** Python values used by the code *)

Inductive Exception : Type :=
| ValueError (msg : string)
| KeyError (key : string).

(** A computation that either raises or returns. *)
Definition Exn (A : Type) : Type := (Exception + A)%type.

Definition ret {A : Type} (a : A) : Exn A := inr a.
Definition raise {A : Type} (e : Exception) : Exn A := inl e.
Definition bind {A B : Type} (c : Exn A) (k : A -> Exn B) : Exn B :=
  match c with
  | inl e => inl e
  | inr a => k a
  end.

Notation "y <- c ;; k" := (bind c (fun y => k))
  (at level 61, c at next level, right associativity).

(** [range(n)] *)
Definition range (n : nat) : list nat := seq 0 n.

(** [range(K)] for a Python integer: empty when [K <= 0]. *)
Definition py_range (k : Z) : list nat := range (Z.to_nat k).

(** [[c] * K] *)
Definition py_repeat (c : Z) (k : Z) : list Z := repeat c (Z.to_nat k).

(** [len(l)] *)
Definition len {A : Type} (l : list A) : Z := Z.of_nat (length l).

(** [l[:k]]: a negative bound counts from the end of the list. *)
Definition py_slice_to {A : Type} (l : list A) (k : Z) : list A :=
  if 0 <=? k then firstn (Z.to_nat k) l
  else firstn (Z.to_nat (len l + k)) l.

(** [max(l)] and [min(l)] raise [ValueError] on the empty list. *)
Definition py_max (l : list Z) : Exn Z :=
  match l with
  | [] => raise (ValueError "max() arg is an empty sequence")
  | a :: r => ret (fold_left Z.max r a)
  end.

Definition py_min (l : list Z) : Exn Z :=
  match l with
  | [] => raise (ValueError "min() arg is an empty sequence")
  | a :: r => ret (fold_left Z.min r a)
  end.

(** [sorted(l, key=...)]: Python's sort is stable, so an element goes
    before the first one whose key is not smaller. *)
Section Sorted.
Variable A : Type.
Variable key : A -> Z.

Fixpoint insert_by (a : A) (l : list A) : list A :=
    match l with
    | [] => [a]
    | b :: r => if key a <=? key b then a :: b :: r else b :: insert_by a r
    end.

Definition sorted_by (l : list A) : list A :=
    fold_right insert_by [] l.
End Sorted.

(** ** The data classes of [solver.py] *)

Record Guest : Type := mkGuest {
  guest_id : string;
  name : string;
  arrival_min : Z
}.

(** The grouping rule is a dictionary; a field is [None] when its key is
    missing. *)
Record TogetherRule : Type := mkTogetherRule {
  rule_guest_id_a : option string;
  rule_guest_id_b : option string;
  rule_vehicle_index : option Z
}.

Record SolveParams : Type := mkSolveParams {
  num_cars : Z;
  capacity_per_car : Z;
  max_wait_min : Z;
  time_horizon_min : option Z;
  round_trip_min : Z;
  vehicle_capacities : option (list Z);
  incompatible_pairs : option (list (string * string));
  must_ride_together_in_vehicle : option TogetherRule
}.

(** [d[key]] on the grouping rule. *)
Definition getitem {A : Type} (field : option A) (key : string) : Exn A :=
  match field with
  | Some a => ret a
  | None => raise (KeyError key)
  end.

(** ** The report *)

(** One entry of a trip's ["guests"] list. *)
Record GuestRow : Type := mkGuestRow {
  row_guest_id : string;
  row_name : string;
  row_arrival_min : Z;
  wait_min : Z
}.

(** One entry of ["trips"]. *)
Record Trip : Type := mkTrip {
  trip_index : nat;
  vehicle_index : option nat;
  vehicle_capacity : option Z;
  departure_min : Z;
  min_arrival_min : Z;
  max_arrival_min : Z;
  num_guests : nat;
  guests_of : list GuestRow
}.

Inductive PyVal : Type :=
| PInt (z : Z)
| PStr (s : string)
| PIntList (l : list Z)
| PTrips (l : list Trip).

(** The returned dictionary, keys in the order of the literal. *)
Definition Result : Type := list (string * PyVal).

Fixpoint get (key : string) (d : Result) : option PyVal :=
  match d with
  | [] => None
  | (k, v) :: r => if String.eqb k key then Some v else get key r
  end.

Definition has_key (key : string) (d : Result) : bool :=
  match get key d with
  | Some _ => true
  | None => false
  end.

(** ** The CP-SAT formulation *)

Module cp_model.

  (** The variables the scheduler creates, after the names it gives
      them. *)
Inductive IntVar : Type :=
  | x_ (i m : nat)
  | used_ (m : nat)
  | dep_ (m : nat)
  | min_arr_ (m : nat)
  | max_arr_ (m : nat)
  | z_ (m k : nat)
  | vmin_ (i m : nat)
  | vmax_ (i m : nat)
  | dummy_min_ (m : nat)
  | dummy_max_ (m : nat)
  | end_ (m k : nat)
  | dep_guest_ (i : nat)
  | wait_ (i : nat)
  | total_wait_.

Inductive Literal : Type :=
  | Lit (y : IntVar)
  | Not (y : IntVar).

Record LinearExpr : Type := mkLinear {
    terms : list (Z * IntVar);
    offset : Z
  }.

Definition var (y : IntVar) : LinearExpr := mkLinear [(1, y)] 0.
Definition const (c : Z) : LinearExpr := mkLinear [] c.
Definition lsum (ys : list IntVar) : LinearExpr :=
    mkLinear (map (fun y => (1, y)) ys) 0.
Definition plus (a b : LinearExpr) : LinearExpr :=
    mkLinear (terms a ++ terms b) (offset a + offset b).
Definition scale (c : Z) (a : LinearExpr) : LinearExpr :=
    mkLinear (map (fun t => (c * fst t, snd t)) (terms a)) (c * offset a).
Definition minus (a b : LinearExpr) : LinearExpr := plus a (scale (-1) b).

Inductive Relation : Type := EQ | LE | GE.

Record IntervalVar : Type := mkInterval {
    start : IntVar;
    size : Z;
    finish : IntVar;
    is_present : IntVar
  }.

Inductive Constraint : Type :=
  | Add (lhs : LinearExpr) (rel : Relation) (rhs : LinearExpr)
        (only_enforce_if : option Literal)
  | AddImplication (a b : Literal)
  | AddMinEquality (target : IntVar) (ys : list IntVar)
  | AddMaxEquality (target : IntVar) (ys : list IntVar)
  | NewOptionalIntervalVar (iv : IntervalVar)
  | AddNoOverlap (ivs : list IntervalVar).

Record CpModel : Type := mkModel {
    variables : list (IntVar * (Z * Z));
    constraints : list Constraint;
    objective : LinearExpr
  }.

Inductive CpSolverStatus : Type :=
  | UNKNOWN | MODEL_INVALID | FEASIBLE | INFEASIBLE | OPTIMAL.

  (** What the solver hands back: a status, and [Value] on every
      variable. *)
Record Response : Type := mkResponse {
    status : CpSolverStatus;
    Value : IntVar -> Z
  }.

  (** *** Meaning of a formulation under an assignment *)
Section Meaning.
Variable v : IntVar -> Z.

Definition eval (e : LinearExpr) : Z :=
      fold_right (fun t acc => fst t * v (snd t) + acc) (offset e) (terms e).

Definition lit_value (l : Literal) : Z :=
      match l with
      | Lit y => v y
      | Not y => 1 - v y
      end.

Definition lit_true (l : Literal) : bool := lit_value l =? 1.

Definition compare (rel : Relation) (a b : Z) : bool :=
      match rel with
      | EQ => a =? b
      | LE => a <=? b
      | GE => b <=? a
      end.

Definition present (iv : IntervalVar) : bool := v (is_present iv) =? 1.

    (** Two intervals do not overlap when one of them is absent or one
        ends before the other starts. *)
Definition apart (a b : IntervalVar) : bool :=
      implb (present a && present b)
            ((v (finish a) <=? v (start b)) || (v (finish b) <=? v (start a))).

Fixpoint pairwise_apart (ivs : list IntervalVar) : bool :=
      match ivs with
      | [] => true
      | a :: r => forallb (apart a) r && pairwise_apart r
      end.

Definition holds (c : Constraint) : bool :=
      match c with
      | Add lhs rel rhs None => compare rel (eval lhs) (eval rhs)
      | Add lhs rel rhs (Some l) =>
          implb (lit_true l) (compare rel (eval lhs) (eval rhs))
      | AddImplication a b => implb (lit_true a) (lit_true b)
      | AddMinEquality t ys =>
          existsb (fun y => v y =? v t) ys && forallb (fun y => v t <=? v y) ys
      | AddMaxEquality t ys =>
          existsb (fun y => v y =? v t) ys && forallb (fun y => v y <=? v t) ys
      | NewOptionalIntervalVar iv =>
          implb (present iv) (v (start iv) + size iv =? v (finish iv))
      | AddNoOverlap ivs => pairwise_apart ivs
      end.

Definition in_domain (d : IntVar * (Z * Z)) : bool :=
      (fst (snd d) <=? v (fst d)) && (v (fst d) <=? snd (snd d)).

Definition satisfies (model : CpModel) : bool :=
      forallb in_domain (variables model) && forallb holds (constraints model).
End Meaning.

  (** Statuses under which the solver carries a solution. *)
Definition has_solution (s : CpSolverStatus) : bool :=
    match s with
    | OPTIMAL | FEASIBLE => true
    | _ => false
    end.

End cp_model.
Import cp_model.


(** ** [solve_pickups_multitrip]: capacities *)

(** Lines 46-60: the per-vehicle capacities, brought to [K] entries.
    The entries are integers already, so [int(c)] leaves them as they
    are. *)
Definition normalize_vehicle_caps (params : SolveParams) : list Z :=
  let K := num_cars params in
  let vehicle_caps :=
    match vehicle_capacities params with
    | None => py_repeat (capacity_per_car params) K
    | Some raw_caps => raw_caps
    end in
  if len vehicle_caps <? K then
    vehicle_caps ++ py_repeat (capacity_per_car params) (K - len vehicle_caps)
  else if K <? len vehicle_caps then
    py_slice_to vehicle_caps K
  else vehicle_caps.

(** ** [solve_pickups_multitrip]: the formulation *)

(** [enumerate(l)] *)
Definition enumerate {A : Type} (l : list A) : list (nat * A) :=
  combine (seq 0 (length l)) l.

(** [{g.guest_id: i for i, g in enumerate(guests)}]: a later guest with
    the same id overwrites an earlier one. *)
Definition dict_set (d : string -> option nat) (k : string) (i : nat)
  : string -> option nat :=
  fun q => if String.eqb q k then Some i else d q.

Definition build_id_to_i (guests : list Guest) : string -> option nat :=
  fold_left (fun d ig => dict_set d (guest_id (snd ig)) (fst ig))
            (enumerate guests) (fun _ => None).

(** [guests[i].arrival_min]; the index always comes from [range(n)]. *)
Definition arrival (guests : list Guest) (i : nat) : Z :=
  match nth_error guests i with
  | Some g => arrival_min g
  | None => 0
  end.

Definition NewBoolVar (y : IntVar) : IntVar * (Z * Z) := (y, (0, 1)).
Definition NewIntVar (lb ub : Z) (y : IntVar) : IntVar * (Z * Z) := (y, (lb, ub)).

Definition BIG_POS (horizon : Z) : Z := horizon + 10000.
Definition BIG_NEG : Z := -10000.

Definition trip_penalty : Z := 1.

Section Formulation.
Variable guests : list Guest.
Variables K W RT : Z.
Variable vehicle_caps : list Z.
Variables min_a max_a horizon : Z.

(** [n = len(guests)] guests and [M = n] trip slots. *)
Local Abbreviation n := (length guests).
Local Abbreviation M := (length guests).

(** Lines 86-101: the variables created up front. *)
Definition base_variables : list (IntVar * (Z * Z)) :=
  flat_map (fun i => map (fun m => NewBoolVar (x_ i m)) (range M)) (range n)
  ++ map (fun m => NewBoolVar (used_ m)) (range M)
  ++ map (fun m => NewIntVar min_a horizon (dep_ m)) (range M)
  ++ map (fun m => NewIntVar min_a (BIG_POS horizon) (min_arr_ m)) (range M)
  ++ map (fun m => NewIntVar BIG_NEG max_a (max_arr_ m)) (range M)
  ++ flat_map (fun m => map (fun k => NewBoolVar (z_ m k)) (py_range K)) (range M).

(** 1) Each guest must be assigned to exactly one trip. *)
Definition assignment_constraints : list Constraint :=
  map (fun i => Add (lsum (map (fun m => x_ i m) (range M))) EQ (const 1) None)
      (range n).

(** 2) Trip constraints, for one trip [m]. *)
Definition trip_load (m : nat) : LinearExpr :=
  lsum (map (fun i => x_ i m) (range n)).

Definition trip_variables (m : nat) : list (IntVar * (Z * Z)) :=
  flat_map (fun i => [ NewIntVar min_a (BIG_POS horizon) (vmin_ i m);
                       NewIntVar BIG_NEG max_a (vmax_ i m) ]) (range n)
  ++ [ NewIntVar min_a (BIG_POS horizon) (dummy_min_ m);
       NewIntVar BIG_NEG max_a (dummy_max_ m) ].

Definition trip_constraints (m : nat) : list Constraint :=
  map (fun i => AddImplication (Lit (x_ i m)) (Lit (used_ m))) (range n)
  ++ [ Add (trip_load m) GE (const 1) (Some (Lit (used_ m)));
       Add (trip_load m) EQ (const 0) (Some (Not (used_ m)));
       Add (lsum (map (fun k => z_ m k) (py_range K))) EQ (var (used_ m)) None;
       Add (trip_load m) LE
           (mkLinear (map (fun k => (nth k vehicle_caps 0, z_ m k)) (py_range K)) 0)
           None ]
  ++ flat_map (fun i =>
       let a_i := arrival guests i in
       [ Add (var (vmin_ i m)) EQ (const a_i) (Some (Lit (x_ i m)));
         Add (var (vmin_ i m)) EQ (const (BIG_POS horizon)) (Some (Not (x_ i m)));
         Add (var (vmax_ i m)) EQ (const a_i) (Some (Lit (x_ i m)));
         Add (var (vmax_ i m)) EQ (const BIG_NEG) (Some (Not (x_ i m))) ])
       (range n)
  ++ [ Add (var (dummy_min_ m)) EQ (const min_a) (Some (Not (used_ m)));
       Add (var (dummy_min_ m)) EQ (const (BIG_POS horizon)) (Some (Lit (used_ m)));
       Add (var (dummy_max_ m)) EQ (const min_a) (Some (Not (used_ m)));
       Add (var (dummy_max_ m)) EQ (const BIG_NEG) (Some (Lit (used_ m)));
       AddMinEquality (min_arr_ m)
                      (map (fun i => vmin_ i m) (range n) ++ [dummy_min_ m]);
       AddMaxEquality (max_arr_ m)
                      (map (fun i => vmax_ i m) (range n) ++ [dummy_max_ m]);
       Add (var (dep_ m)) EQ (var (max_arr_ m)) None;
       Add (minus (var (max_arr_ m)) (var (min_arr_ m))) LE (const W)
           (Some (Lit (used_ m))) ].

(** 3) Incompatibility constraints; a pair with an unknown id is
    skipped. *)
Definition incompatibility_constraints (id_to_i : string -> option nat)
    (pairs : list (string * string)) : list Constraint :=
  flat_map (fun p =>
      match id_to_i (fst p), id_to_i (snd p) with
      | Some i1, Some i2 =>
          map (fun m => Add (plus (var (x_ i1 m)) (var (x_ i2 m))) LE (const 1) None)
              (range M)
      | _, _ => []
      end) pairs.

(** 4) Some guests must ride together in a specific vehicle. *)
Definition together_constraints (id_to_i : string -> option nat)
    (together_rule : option TogetherRule) : Exn (list Constraint) :=
  match together_rule with
  | None => ret []
  | Some rule =>
      gid_a <- getitem (rule_guest_id_a rule) "guest_id_a" ;;
      gid_b <- getitem (rule_guest_id_b rule) "guest_id_b" ;;
      k0 <- getitem (rule_vehicle_index rule) "vehicle_index" ;;
      match id_to_i gid_a, id_to_i gid_b with
      | Some ia, Some ib =>
          if negb ((0 <=? k0) && (k0 <? K)) then
            raise (ValueError "vehicle_index out of range")
          else
            ret (flat_map (fun m =>
                   [ Add (var (x_ ia m)) EQ (var (x_ ib m)) None;
                     AddImplication (Lit (x_ ia m)) (Lit (z_ m (Z.to_nat k0))) ])
                   (range M))
      | _, _ =>
          raise (ValueError "must_ride_together_in_vehicle guest ids not found")
      end
  end.

(** 5) Vehicle scheduling: NoOverlap with RT. *)
Definition interval_mk (m k : nat) : IntervalVar :=
  mkInterval (dep_ m) RT (end_ m k) (z_ m k).

Definition scheduling_variables : list (IntVar * (Z * Z)) :=
  flat_map (fun k => map (fun m => NewIntVar min_a (horizon + RT) (end_ m k))
                         (range M)) (py_range K).

Definition scheduling_constraints : list Constraint :=
  flat_map (fun k =>
      flat_map (fun m =>
          [ Add (var (end_ m k)) EQ (plus (var (dep_ m)) (const RT)) None;
            NewOptionalIntervalVar (interval_mk m k) ]) (range M)
      ++ [ AddNoOverlap (map (fun m => interval_mk m k) (range M)) ])
    (py_range K).

(** 6) Objective: total waiting, plus a small penalty per trip. *)
Definition waits : list IntVar := map wait_ (range n).

Definition wait_variables : list (IntVar * (Z * Z)) :=
  flat_map (fun i => [ NewIntVar min_a horizon (dep_guest_ i);
                       NewIntVar 0 (horizon - min_a) (wait_ i) ]) (range n)
  ++ [ NewIntVar 0 10000000 total_wait_ ].

Definition wait_constraints : list Constraint :=
  flat_map (fun i =>
      map (fun m => Add (var (dep_guest_ i)) EQ (var (dep_ m)) (Some (Lit (x_ i m))))
          (range M)
      ++ [ Add (var (wait_ i)) EQ
               (minus (var (dep_guest_ i)) (const (arrival guests i))) None ])
    (range n)
  ++ [ Add (var total_wait_) EQ (lsum waits) None ].

Definition minimized : LinearExpr :=
  plus (var total_wait_) (scale trip_penalty (lsum (map used_ (range M)))).

(** The whole formulation, once the grouping rule has been accepted. *)
Definition build_model (incompatible together : list Constraint) : CpModel :=
  mkModel
    (base_variables ++ flat_map trip_variables (range M)
       ++ scheduling_variables ++ wait_variables)
    (assignment_constraints ++ flat_map trip_constraints (range M)
       ++ incompatible ++ together
       ++ scheduling_constraints ++ wait_constraints)
    minimized.

(** *** Lines 231-263: reading the plan off the solver *)
Section Extraction.
Variable value : IntVar -> Z.

Definition vehicle_of (m : nat) : option nat :=
  find (fun k => value (z_ m k) =? 1) (py_range K).

Definition assigned_to (m : nat) : list GuestRow :=
  map (fun ig => mkGuestRow (guest_id (snd ig)) (name (snd ig))
                            (arrival_min (snd ig)) (value (wait_ (fst ig))))
      (filter (fun ig => value (x_ (fst ig) m) =? 1) (enumerate guests)).

Definition trip_out (m : nat) : Trip :=
  let vehicle := vehicle_of m in
  let assigned := assigned_to m in
  mkTrip m vehicle
         (option_map (fun k => nth k vehicle_caps 0) vehicle)
         (value (dep_ m)) (value (min_arr_ m)) (value (max_arr_ m))
         (length assigned)
         (sorted_by row_arrival_min assigned).

Definition build_trips_out : list Trip :=
  sorted_by departure_min
    (map trip_out (filter (fun m => negb (value (used_ m) =? 0)) (range M))).

End Extraction.
End Formulation.

(** ** [solve_pickups_multitrip] *)

Definition infeasible_reason : string :=
  "No schedule satisfies constraints (max_wait too small, too few vehicles, RT too large, or constraints too strict).".

Section Solver.
(** [solver.Solve(model)] of OR-tools, run with a 15 second limit and 8
    workers: an external collaborator, known here by what it answers. *)
Variable Solve : CpModel -> Response.

Definition solve_pickups_multitrip (guests : list Guest) (params : SolveParams)
  : Exn Result :=
  match guests with
  | [] =>
      ret [ ("status", PStr "ok");
            ("num_guests", PInt 0);
            ("num_vehicles", PInt (num_cars params));
            ("total_wait_min", PInt 0);
            ("num_trips_used", PInt 0);
            ("trips", PTrips []) ]%string
  | _ :: _ =>
      let K := num_cars params in
      let W := max_wait_min params in
      let RT := round_trip_min params in
      let vehicle_caps := normalize_vehicle_caps params in
      if existsb (fun c => c <? 1) vehicle_caps then
        raise (ValueError "vehicle_capacities must be >= 1")
      else
        CAP_MAX <- py_max vehicle_caps ;;
        let pairs :=
          match incompatible_pairs params with
          | Some l => l
          | None => []
          end in
        let together_rule := must_ride_together_in_vehicle params in
        let arrivals := map arrival_min guests in
        min_a <- py_min arrivals ;;
        max_a <- py_max arrivals ;;
        let horizon :=
          match time_horizon_min params with
          | Some h => h
          | None => max_a + W + RT
          end in
        let n := length guests in
        let id_to_i := build_id_to_i guests in
        let incompatible := incompatibility_constraints guests id_to_i pairs in
        together <- together_constraints guests K id_to_i together_rule ;;
        let model :=
          build_model guests K W RT vehicle_caps min_a max_a horizon
                      incompatible together in
        let response := Solve model in
        if negb (has_solution (status response)) then
          ret [ ("status", PStr "infeasible");
                ("reason", PStr infeasible_reason) ]%string
        else
          let trips_out :=
            build_trips_out guests K vehicle_caps (Value response) in
          ret [ ("status", PStr "ok");
                ("num_guests", PInt (Z.of_nat n));
                ("num_vehicles", PInt K);
                ("vehicle_capacities", PIntList vehicle_caps);
                ("max_wait_min", PInt W);
                ("round_trip_min", PInt RT);
                ("num_trips_used", PInt (len trips_out));
                ("total_wait_min", PInt (Value response total_wait_));
                ("trips", PTrips trips_out) ]%string
  end.

End Solver.

(** The solver's contract: an answer with status [OPTIMAL] or [FEASIBLE]
    carries an assignment that meets every domain and every constraint
    of the formulation it was given. *)
Definition sound (Solve : CpModel -> Response) : Prop :=
  forall model,
    has_solution (status (Solve model)) = true ->
    satisfies (Value (Solve model)) model = true.

(** A solver that only checks one candidate assignment and reports it
    as [FEASIBLE] when it fits; it meets the contract and serves to run
    the scheduler on concrete inputs. *)
Definition checking_solver (candidate : IntVar -> Z) (model : CpModel) : Response :=
  if satisfies candidate model then mkResponse FEASIBLE candidate
  else mkResponse UNKNOWN (fun _ => 0).

(** ** [main.py]: the [/solve] endpoint *)

Record GuestIn : Type := mkGuestIn {
  in_guest_id : string;
  in_name : string;
  in_arrival_min : Z
}.

Record SolveRequest : Type := mkSolveRequest {
  req_guests : list GuestIn;
  req_num_cars : Z;
  req_capacity_per_car : Z;
  req_max_wait_min : Z;
  req_round_trip_min : option Z;
  req_vehicle_capacities : option (list Z);
  req_incompatible_pairs : option (list (string * string));
  req_must_ride_together_in_vehicle : option TogetherRule;
  req_time_horizon_min : option Z
}.

(** [a or b] on an optional integer: [None] and [0] are falsy. *)
Definition py_or (a : option Z) (b : Z) : Z :=
  match a with
  | None => b
  | Some t => if t =? 0 then b else t
  end.

Definition request_guests (req : SolveRequest) : list Guest :=
  map (fun g => mkGuest (in_guest_id g) (in_name g) (in_arrival_min g))
      (req_guests req).

Definition request_params (req : SolveRequest) : SolveParams :=
  mkSolveParams (req_num_cars req) (req_capacity_per_car req)
                (req_max_wait_min req) (req_time_horizon_min req)
                (py_or (req_round_trip_min req) 240)
                (req_vehicle_capacities req) (req_incompatible_pairs req)
                (req_must_ride_together_in_vehicle req).

Definition solve (Solve : CpModel -> Response) (req : SolveRequest) : Exn Result :=
  solve_pickups_multitrip Solve (request_guests req) (request_params req).

(** * Vocabulary of the properties, and worked inputs *)

(** The sum of a list of integers. *)
Definition sumZ (l : list Z) : Z := fold_right Z.add 0 l.

(** The three dictionaries [solve_pickups_multitrip] returns: for no
    guests (lines 33-40), for a solver that found nothing (lines
    225-228), and for a plan (lines 265-275). *)
Definition empty_report (params : SolveParams) : Result :=
  [ ("status", PStr "ok");
    ("num_guests", PInt 0);
    ("num_vehicles", PInt (num_cars params));
    ("total_wait_min", PInt 0);
    ("num_trips_used", PInt 0);
    ("trips", PTrips []) ]%string.

Definition infeasible_report : Result :=
  [ ("status", PStr "infeasible");
    ("reason", PStr infeasible_reason) ]%string.

Definition ok_report (guests : list Guest) (params : SolveParams)
    (value : IntVar -> Z) : Result :=
  let trips_out :=
    build_trips_out guests (num_cars params) (normalize_vehicle_caps params)
                    value in
  [ ("status", PStr "ok");
    ("num_guests", PInt (Z.of_nat (length guests)));
    ("num_vehicles", PInt (num_cars params));
    ("vehicle_capacities", PIntList (normalize_vehicle_caps params));
    ("max_wait_min", PInt (max_wait_min params));
    ("round_trip_min", PInt (round_trip_min params));
    ("num_trips_used", PInt (len trips_out));
    ("total_wait_min", PInt (value total_wait_));
    ("trips", PTrips trips_out) ]%string.

(** The waits listed in one trip, and in a whole plan. *)
Definition trip_wait (t : Trip) : Z := sumZ (map wait_min (guests_of t)).

Definition plan_wait (trips : list Trip) : Z := sumZ (map trip_wait trips).

(** Scenario A of the specification: three guests, one vehicle, one
    trip that leaves when the last rider has arrived. *)
Definition scenario_A_guests : list Guest :=
  [ mkGuest "g1" "Ann" 0; mkGuest "g2" "Bob" 5; mkGuest "g3" "Cy" 10 ]%string.

Definition scenario_A_params : SolveParams :=
  mkSolveParams 1 3 15 None 60 None None None.

Definition scenario_A_plan (y : IntVar) : Z :=
  match y with
  | x_ i m => if (m =? 0)%nat then 1 else 0
  | used_ m => if (m =? 0)%nat then 1 else 0
  | dep_ m => if (m =? 0)%nat then 10 else 0
  | min_arr_ m => 0
  | max_arr_ m => if (m =? 0)%nat then 10 else 0
  | z_ m k => if (m =? 0)%nat then 1 else 0
  | vmin_ i m => if (m =? 0)%nat then 5 * Z.of_nat i else 10085
  | vmax_ i m => if (m =? 0)%nat then 5 * Z.of_nat i else -10000
  | dummy_min_ m => if (m =? 0)%nat then 10085 else 0
  | dummy_max_ m => if (m =? 0)%nat then -10000 else 0
  | end_ m k => if (m =? 0)%nat then 70 else 60
  | dep_guest_ i => 10
  | wait_ i => 10 - 5 * Z.of_nat i
  | total_wait_ => 15
  end.

(** What the scheduler reports for Scenario A under that plan. *)
Definition scenario_A_trips : list Trip :=
  [ mkTrip 0 (Some 0%nat) (Some 3) 10 0 10 3
      [ mkGuestRow "g1" "Ann" 0 10;
        mkGuestRow "g2" "Bob" 5 5;
        mkGuestRow "g3" "Cy" 10 0 ]%string ].

Definition scenario_A_report : Result :=
  [ ("status", PStr "ok");
    ("num_guests", PInt 3);
    ("num_vehicles", PInt 1);
    ("vehicle_capacities", PIntList [3]);
    ("max_wait_min", PInt 15);
    ("round_trip_min", PInt 60);
    ("num_trips_used", PInt 1);
    ("total_wait_min", PInt 15);
    ("trips", PTrips scenario_A_trips) ]%string.

(** Two guests far apart in time, one single-seat vehicle: it runs two
    trips, a round trip apart. *)
Definition relay_guests : list Guest :=
  [ mkGuest "g1" "Ann" 0; mkGuest "g2" "Bob" 100 ]%string.

Definition relay_params : SolveParams :=
  mkSolveParams 1 1 10 None 60 None None None.

Definition relay_plan (y : IntVar) : Z :=
  match y with
  | x_ i m => if (i =? m)%nat then 1 else 0
  | used_ m => 1
  | dep_ m => 100 * Z.of_nat m
  | min_arr_ m => 100 * Z.of_nat m
  | max_arr_ m => 100 * Z.of_nat m
  | z_ m k => 1
  | vmin_ i m => if (i =? m)%nat then 100 * Z.of_nat i else 10170
  | vmax_ i m => if (i =? m)%nat then 100 * Z.of_nat i else -10000
  | dummy_min_ m => 10170
  | dummy_max_ m => -10000
  | end_ m k => 100 * Z.of_nat m + 60
  | dep_guest_ i => 100 * Z.of_nat i
  | wait_ i => 0
  | total_wait_ => 0
  end.

(** What the scheduler reports for the relay. *)
Definition relay_trips : list Trip :=
  [ mkTrip 0 (Some 0%nat) (Some 1) 0 0 0 1 [ mkGuestRow "g1" "Ann" 0 0 ]%string;
    mkTrip 1 (Some 0%nat) (Some 1) 100 100 100 1
           [ mkGuestRow "g2" "Bob" 100 0 ]%string ].

Definition relay_report : Result :=
  [ ("status", PStr "ok");
    ("num_guests", PInt 2);
    ("num_vehicles", PInt 1);
    ("vehicle_capacities", PIntList [1]);
    ("max_wait_min", PInt 10);
    ("round_trip_min", PInt 60);
    ("num_trips_used", PInt 2);
    ("total_wait_min", PInt 0);
    ("trips", PTrips relay_trips) ]%string.


(** Three vehicles, two capacities given, one of them 0. *)
Definition short_caps_params : SolveParams :=
  mkSolveParams 3 4 15 None 60 (Some [2; 0]) None None.

(** Capacities below 1 and a grouping rule that names nobody, on the
    empty guest list. *)
Definition malformed_params : SolveParams :=
  mkSolveParams 1 0 15 None 60 (Some [0; -3]) None
                (Some (mkTogetherRule (Some "ghost"%string) None (Some 9))).

(** Scenario A as a request that asks for a round trip of 0 minutes. *)
Definition zero_round_trip_request : SolveRequest :=
  mkSolveRequest
    [ mkGuestIn "g1" "Ann" 0; mkGuestIn "g2" "Bob" 5; mkGuestIn "g3" "Cy" 10 ]%string
    1 3 15 (Some 0) None None None None.

(** A grouping rule names an unknown guest; a grouping rule names a
    vehicle outside [0..K-1]. *)
Definition names_unknown_guest (guests : list Guest) (rule : TogetherRule) : Prop :=
  exists gid,
    (rule_guest_id_a rule = Some gid \/ rule_guest_id_b rule = Some gid) /\
    ~ In gid (map guest_id guests).

Definition vehicle_out_of_range (K : Z) (rule : TogetherRule) : Prop :=
  exists k0, rule_vehicle_index rule = Some k0 /\ ~ (0 <= k0 < K).

(** The parameters with [incompatible_pairs] replaced. *)
Definition with_pairs (params : SolveParams) (pairs : list (string * string))
  : SolveParams :=
  mkSolveParams (num_cars params) (capacity_per_car params)
                (max_wait_min params) (time_horizon_min params)
                (round_trip_min params) (vehicle_capacities params)
                (Some pairs) (must_ride_together_in_vehicle params).

(** Scenario A with a grouping rule whose second guest does not exist. *)
Definition ghost_rule : TogetherRule :=
  mkTogetherRule (Some "g1"%string) (Some "ghost"%string) (Some 0).

Definition ghost_rule_params : SolveParams :=
  mkSolveParams 1 3 15 None 60 None None (Some ghost_rule).

(** The guest a row of the report stands for. *)
Definition row_guest (g : GuestRow) : Guest :=
  mkGuest (row_guest_id g) (row_name g) (row_arrival_min g).

(** All guests listed in a plan, trip after trip. *)
Definition listed (trips : list Trip) : list Guest :=
  flat_map (fun t => map row_guest (guests_of t)) trips.

(** The ids listed in a trip, and when two plans group the guests
    alike: every trip of one has a trip of the other with the same
    riders. *)
Definition riders (t : Trip) : list string := map row_guest_id (guests_of t).

Definition same_partition (trips trips' : list Trip) : Prop :=
  (forall t, In t trips ->
     exists t', In t' trips' /\ Permutation (riders t) (riders t')) /\
  (forall t', In t' trips' ->
     exists t, In t trips /\ Permutation (riders t) (riders t')).

(** Two guests one minute apart, two vehicles of two seats, one minute
    of allowed spread.  Riding together costs one minute of waiting and
    one trip; riding apart costs no waiting and two trips: the
    objective is 2 either way. *)
Definition tie_guests : list Guest :=
  [ mkGuest "a" "Ann" 0; mkGuest "b" "Bob" 1 ]%string.

Definition tie_guests_reordered : list Guest :=
  [ mkGuest "b" "Bob" 1; mkGuest "a" "Ann" 0 ]%string.

Definition tie_params : SolveParams :=
  mkSolveParams 2 2 1 None 60 None None None.

(** Both guests in slot 0, for the order Ann, Bob. *)
Definition together_plan (y : IntVar) : Z :=
  match y with
  | x_ i m => if (m =? 0)%nat then 1 else 0
  | used_ m => if (m =? 0)%nat then 1 else 0
  | dep_ m => if (m =? 0)%nat then 1 else 0
  | min_arr_ m => 0
  | max_arr_ m => if (m =? 0)%nat then 1 else 0
  | z_ m k => if ((m =? 0) && (k =? 0))%nat then 1 else 0
  | vmin_ i m => if (m =? 0)%nat then Z.of_nat i else 10062
  | vmax_ i m => if (m =? 0)%nat then Z.of_nat i else -10000
  | dummy_min_ m => if (m =? 0)%nat then 10062 else 0
  | dummy_max_ m => if (m =? 0)%nat then -10000 else 0
  | end_ m k => if (m =? 0)%nat then 61 else 60
  | dep_guest_ i => 1
  | wait_ i => 1 - Z.of_nat i
  | total_wait_ => 1
  end.

(** Guest [i] alone in slot [i] on vehicle [i], for the order Bob,
    Ann. *)
Definition apart_plan (y : IntVar) : Z :=
  match y with
  | x_ i m => if (i =? m)%nat then 1 else 0
  | used_ m => 1
  | dep_ m => 1 - Z.of_nat m
  | min_arr_ m => 1 - Z.of_nat m
  | max_arr_ m => 1 - Z.of_nat m
  | z_ m k => if (m =? k)%nat then 1 else 0
  | vmin_ i m => if (i =? m)%nat then 1 - Z.of_nat i else 10062
  | vmax_ i m => if (i =? m)%nat then 1 - Z.of_nat i else -10000
  | dummy_min_ m => 10062
  | dummy_max_ m => -10000
  | end_ m k => 61 - Z.of_nat m
  | dep_guest_ i => 1 - Z.of_nat i
  | wait_ i => 0
  | total_wait_ => 0
  end.






(** The formulations the solver receives for the two orders. *)
Definition tie_model : CpModel :=
  build_model tie_guests 2 1 60 [2; 2] 0 1 62 [] [].

Definition tie_model_reordered : CpModel :=
  build_model tie_guests_reordered 2 1 60 [2; 2] 0 1 62 [] [].

(** Three guests who land at the same minute, two vehicles of two
    seats: the formulation sees three equal arrivals, whatever the
    order of the list. *)
Definition trio_guests : list Guest :=
  [ mkGuest "a" "Ann" 0; mkGuest "b" "Bob" 0; mkGuest "c" "Cy" 0 ]%string.

Definition trio_swap_12 : list Guest :=
  [ mkGuest "a" "Ann" 0; mkGuest "c" "Cy" 0; mkGuest "b" "Bob" 0 ]%string.

Definition trio_swap_01 : list Guest :=
  [ mkGuest "b" "Bob" 0; mkGuest "a" "Ann" 0; mkGuest "c" "Cy" 0 ]%string.

Definition trio_params : SolveParams :=
  mkSolveParams 2 2 0 None 60 None None None.

Definition trio_model : CpModel :=
  build_model trio_guests 2 0 60 [2; 2] 0 0 60 [] [].

(** One plan for the trio: the first two of the list share slot 0 on
    vehicle 0, the third rides alone in slot 1 on vehicle 1. *)
Definition trio_plan (y : IntVar) : Z :=
  let seated_in i m := (((i <? 2) && (m =? 0)) || ((i =? 2) && (m =? 1)))%nat in
  match y with
  | x_ i m => if seated_in i m then 1 else 0
  | used_ m => if (m <? 2)%nat then 1 else 0
  | dep_ m => 0
  | min_arr_ m => 0
  | max_arr_ m => 0
  | z_ m k => if ((m <? 2) && (m =? k))%nat then 1 else 0
  | vmin_ i m => if seated_in i m then 0 else 10060
  | vmax_ i m => if seated_in i m then 0 else -10000
  | dummy_min_ m => if (m <? 2)%nat then 10060 else 0
  | dummy_max_ m => if (m <? 2)%nat then -10000 else 0
  | end_ m k => 60
  | dep_guest_ i => 0
  | wait_ i => 0
  | total_wait_ => 0
  end.

(** The plan the scheduler reads off an assignment, for one order of
    the trio. *)
Definition trio_trips (guests : list Guest) (v : IntVar -> Z) : list Trip :=
  build_trips_out guests 2 [2; 2] v.

(** The guests of slot [m] under an assignment, with their positions in
    the input. *)
Definition seated (guests : list Guest) (v : IntVar -> Z) (m : nat)
  : list (nat * Guest) :=
  filter (fun ig => v (x_ (fst ig) m) =? 1) (enumerate guests).

(** The incompatible pairs and the horizon the scheduler works with
    (lines 66 and 74-76). *)
Definition pairs_of (params : SolveParams) : list (string * string) :=
  match incompatible_pairs params with
  | Some l => l
  | None => []
  end.

Definition horizon_of (params : SolveParams) (max_a : Z) : Z :=
  match time_horizon_min params with
  | Some h => h
  | None => max_a + max_wait_min params + round_trip_min params
  end.

(** The formulation of an instance that passed validation. *)
Definition formulation (guests : list Guest) (params : SolveParams)
    (min_a max_a : Z) (together : list Constraint) : CpModel :=
  build_model guests (num_cars params) (max_wait_min params)
              (round_trip_min params) (normalize_vehicle_caps params)
              min_a max_a (horizon_of params max_a)
              (incompatibility_constraints guests (build_id_to_i guests)
                                           (pairs_of params))
              together.

(** The one trip of Scenario A, and the two of the relay. *)
Definition scenario_A_trip : Trip :=
  mkTrip 0 (Some 0%nat) (Some 3) 10 0 10 3
    [ mkGuestRow "g1" "Ann" 0 10;
      mkGuestRow "g2" "Bob" 5 5;
      mkGuestRow "g3" "Cy" 10 0 ]%string.

Definition relay_first_trip : Trip :=
  mkTrip 0 (Some 0%nat) (Some 1) 0 0 0 1 [ mkGuestRow "g1" "Ann" 0 0 ]%string.

Definition relay_second_trip : Trip :=
  mkTrip 1 (Some 0%nat) (Some 1) 100 100 100 1
         [ mkGuestRow "g2" "Bob" 100 0 ]%string.

(** The relay with its two guests declared incompatible, and Scenario A
    with Ann and Cy grouped on vehicle 0. *)
Definition relay_apart_params : SolveParams :=
  mkSolveParams 1 1 10 None 60 None (Some [("g1", "g2")%string]) None.

Definition scenario_A_grouped_params : SolveParams :=
  mkSolveParams 1 3 15 None 60 None None
    (Some (mkTogetherRule (Some "g1"%string) (Some "g3"%string) (Some 0))).

(** Scenario A asked with a negative allowed spread, with a horizon
    before the last arrival, with a guest who lands before minute
    -10000, and with a guest declared incompatible with himself. *)
Definition negative_wait_params : SolveParams :=
  mkSolveParams 1 3 (-1) None 60 None None None.

Definition early_horizon_params : SolveParams :=
  mkSolveParams 1 3 15 (Some 9) 60 None None None.

Definition early_bird_guests : list Guest :=
  [ mkGuest "g0" "Eve" (-10001); mkGuest "g1" "Ann" 0 ]%string.

Definition self_pair_params : SolveParams :=
  mkSolveParams 1 3 15 None 60 None (Some [("g2", "g2")%string]) None.

(** Scenario A with no vehicle at all, and with minus one vehicle and
    two capacities supplied. *)
Definition no_vehicle_params : SolveParams :=
  mkSolveParams 0 3 15 None 60 (Some [3; 3]) None None.

Definition minus_one_vehicle_params : SolveParams :=
  mkSolveParams (-1) 3 15 None 60 (Some [3; 3]) None None.

(** What the capacity list holds at position [k] when there are at
    least [k + 1] vehicles: the supplied entry if there is one, the
    default otherwise. *)
Definition expected_capacity (params : SolveParams) (k : nat) : Z :=
  match vehicle_capacities params with
  | Some raw => if (k <? length raw)%nat then nth k raw 0
                else capacity_per_car params
  | None => capacity_per_car params
  end.


(** Two guests with the same id, and Scenario A under rules that are
    broken in more than one way. *)
Definition namesake_guests : list Guest :=
  [ mkGuest "g1" "Ann" 0; mkGuest "g2" "Bob" 5; mkGuest "g1" "Ann II" 10 ]%string.



(** The vehicle a slot runs on, 0 when it has none. *)
Definition vehicle_or_zero (K : Z) (v : IntVar -> Z) (m : nat) : nat :=
  match vehicle_of K v m with
  | Some k => k
  | None => 0%nat
  end.

(** Scenario B of the specification: four guests at minute 0, one
    vehicle of two seats, no waiting allowed. *)
Definition scenario_B_guests : list Guest :=
  [ mkGuest "g1" "Ann" 0; mkGuest "g2" "Bob" 0;
    mkGuest "g3" "Cy" 0; mkGuest "g4" "Dee" 0 ]%string.

Definition scenario_B_params : SolveParams :=
  mkSolveParams 1 2 0 None 240 None None None.

(** The order of a stable sort: smaller key first and, among equal
    keys, the one that came first. *)
Definition key_then_before {A : Type} (key : A -> Z) (before : A -> A -> Prop)
    (a b : A) : Prop :=
  key a < key b \/ (key a = key b /\ before a b).

(** * Properties *)

(** ** Lists, sums and the stable sort *)

Lemma sumZ_app l1 l2 : sumZ (l1 ++ l2) = sumZ l1 + sumZ l2.
Proof. induction l1 as [|a l1 IH]; simpl; [reflexivity | rewrite IH; lia]. Qed.

Lemma sumZ_perm l1 l2 : Permutation l1 l2 -> sumZ l1 = sumZ l2.
Proof. induction 1; simpl; lia. Qed.

Lemma sumZ_map_ext {A : Type} (f g : A -> Z) l :
  (forall a, In a l -> f a = g a) -> sumZ (map f l) = sumZ (map g l).
Proof.
  induction l as [|a l IH]; simpl; intros H; [reflexivity|].
  rewrite (H a) by auto. rewrite IH by auto. reflexivity.
Qed.

Lemma sumZ_map_zero {A : Type} (f : A -> Z) l :
  (forall a, In a l -> f a = 0) -> sumZ (map f l) = 0.
Proof.
  induction l as [|a l IH]; simpl; intros H; [reflexivity|].
  rewrite (H a) by auto. rewrite IH by auto. reflexivity.
Qed.

Lemma sumZ_map_add {A : Type} (f g : A -> Z) l :
  sumZ (map (fun a => f a + g a) l) = sumZ (map f l) + sumZ (map g l).
Proof. induction l as [|a l IH]; simpl; [reflexivity | rewrite IH; lia]. Qed.

Lemma sumZ_map_scale {A : Type} (c : Z) (f : A -> Z) l :
  sumZ (map (fun a => c * f a) l) = c * sumZ (map f l).
Proof. induction l as [|a l IH]; simpl; [lia | rewrite IH; lia]. Qed.

(** Exchanging two finite sums. *)
Lemma sumZ_exchange {A B : Type} (f : A -> B -> Z) la lb :
  sumZ (map (fun a => sumZ (map (fun b => f a b) lb)) la)
  = sumZ (map (fun b => sumZ (map (fun a => f a b) la)) lb).
Proof.
  induction la as [|a la IH]; simpl.
  - symmetry. apply sumZ_map_zero. reflexivity.
  - rewrite IH. rewrite <- sumZ_map_add. reflexivity.
Qed.

(** A filtered sum is the sum of the guarded terms. *)
Lemma sumZ_filter {A : Type} (p : A -> bool) (f : A -> Z) l :
  sumZ (map f (filter p l)) = sumZ (map (fun a => if p a then f a else 0) l).
Proof.
  induction l as [|a l IH]; simpl; [reflexivity|].
  destruct (p a); simpl; rewrite IH; reflexivity.
Qed.

Section SortedFacts.
Variable A : Type.
Variable key : A -> Z.

Lemma insert_by_perm (a : A) l : Permutation (insert_by key a l) (a :: l).
Proof.
  induction l as [|b r IH]; simpl; [apply Permutation_refl|].
  destruct (key a <=? key b); [apply Permutation_refl|].
  eapply perm_trans; [apply perm_skip, IH | apply perm_swap].
Qed.

Lemma sorted_by_perm (l : list A) : Permutation (sorted_by key l) l.
Proof.
  induction l as [|a l IH]; simpl; [apply perm_nil|].
  eapply perm_trans; [apply insert_by_perm | apply perm_skip, IH].
Qed.

Lemma sorted_by_In (a : A) l : In a (sorted_by key l) <-> In a l.
Proof.
  split; apply Permutation_in;
    [apply sorted_by_perm | apply Permutation_sym, sorted_by_perm].
Qed.

Lemma sorted_by_length (l : list A) : length (sorted_by key l) = length l.
Proof. apply Permutation_length, sorted_by_perm. Qed.

End SortedFacts.

Lemma in_range i n : In i (range n) <-> (i < n)%nat.
Proof. unfold range. rewrite in_seq. lia. Qed.

Lemma in_enumerate_from {A : Type} (l : list A) s i a :
  In (i, a) (combine (seq s (length l)) l) <->
  (s <= i)%nat /\ nth_error l (i - s) = Some a.
Proof.
  revert s; induction l as [|b l IH]; intros s; simpl.
  - split; [tauto|]. intros [_ H]. destruct (i - s)%nat; discriminate.
  - rewrite IH. split.
    + intros [H | [H1 H2]].
      * inversion H; subst. split; [lia|]. rewrite Nat.sub_diag. reflexivity.
      * split; [lia|]. replace (i - s)%nat with (S (i - S s)) by lia. exact H2.
    + intros [H1 H2]. destruct (Nat.eq_dec s i) as [->|Hne].
      * left. rewrite Nat.sub_diag in H2. simpl in H2. congruence.
      * right. split; [lia|].
        replace (i - s)%nat with (S (i - S s)) in H2 by lia. exact H2.
Qed.

Lemma in_enumerate {A : Type} (l : list A) i a :
  In (i, a) (enumerate l) <-> nth_error l i = Some a.
Proof.
  unfold enumerate. rewrite in_enumerate_from, Nat.sub_0_r.
  split; [tauto | intros H; split; [lia | exact H]].
Qed.

Lemma enumerate_fst {A : Type} (l : list A) :
  map fst (enumerate l) = range (length l).
Proof.
  unfold enumerate, range. generalize 0%nat.
  induction l as [|a l IH]; intros s; simpl; [reflexivity|].
  rewrite IH. reflexivity.
Qed.

Lemma enumerate_snd {A : Type} (l : list A) : map snd (enumerate l) = l.
Proof.
  unfold enumerate. generalize 0%nat.
  induction l as [|a l IH]; intros s; simpl; [reflexivity|].
  rewrite IH. reflexivity.
Qed.

(** ** Meaning of linear expressions *)

Section EvalFacts.
Variable v : IntVar -> Z.

Lemma eval_var y : eval v (var y) = v y.
Proof. unfold eval, var; cbn [terms offset fold_right fst snd]. lia. Qed.

Lemma eval_const c : eval v (const c) = c.
Proof. reflexivity. Qed.

Lemma eval_terms ts c :
  eval v (mkLinear ts c) = sumZ (map (fun t => fst t * v (snd t)) ts) + c.
Proof.
  unfold eval; cbn [terms offset].
  induction ts as [|t ts IH]; cbn [fold_right map sumZ]; [reflexivity|].
  fold (sumZ (map (fun t => fst t * v (snd t)) ts)). rewrite IH. lia.
Qed.

Lemma eval_lsum ys : eval v (lsum ys) = sumZ (map v ys).
Proof.
  unfold lsum. rewrite eval_terms, map_map, Z.add_0_r.
  apply sumZ_map_ext. intros; cbn [fst snd]; lia.
Qed.

Lemma eval_plus a b : eval v (plus a b) = eval v a + eval v b.
Proof.
  destruct a as [ta ca], b as [tb cb]. unfold plus; cbn [terms offset].
  rewrite !eval_terms, map_app, sumZ_app. lia.
Qed.

Lemma eval_scale c a : eval v (scale c a) = c * eval v a.
Proof.
  destruct a as [ta ca]. unfold scale; cbn [terms offset].
  rewrite !eval_terms, map_map. cbn [fst snd].
  rewrite (sumZ_map_ext (fun t => c * fst t * v (snd t))
                        (fun t => c * (fst t * v (snd t)))) by (intros; lia).
  rewrite sumZ_map_scale. lia.
Qed.

Lemma eval_minus a b : eval v (minus a b) = eval v a - eval v b.
Proof. unfold minus. rewrite eval_plus, eval_scale. lia. Qed.

Lemma holds_of_satisfies model c :
  satisfies v model = true -> In c (constraints model) -> holds v c = true.
Proof.
  unfold satisfies. rewrite andb_true_iff. intros [_ H] Hin.
  rewrite forallb_forall in H. apply H, Hin.
Qed.

Lemma domain_of_satisfies model y lb ub :
  satisfies v model = true -> In (y, (lb, ub)) (variables model) ->
  lb <= v y <= ub.
Proof.
  unfold satisfies. rewrite andb_true_iff. intros [H _] Hin.
  rewrite forallb_forall in H. apply H in Hin.
  unfold in_domain in Hin; simpl in Hin. lia.
Qed.

(** Intervals taken from a list that passed the pairwise test. *)
Lemma pairwise_apart_nth ivs p q a b :
  pairwise_apart v ivs = true -> p <> q ->
  nth_error ivs p = Some a -> nth_error ivs q = Some b ->
  present v a = true -> present v b = true ->
  v (finish a) <= v (start b) \/ v (finish b) <= v (start a).
Proof.
  assert (Hlt : forall ivs p q a b,
             pairwise_apart v ivs = true -> (p < q)%nat ->
             nth_error ivs p = Some a -> nth_error ivs q = Some b ->
             present v a = true -> present v b = true ->
             v (finish a) <= v (start b) \/ v (finish b) <= v (start a)).
  { clear. induction ivs as [|c r IH]; intros p q a b Hp Hlt Ha Hb Pa Pb.
    - destruct p; discriminate.
    - simpl in Hp. apply andb_true_iff in Hp as [Hc Hr].
      destruct p as [|p].
      + simpl in Ha. inversion Ha; subst c.
        destruct q as [|q]; [lia|]. simpl in Hb.
        rewrite forallb_forall in Hc.
        specialize (Hc b (nth_error_In _ _ Hb)).
        unfold apart in Hc. rewrite Pa, Pb in Hc. simpl in Hc. lia.
      + destruct q as [|q]; [lia|]. simpl in Ha, Hb.
        apply (IH p q a b Hr); auto; lia. }
  intros Hp Hne Ha Hb Pa Pb.
  destruct (Nat.lt_ge_cases p q) as [Hpq | Hpq].
  - apply (Hlt ivs p q a b); auto.
  - assert (q < p)%nat by lia.
    destruct (Hlt ivs q p b a) as [H1 | H1]; auto.
Qed.

End EvalFacts.

(** ** What a satisfying assignment of the formulation guarantees *)

Section PlanFacts.
Variable guests : list Guest.
Variables K W RT : Z.
Variable vehicle_caps : list Z.
Variables min_a max_a horizon : Z.
Variables incompatible together : list Constraint.
Variable v : IntVar -> Z.

Local Abbreviation n := (length guests).
Local Abbreviation model :=
  (build_model guests K W RT vehicle_caps min_a max_a horizon
               incompatible together).

Hypothesis Hsat : satisfies v model = true.

Lemma trip_holds m c :
  (m < n)%nat ->
  In c (trip_constraints guests K W vehicle_caps min_a horizon m) ->
  holds v c = true.
Proof.
  intros Hm Hc. eapply holds_of_satisfies; [exact Hsat|].
  unfold build_model; cbn [constraints].
  rewrite !in_app_iff. right; left.
  apply in_flat_map. exists m. split; [apply in_range, Hm | exact Hc].
Qed.

Lemma wait_holds c : In c (wait_constraints guests) -> holds v c = true.
Proof.
  intros Hc. eapply holds_of_satisfies; [exact Hsat|].
  unfold build_model; cbn [constraints].
  rewrite !in_app_iff. do 5 right. exact Hc.
Qed.

Lemma scheduling_holds c :
  In c (scheduling_constraints guests K RT) -> holds v c = true.
Proof.
  intros Hc. eapply holds_of_satisfies; [exact Hsat|].
  unfold build_model; cbn [constraints].
  rewrite !in_app_iff. do 4 right; left. exact Hc.
Qed.

Lemma assignment_holds c :
  In c (assignment_constraints guests) -> holds v c = true.
Proof.
  intros Hc. eapply holds_of_satisfies; [exact Hsat|].
  unfold build_model; cbn [constraints].
  rewrite !in_app_iff. left. exact Hc.
Qed.

Lemma x_bool i m :
  (i < n)%nat -> (m < n)%nat -> v (x_ i m) = 0 \/ v (x_ i m) = 1.
Proof.
  intros Hi Hm.
  assert (H : 0 <= v (x_ i m) <= 1); [|lia].
  eapply domain_of_satisfies; [exact Hsat|].
  unfold build_model; cbn [variables]. unfold base_variables.
  rewrite !in_app_iff. left; left.
  apply in_flat_map. exists i. split; [apply in_range, Hi|].
  apply in_map_iff. exists m. split; [reflexivity | apply in_range, Hm].
Qed.

Lemma used_bool m : (m < n)%nat -> v (used_ m) = 0 \/ v (used_ m) = 1.
Proof.
  intros Hm.
  assert (H : 0 <= v (used_ m) <= 1); [|lia].
  eapply domain_of_satisfies; [exact Hsat|].
  unfold build_model; cbn [variables]. unfold base_variables.
  rewrite !in_app_iff. left; right; left.
  apply in_map_iff. exists m. split; [reflexivity | apply in_range, Hm].
Qed.

(** The departure of a slot is its largest arrival (line 157). *)
Lemma dep_is_max_arr m : (m < n)%nat -> v (dep_ m) = v (max_arr_ m).
Proof.
  intros Hm.
  assert (H := @trip_holds m (Add (var (dep_ m)) EQ (var (max_arr_ m)) None) Hm).
  cbn [holds compare] in H. rewrite !eval_var in H. apply Z.eqb_eq, H.
  unfold trip_constraints. rewrite !in_app_iff. do 3 right. simpl. tauto.
Qed.

(** A guest placed in a slot makes the slot used (line 113). *)
Lemma x_used i m :
  (i < n)%nat -> (m < n)%nat -> v (x_ i m) = 1 -> v (used_ m) = 1.
Proof.
  intros Hi Hm Hx.
  assert (H := @trip_holds m (AddImplication (Lit (x_ i m)) (Lit (used_ m))) Hm).
  cbn [holds] in H. unfold lit_true, lit_value in H. rewrite Hx in H. simpl in H.
  apply Z.eqb_eq, H.
  unfold trip_constraints. rewrite !in_app_iff. left.
  apply in_map_iff. exists i. split; [reflexivity | apply in_range, Hi].
Qed.

(** Every guest sits in exactly one slot (line 105). *)
Lemma assigned_once i :
  (i < n)%nat -> sumZ (map (fun m => v (x_ i m)) (range n)) = 1.
Proof.
  intros Hi.
  assert (H := @assignment_holds
                 (Add (lsum (map (fun m => x_ i m) (range n))) EQ (const 1) None)).
  cbn [holds compare] in H. rewrite eval_lsum, eval_const, map_map in H.
  apply Z.eqb_eq, H.
  unfold assignment_constraints.
  apply in_map_iff. exists i. split; [reflexivity | apply in_range, Hi].
Qed.

(** A guest's own departure is that of the slot it sits in (line 207). *)
Lemma dep_guest_is_dep i m :
  (i < n)%nat -> (m < n)%nat -> v (x_ i m) = 1 ->
  v (dep_guest_ i) = v (dep_ m).
Proof.
  intros Hi Hm Hx.
  assert (H := @wait_holds (Add (var (dep_guest_ i)) EQ (var (dep_ m))
                               (Some (Lit (x_ i m))))).
  cbn [holds compare] in H. unfold lit_true, lit_value in H.
  rewrite Hx, !eval_var in H.
  simpl in H. apply Z.eqb_eq, H.
  unfold wait_constraints. rewrite in_app_iff. left.
  apply in_flat_map. exists i. split; [apply in_range, Hi|].
  rewrite in_app_iff. left.
  apply in_map_iff. exists m. split; [reflexivity | apply in_range, Hm].
Qed.

(** The wait of a guest (line 210). *)
Lemma wait_is_dep_minus_arrival i :
  (i < n)%nat -> v (wait_ i) = v (dep_guest_ i) - arrival guests i.
Proof.
  intros Hi.
  assert (H := @wait_holds
                 (Add (var (wait_ i)) EQ
                      (minus (var (dep_guest_ i)) (const (arrival guests i)))
                      None)).
  cbn [holds compare] in H. rewrite eval_minus, !eval_var, eval_const in H.
  apply Z.eqb_eq, H.
  unfold wait_constraints. rewrite in_app_iff. left.
  apply in_flat_map. exists i. split; [apply in_range, Hi|].
  rewrite in_app_iff. right. simpl. tauto.
Qed.

(** The total is the sum of the waits (line 214). *)
Lemma total_wait_is_sum :
  v total_wait_ = sumZ (map (fun i => v (wait_ i)) (range n)).
Proof.
  assert (H := @wait_holds (Add (var total_wait_) EQ (lsum (waits guests)) None)).
  cbn [holds compare] in H. unfold waits in H.
  rewrite eval_var, eval_lsum, map_map in H.
  apply Z.eqb_eq, H.
  unfold wait_constraints. rewrite in_app_iff. right. simpl. tauto.
Qed.

(** The end of a slot's interval on a vehicle (line 193). *)
Lemma end_is_dep_plus_RT m k :
  (m < n)%nat -> In k (py_range K) -> v (end_ m k) = v (dep_ m) + RT.
Proof.
  intros Hm Hk.
  assert (H := @scheduling_holds
                 (Add (var (end_ m k)) EQ (plus (var (dep_ m)) (const RT)) None)).
  cbn [holds compare] in H. rewrite eval_plus, !eval_var, eval_const in H.
  apply Z.eqb_eq, H.
  unfold scheduling_constraints.
  apply in_flat_map. exists k. split; [exact Hk|].
  rewrite in_app_iff. left.
  apply in_flat_map. exists m. split; [apply in_range, Hm | simpl; tauto].
Qed.

(** Two slots on one vehicle are a round trip apart (line 200). *)
Lemma same_vehicle_apart m1 m2 k :
  (m1 < n)%nat -> (m2 < n)%nat -> m1 <> m2 -> In k (py_range K) ->
  v (z_ m1 k) = 1 -> v (z_ m2 k) = 1 ->
  v (dep_ m1) + RT <= v (dep_ m2) \/ v (dep_ m2) + RT <= v (dep_ m1).
Proof.
  intros H1 H2 Hne Hk Hz1 Hz2.
  assert (H := @scheduling_holds
                 (AddNoOverlap (map (fun m => interval_mk RT m k) (range n)))).
  cbn [holds] in H.
  assert (Hnth : forall m, (m < n)%nat ->
            nth_error (map (fun m => interval_mk RT m k) (range n)) m
            = Some (interval_mk RT m k)).
  { intros m Hm. rewrite nth_error_map. unfold range.
    rewrite nth_error_seq.
    destruct (Nat.ltb_spec m n); [reflexivity | lia]. }
  rewrite <- (@end_is_dep_plus_RT m1 k H1 Hk), <- (@end_is_dep_plus_RT m2 k H2 Hk).
  apply (@pairwise_apart_nth v (map (fun m => interval_mk RT m k) (range n))
            m1 m2 (interval_mk RT m1 k) (interval_mk RT m2 k));
    auto.
  - apply H. unfold scheduling_constraints.
    apply in_flat_map. exists k. split; [exact Hk|].
    rewrite in_app_iff. right. simpl. tauto.
  - unfold present; simpl. apply Z.eqb_eq, Hz1.
  - unfold present; simpl. apply Z.eqb_eq, Hz2.
Qed.

End PlanFacts.

Arguments x_bool {_ _ _ _ _ _ _ _ _ _ _} _ [_ _] _ _.
Arguments used_bool {_ _ _ _ _ _ _ _ _ _ _} _ [_] _.
Arguments dep_is_max_arr {_ _ _ _ _ _ _ _ _ _ _} _ [_] _.
Arguments x_used {_ _ _ _ _ _ _ _ _ _ _} _ [_ _] _ _ _.
Arguments assigned_once {_ _ _ _ _ _ _ _ _ _ _} _ [_] _.
Arguments dep_guest_is_dep {_ _ _ _ _ _ _ _ _ _ _} _ [_ _] _ _ _.
Arguments wait_is_dep_minus_arrival {_ _ _ _ _ _ _ _ _ _ _} _ [_] _.
Arguments total_wait_is_sum {_ _ _ _ _ _ _ _ _ _ _} _.
Arguments same_vehicle_apart {_ _ _ _ _ _ _ _ _ _ _} _ [_ _ _] _ _ _ _ _ _.

(** ** The returns of [solve_pickups_multitrip] *)

(** Every return of the scheduler is one of the three reports; a plan
    is read off the solver's answer to the formulation of the input. *)
Lemma solve_returns Solve guests params r :
  solve_pickups_multitrip Solve guests params = inr r ->
  (guests = [] /\ r = empty_report params)
  \/ (guests <> [] /\
      existsb (fun c => c <? 1) (normalize_vehicle_caps params) = false /\
      exists min_a max_a horizon incompatible together,
        let model :=
          build_model guests (num_cars params) (max_wait_min params)
                      (round_trip_min params) (normalize_vehicle_caps params)
                      min_a max_a horizon incompatible together in
        (has_solution (status (Solve model)) = false /\ r = infeasible_report)
        \/ (has_solution (status (Solve model)) = true /\
            r = ok_report guests params (Value (Solve model)))).
Proof.
  intros H. unfold solve_pickups_multitrip in H.
  destruct guests as [|g gs].
  - left. split; [reflexivity|]. inversion H. reflexivity.
  - right. split; [discriminate|].
    destruct (existsb _ _); [discriminate|]. split; [reflexivity|].
    destruct (py_max (normalize_vehicle_caps params)) as [e|cap_max];
      [discriminate|].
    cbn [bind py_min py_max map ret] in H.
    destruct (together_constraints _ _ _ _) as [e|together]; [discriminate|].
    cbn [bind] in H.
    do 5 eexists. cbv zeta.
    destruct (has_solution _) eqn:Hs; cbn [negb] in H; inversion H; subst r.
    + right. split; [exact Hs | reflexivity].
    + left. split; [exact Hs | reflexivity].
Qed.

Lemma solve_ok_inv Solve guests params r :
  sound Solve ->
  solve_pickups_multitrip Solve guests params = inr r ->
  guests <> [] ->
  get "status" r = Some (PStr "ok") ->
  exists min_a max_a horizon incompatible together value,
    satisfies value
      (build_model guests (num_cars params) (max_wait_min params)
                   (round_trip_min params) (normalize_vehicle_caps params)
                   min_a max_a horizon incompatible together) = true
    /\ r = ok_report guests params value.
Proof.
  intros Hsound H Hne Hst.
  destruct (solve_returns _ _ _ H) as [[He _] | (_ & _ & H')]; [contradiction|].
  destruct H' as (min_a & max_a & horizon & inc & tog & [[_ Hr] | [Hs Hr]]).
  - subst r. discriminate.
  - exists min_a, max_a, horizon, inc, tog. eexists.
    split; [apply Hsound, Hs | exact Hr].
Qed.

(** ** The plan read off a satisfying assignment *)

Section ExtractionFacts.
Variable guests : list Guest.
Variable K : Z.
Variable vehicle_caps : list Z.
Variable v : IntVar -> Z.

Local Abbreviation n := (length guests).
Local Abbreviation trips_out := (build_trips_out guests K vehicle_caps v).
Local Abbreviation trip m := (trip_out guests K vehicle_caps v m).

Lemma in_trips_out t :
  In t trips_out <->
  exists m, (m < n)%nat /\ v (used_ m) <> 0 /\ t = trip m.
Proof.
  unfold build_trips_out. rewrite sorted_by_In, in_map_iff. split.
  - intros (m & <- & Hm). apply filter_In in Hm as [Hm Hu].
    exists m. rewrite in_range in Hm. repeat split; auto.
    intros E. rewrite E in Hu. discriminate.
  - intros (m & Hm & Hu & ->). exists m. split; [reflexivity|].
    apply filter_In. split; [apply in_range, Hm|].
    apply negb_true_iff, Z.eqb_neq, Hu.
Qed.

Lemma in_guests_of m g :
  In g (guests_of (trip m)) <->
  exists i gst, nth_error guests i = Some gst /\ v (x_ i m) = 1 /\
    g = mkGuestRow (guest_id gst) (name gst) (arrival_min gst) (v (wait_ i)).
Proof.
  cbn [trip_out guests_of]. rewrite sorted_by_In. unfold assigned_to.
  rewrite in_map_iff. split.
  - intros ([i gst] & <- & Hin). apply filter_In in Hin as [Hin Hx].
    cbn [fst snd] in *. exists i, gst.
    repeat split; [apply in_enumerate, Hin | apply Z.eqb_eq, Hx].
  - intros (i & gst & Hnth & Hx & ->). exists (i, gst).
    split; [reflexivity|]. apply filter_In.
    split; [apply in_enumerate, Hnth | apply Z.eqb_eq, Hx].
Qed.

(** The trips carry distinct slot numbers. *)
Lemma trips_out_indices :
  Permutation (map trip_index trips_out)
              (filter (fun m => negb (v (used_ m) =? 0)) (range n)).
Proof.
  unfold build_trips_out.
  eapply perm_trans; [apply Permutation_map, sorted_by_perm|].
  rewrite map_map. cbn [trip_out trip_index]. rewrite map_id.
  apply Permutation_refl.
Qed.

Lemma trips_out_NoDup : NoDup (map trip_index trips_out).
Proof.
  eapply Permutation_NoDup; [apply Permutation_sym, trips_out_indices|].
  apply NoDup_filter. unfold range. apply seq_NoDup.
Qed.

Lemma trips_out_distinct p q t1 t2 :
  nth_error trips_out p = Some t1 -> nth_error trips_out q = Some t2 ->
  p <> q -> trip_index t1 <> trip_index t2.
Proof.
  intros H1 H2 Hne E. apply Hne.
  assert (Hp : (p < length (map trip_index trips_out))%nat).
  { rewrite length_map. apply nth_error_Some. congruence. }
  apply (proj1 (NoDup_nth_error (map trip_index trips_out)) trips_out_NoDup p q Hp).
  rewrite !nth_error_map, H1, H2. simpl. congruence.
Qed.

(** The waits of the guests of one slot, as a guarded sum. *)
Lemma trip_wait_guarded m :
  trip_wait (trip m)
  = sumZ (map (fun i => if v (x_ i m) =? 1 then v (wait_ i) else 0) (range n)).
Proof.
  unfold trip_wait. cbn [trip_out guests_of].
  rewrite (sumZ_perm (Permutation_map wait_min
                        (sorted_by_perm row_arrival_min (assigned_to guests v m)))).
  unfold assigned_to. rewrite map_map. cbn [wait_min].
  rewrite sumZ_filter, <- enumerate_fst, map_map. reflexivity.
Qed.

End ExtractionFacts.

Section PlanTotals.
Variable guests : list Guest.
Variables K W RT : Z.
Variable vehicle_caps : list Z.
Variables min_a max_a horizon : Z.
Variables incompatible together : list Constraint.
Variable v : IntVar -> Z.

Local Abbreviation n := (length guests).
Local Abbreviation trip m := (trip_out guests K vehicle_caps v m).

Hypothesis Hsat :
  satisfies v (build_model guests K W RT vehicle_caps min_a max_a horizon
                           incompatible together) = true.

(** A guest listed in a slot waits from its arrival to the slot's
    departure. *)
Lemma listed_guest_wait m g :
  (m < n)%nat -> In g (guests_of (trip m)) ->
  wait_min g = v (dep_ m) - row_arrival_min g.
Proof.
  intros Hm Hg. apply in_guests_of in Hg as (i & gst & Hnth & Hx & ->).
  cbn [wait_min row_arrival_min].
  assert (Hi : (i < n)%nat) by (apply nth_error_Some; congruence).
  rewrite (wait_is_dep_minus_arrival Hsat Hi).
  rewrite (dep_guest_is_dep Hsat Hi Hm Hx).
  unfold arrival. rewrite Hnth. reflexivity.
Qed.

(** An unused slot lists nobody. *)
Lemma unused_trip_wait m :
  (m < n)%nat -> v (used_ m) = 0 -> trip_wait (trip m) = 0.
Proof.
  intros Hm Hu. rewrite trip_wait_guarded. apply sumZ_map_zero.
  intros i Hi. apply in_range in Hi.
  destruct (v (x_ i m) =? 1) eqn:Hx; [|reflexivity].
  apply Z.eqb_eq in Hx. rewrite (x_used Hsat Hi Hm Hx) in Hu. discriminate.
Qed.

Lemma guest_wait_once i :
  (i < n)%nat ->
  sumZ (map (fun m => if v (x_ i m) =? 1 then v (wait_ i) else 0) (range n))
  = v (wait_ i).
Proof.
  intros Hi.
  rewrite (sumZ_map_ext _ (fun m => v (wait_ i) * v (x_ i m))).
  - rewrite sumZ_map_scale, (assigned_once Hsat Hi). lia.
  - intros m Hm. apply in_range in Hm.
    destruct (x_bool Hsat Hi Hm) as [E | E]; rewrite E; simpl; lia.
Qed.

(** The reported total is the sum of the waits listed in the plan. *)
Lemma plan_wait_is_total :
  plan_wait (build_trips_out guests K vehicle_caps v) = v total_wait_.
Proof.
  unfold plan_wait, build_trips_out.
  rewrite (sumZ_perm (Permutation_map trip_wait (sorted_by_perm departure_min _))).
  rewrite map_map, sumZ_filter.
  rewrite (sumZ_map_ext _ (fun m => trip_wait (trip m))).
  - rewrite (sumZ_map_ext _ (fun m =>
        sumZ (map (fun i => if v (x_ i m) =? 1 then v (wait_ i) else 0) (range n))))
      by (intros; apply trip_wait_guarded).
    rewrite (sumZ_exchange
               (fun m i => if v (x_ i m) =? 1 then v (wait_ i) else 0)).
    rewrite (total_wait_is_sum Hsat).
    apply sumZ_map_ext. intros i Hi. apply guest_wait_once, in_range, Hi.
  - intros m Hm. apply in_range in Hm.
    destruct (v (used_ m) =? 0) eqn:Hu; simpl; [|reflexivity].
    symmetry. apply unused_trip_wait; [exact Hm | apply Z.eqb_eq, Hu].
Qed.

End PlanTotals.

Arguments listed_guest_wait {_ _ _ _ _ _ _ _ _ _ _} _ [_ _] _ _.
Arguments plan_wait_is_total {_ _ _ _ _ _ _ _ _ _ _} _.

(** Reading fields of the reports. *)
Lemma ok_report_trips guests params value :
  get "trips" (ok_report guests params value)
  = Some (PTrips (build_trips_out guests (num_cars params)
                                  (normalize_vehicle_caps params) value)).
Proof. reflexivity. Qed.

Lemma ok_report_round_trip guests params value :
  get "round_trip_min" (ok_report guests params value)
  = Some (PInt (round_trip_min params)).
Proof. reflexivity. Qed.

Lemma ok_report_total guests params value :
  get "total_wait_min" (ok_report guests params value)
  = Some (PInt (value total_wait_)).
Proof. reflexivity. Qed.

Lemma ok_report_num_trips guests params value :
  get "num_trips_used" (ok_report guests params value)
  = Some (PInt (len (build_trips_out guests (num_cars params)
                                     (normalize_vehicle_caps params) value))).
Proof. reflexivity. Qed.

Lemma empty_report_trips params :
  get "trips" (empty_report params) = Some (PTrips []).
Proof. reflexivity. Qed.

(** The trips of an "ok" report: none for the empty guest list, and
    otherwise the plan of an assignment that satisfies the formulation. *)
Lemma ok_trips_inv Solve guests params r trips :
  sound Solve ->
  solve_pickups_multitrip Solve guests params = inr r ->
  get "status" r = Some (PStr "ok") ->
  get "trips" r = Some (PTrips trips) ->
  trips = [] \/
  exists min_a max_a horizon incompatible together value,
    satisfies value
      (build_model guests (num_cars params) (max_wait_min params)
                   (round_trip_min params) (normalize_vehicle_caps params)
                   min_a max_a horizon incompatible together) = true
    /\ r = ok_report guests params value
    /\ trips = build_trips_out guests (num_cars params)
                               (normalize_vehicle_caps params) value.
Proof.
  intros Hsound H Hst Htrips.
  destruct (solve_returns _ _ _ H) as [[-> ->] | (Hne & _)].
  - left. rewrite empty_report_trips in Htrips. congruence.
  - right.
    destruct (solve_ok_inv params Hsound H) as (a & b & h & inc & tog & value & Hs & Hr);
      [exact Hne | exact Hst |].
    exists a, b, h, inc, tog, value. repeat split; auto.
    subst r. rewrite ok_report_trips in Htrips. congruence.
Qed.

Lemma checking_solver_sound candidate : sound (checking_solver candidate).
Proof.
  intros model. unfold checking_solver.
  destruct (satisfies candidate model) eqn:Hs; simpl; [auto | discriminate].
Qed.

(** ** The worked inputs, solved *)

Lemma scenario_A_solved :
  solve_pickups_multitrip (checking_solver scenario_A_plan)
                          scenario_A_guests scenario_A_params
  = inr scenario_A_report.
Proof. vm_compute. reflexivity. Qed.

Lemma relay_solved :
  solve_pickups_multitrip (checking_solver relay_plan) relay_guests relay_params
  = inr relay_report.
Proof. vm_compute. reflexivity. Qed.


(** ** Unknown guest ids *)

Lemma fold_dict_set_none (l : list (nat * Guest)) d gid :
  fold_left (fun d ig => dict_set d (guest_id (snd ig)) (fst ig)) l d gid = None
  <-> d gid = None /\ ~ In gid (map (fun ig => guest_id (snd ig)) l).
Proof.
  revert d; induction l as [|[i g] l IH]; intros d; cbn [fold_left map].
  - simpl. tauto.
  - rewrite IH. unfold dict_set; cbn [fst snd].
    destruct (String.eqb_spec gid (guest_id g)) as [E | E].
    + split; [intros [H _]; discriminate|].
      intros [_ H]. exfalso. apply H. left. congruence.
    + split.
      * intros [H1 H2]. split; [exact H1|]. intros [H | H]; [congruence | auto].
      * intros [H1 H2]. split; [exact H1|]. intros H. apply H2. right. exact H.
Qed.

(** An id is missing from [id_to_i] exactly when no guest carries it. *)
Lemma id_to_i_none guests gid :
  build_id_to_i guests gid = None <-> ~ In gid (map guest_id guests).
Proof.
  unfold build_id_to_i. rewrite fold_dict_set_none.
  rewrite <- (map_map snd guest_id), enumerate_snd. tauto.
Qed.

(** A pair that names an unknown guest adds no constraint. *)
Lemma unknown_pair_skipped guests pre post gid1 gid2 :
  ~ In gid1 (map guest_id guests) \/ ~ In gid2 (map guest_id guests) ->
  incompatibility_constraints guests (build_id_to_i guests)
                              (pre ++ (gid1, gid2) :: post)
  = incompatibility_constraints guests (build_id_to_i guests) (pre ++ post).
Proof.
  intros H. unfold incompatibility_constraints.
  rewrite !flat_map_app. f_equal. cbn [flat_map fst snd].
  destruct H as [H | H]; apply id_to_i_none in H; rewrite H.
  - reflexivity.
  - destruct (build_id_to_i guests gid1); reflexivity.
Qed.

Lemma bad_rule_refused guests K rule :
  names_unknown_guest guests rule \/ vehicle_out_of_range K rule ->
  exists e,
    together_constraints guests K (build_id_to_i guests) (Some rule) = inl e.
Proof.
  intros H. unfold together_constraints.
  destruct rule as [[ga|] [gb|] [k0|]];
    cbn [getitem bind ret raise rule_guest_id_a rule_guest_id_b
         rule_vehicle_index] in *;
    try (eexists; reflexivity).
  destruct (build_id_to_i guests ga) as [ia|] eqn:Ha;
    [|eexists; reflexivity].
  destruct (build_id_to_i guests gb) as [ib|] eqn:Hb;
    [|eexists; reflexivity].
  destruct H as [(gid & [E | E] & Hun) | (k & E & Hk)].
  - inversion E; subst gid. apply id_to_i_none in Hun. congruence.
  - inversion E; subst gid. apply id_to_i_none in Hun. congruence.
  - inversion E; subst k.
    assert (Hr : negb ((0 <=? k0) && (k0 <? K)) = true).
    { apply negb_true_iff, andb_false_iff.
      destruct (Z.leb_spec 0 k0); [|left; reflexivity].
      destruct (Z.ltb_spec k0 K); [lia | right; reflexivity]. }
    rewrite Hr. eexists; reflexivity.
Qed.

Lemma solve_unknown_pair Solve guests params pre post gid1 gid2 :
  ~ In gid1 (map guest_id guests) \/ ~ In gid2 (map guest_id guests) ->
  solve_pickups_multitrip Solve guests
    (with_pairs params (pre ++ (gid1, gid2) :: post))
  = solve_pickups_multitrip Solve guests (with_pairs params (pre ++ post)).
Proof.
  intros H. unfold solve_pickups_multitrip.
  destruct guests as [|g gs]; [reflexivity|].
  change (normalize_vehicle_caps (with_pairs params (pre ++ (gid1, gid2) :: post)))
    with (normalize_vehicle_caps (with_pairs params (pre ++ post))).
  cbn [with_pairs incompatible_pairs num_cars max_wait_min round_trip_min
       must_ride_together_in_vehicle time_horizon_min].
  rewrite (@unknown_pair_skipped (g :: gs) pre post gid1 gid2 H). reflexivity.
Qed.

Lemma solve_bad_rule Solve guests params rule :
  guests <> [] ->
  must_ride_together_in_vehicle params = Some rule ->
  names_unknown_guest guests rule \/ vehicle_out_of_range (num_cars params) rule ->
  exists e, solve_pickups_multitrip Solve guests params = inl e.
Proof.
  intros Hne Hrule Hbad. unfold solve_pickups_multitrip.
  destruct guests as [|g gs]; [contradiction|].
  destruct (existsb _ _); [eexists; reflexivity|].
  destruct (py_max (normalize_vehicle_caps params)) as [e|cap_max];
    [eexists; reflexivity|].
  cbn [bind py_min py_max map ret].
  rewrite Hrule.
  destruct (@bad_rule_refused (g :: gs) (num_cars params) rule Hbad) as (e & ->).
  exists e. reflexivity.
Qed.

(** ** Every guest rides exactly once *)

Lemma sumZ_nonneg {A : Type} (g : A -> Z) l :
  (forall a, In a l -> 0 <= g a) -> 0 <= sumZ (map g l).
Proof.
  induction l as [|c l IH]; simpl; intros H; [lia|].
  assert (0 <= g c) by auto. assert (0 <= sumZ (map g l)) by auto. lia.
Qed.

Lemma sumZ_ge_one {A : Type} (g : A -> Z) l a :
  (forall c, In c l -> 0 <= g c) -> In a l -> g a <= sumZ (map g l).
Proof.
  induction l as [|c l IH]; simpl; intros H Ha; [contradiction|].
  assert (0 <= g c) by auto.
  assert (0 <= sumZ (map g l)) by (apply sumZ_nonneg; auto).
  destruct Ha as [-> | Ha]; [lia|].
  assert (g a <= sumZ (map g l)) by auto. lia.
Qed.

Lemma sumZ_ge_two {A : Type} (g : A -> Z) l a b :
  (forall c, In c l -> 0 <= g c) -> In a l -> In b l -> a <> b ->
  g a + g b <= sumZ (map g l).
Proof.
  induction l as [|c l IH]; simpl; intros H Ha Hb Hne; [contradiction|].
  assert (0 <= g c) by auto.
  assert (Hl : forall c, In c l -> 0 <= g c) by auto.
  destruct Ha as [-> | Ha], Hb as [-> | Hb].
  - contradiction.
  - assert (g b <= sumZ (map g l)) by (apply sumZ_ge_one; auto). lia.
  - assert (g a <= sumZ (map g l)) by (apply sumZ_ge_one; auto). lia.
  - assert (g a + g b <= sumZ (map g l)) by auto. lia.
Qed.

Lemma sumZ_positive_term {A : Type} (g : A -> Z) l :
  sumZ (map g l) <> 0 -> exists a, In a l /\ g a <> 0.
Proof.
  induction l as [|c l IH]; simpl; intros H; [contradiction|].
  destruct (Z.eq_dec (g c) 0) as [E | E].
  - destruct IH as (a & Ha & Hg); [lia|]. exists a. auto.
  - exists c. auto.
Qed.

Lemma NoDup_flat_map_disjoint {A B : Type} (f : A -> list B) l :
  (forall a, In a l -> NoDup (f a)) ->
  (forall a b y, In a l -> In b l -> In y (f a) -> In y (f b) -> a = b) ->
  NoDup l -> NoDup (flat_map f l).
Proof.
  induction l as [|c l IH]; simpl; intros Hf Hd Hl; [constructor|].
  inversion Hl as [|? ? Hc Hl']; subst.
  apply NoDup_app.
  - apply Hf. left; reflexivity.
  - apply IH; auto. intros a b y Ha Hb. apply Hd; auto.
  - intros y Hy Hy'. apply in_flat_map in Hy' as (b & Hb & Hy').
    assert (c = b) by (apply (Hd c b y); auto).
    subst b. contradiction.
Qed.

Lemma flat_map_perm {A B : Type} (f : A -> list B) l l' :
  Permutation l l' -> Permutation (flat_map f l) (flat_map f l').
Proof.
  induction 1; simpl.
  - constructor.
  - apply Permutation_app_head. assumption.
  - rewrite !app_assoc. apply Permutation_app_tail, Permutation_app_comm.
  - eapply perm_trans; eassumption.
Qed.

Lemma filter_none {A : Type} (p : A -> bool) l :
  (forall a, In a l -> p a = false) -> filter p l = [].
Proof.
  induction l as [|c l IH]; simpl; intros H; [reflexivity|].
  rewrite (H c) by auto. apply IH. auto.
Qed.

Lemma flat_map_perm_pointwise {A B : Type} (f g : A -> list B) l :
  (forall a, In a l -> Permutation (f a) (g a)) ->
  Permutation (flat_map f l) (flat_map g l).
Proof.
  induction l as [|c l IH]; simpl; intros H; [constructor|].
  apply Permutation_app; auto.
Qed.

Lemma flat_map_filter_nil {A B : Type} (p : A -> bool) (f : A -> list B) l :
  (forall a, In a l -> p a = false -> f a = []) ->
  flat_map f (filter p l) = flat_map f l.
Proof.
  induction l as [|c l IH]; simpl; intros H; [reflexivity|].
  destruct (p c) eqn:E; simpl; rewrite IH by auto; [reflexivity|].
  rewrite (H c) by auto. reflexivity.
Qed.

Lemma map_flat_map {A B C : Type} (h : B -> C) (f : A -> list B) l :
  map h (flat_map f l) = flat_map (fun a => map h (f a)) l.
Proof.
  induction l as [|c l IH]; simpl; [reflexivity|].
  rewrite map_app, IH. reflexivity.
Qed.

Lemma enumerate_NoDup {A : Type} (l : list A) : NoDup (enumerate l).
Proof.
  apply (NoDup_map_inv fst). rewrite enumerate_fst. apply seq_NoDup.
Qed.

Section Partition.
Variable guests : list Guest.
Variables K W RT : Z.
Variable vehicle_caps : list Z.
Variables min_a max_a horizon : Z.
Variables incompatible together : list Constraint.
Variable v : IntVar -> Z.

Local Abbreviation n := (length guests).

Hypothesis Hsat :
  satisfies v (build_model guests K W RT vehicle_caps min_a max_a horizon
                           incompatible together) = true.

Lemma one_slot_per_guest i m1 m2 :
  (i < n)%nat -> (m1 < n)%nat -> (m2 < n)%nat ->
  v (x_ i m1) = 1 -> v (x_ i m2) = 1 -> m1 = m2.
Proof.
  intros Hi H1 H2 E1 E2.
  destruct (Nat.eq_dec m1 m2) as [E | Hne]; [exact E | exfalso].
  assert (H := @sumZ_ge_two nat (fun m => v (x_ i m)) (range n) m1 m2).
  cbv beta in H. rewrite (assigned_once Hsat Hi), E1, E2 in H.
  assert (1 + 1 <= 1); [|lia].
  apply H; auto; try (apply in_range; assumption).
  intros m Hm. apply in_range in Hm.
  destruct (x_bool Hsat Hi Hm); lia.
Qed.

Lemma some_slot_per_guest i :
  (i < n)%nat -> exists m, (m < n)%nat /\ v (x_ i m) = 1.
Proof.
  intros Hi.
  destruct (@sumZ_positive_term nat (fun m => v (x_ i m)) (range n))
    as (m & Hm & Hx).
  - rewrite (assigned_once Hsat Hi). discriminate.
  - apply in_range in Hm. exists m. split; [exact Hm|].
    destruct (x_bool Hsat Hi Hm); [contradiction | assumption].
Qed.

Lemma seated_partition :
  Permutation (flat_map (seated guests v) (range n)) (enumerate guests).
Proof.
  apply NoDup_Permutation.
  - apply NoDup_flat_map_disjoint.
    + intros m _. apply NoDup_filter, enumerate_NoDup.
    + intros m1 m2 [i g] H1 H2 Hin1 Hin2.
      apply in_range in H1, H2.
      apply filter_In in Hin1 as [Hin Hx1]. apply filter_In in Hin2 as [_ Hx2].
      cbn [fst] in *. apply Z.eqb_eq in Hx1, Hx2.
      apply in_enumerate in Hin.
      assert (Hi : (i < n)%nat) by (apply nth_error_Some; congruence).
      apply (one_slot_per_guest Hi H1 H2 Hx1 Hx2).
    + apply seq_NoDup.
  - apply enumerate_NoDup.
  - intros [i g]. rewrite in_flat_map. split.
    + intros (m & _ & Hin). apply filter_In in Hin. tauto.
    + intros Hin. assert (Hnth := proj1 (in_enumerate guests i g) Hin).
      assert (Hi : (i < n)%nat) by (apply nth_error_Some; congruence).
      destruct (some_slot_per_guest Hi) as (m & Hm & Hx).
      exists m. split; [apply in_range, Hm|].
      apply filter_In. split; [exact Hin | apply Z.eqb_eq, Hx].
Qed.

Lemma listed_trip m :
  Permutation (map row_guest (guests_of (trip_out guests K vehicle_caps v m)))
              (map snd (seated guests v m)).
Proof.
  cbn [trip_out guests_of].
  eapply perm_trans; [apply Permutation_map, sorted_by_perm|].
  unfold assigned_to, seated. rewrite map_map.
  erewrite map_ext; [apply Permutation_refl|].
  intros [i [gid nm arr]]. reflexivity.
Qed.

(** The trips list every guest of the input exactly once. *)
Lemma listed_is_guests :
  Permutation (listed (build_trips_out guests K vehicle_caps v)) guests.
Proof.
  unfold listed, build_trips_out.
  eapply perm_trans; [apply flat_map_perm, sorted_by_perm|].
  rewrite flat_map_concat_map, map_map, <- flat_map_concat_map.
  rewrite flat_map_filter_nil.
  - eapply perm_trans; [apply flat_map_perm_pointwise; intros m _; apply listed_trip|].
    rewrite <- map_flat_map.
    eapply perm_trans; [apply Permutation_map, seated_partition|].
    rewrite enumerate_snd. apply Permutation_refl.
  - intros m Hm Hu. apply in_range in Hm.
    apply negb_false_iff, Z.eqb_eq in Hu.
    cbn [trip_out guests_of].
    assert (E : assigned_to guests v m = []); [|rewrite E; reflexivity].
    unfold assigned_to.
    assert (E : filter (fun ig => v (x_ (fst ig) m) =? 1) (enumerate guests) = []);
      [|rewrite E; reflexivity].
    apply filter_none.
    intros [i g] Hin. cbn [fst]. apply Z.eqb_neq. intros Hx.
    apply in_enumerate in Hin.
    assert (Hi : (i < n)%nat) by (apply nth_error_Some; congruence).
    rewrite (x_used Hsat Hi Hm Hx) in Hu. discriminate.
Qed.

End Partition.

Arguments listed_is_guests {_ _ _ _ _ _ _ _ _ _ _} _.

(** ** Reordering the guest list *)





(** ** Vehicles, seats and departure times *)

Section FleetFacts.
Variable guests : list Guest.
Variables K W RT : Z.
Variable vehicle_caps : list Z.
Variables min_a max_a horizon : Z.
Variables incompatible together : list Constraint.
Variable v : IntVar -> Z.

Local Abbreviation n := (length guests).
Local Abbreviation model :=
  (build_model guests K W RT vehicle_caps min_a max_a horizon
               incompatible together).

Hypothesis Hsat : satisfies v model = true.

Lemma fleet_trip_holds m c :
  (m < n)%nat ->
  In c (trip_constraints guests K W vehicle_caps min_a horizon m) ->
  holds v c = true.
Proof. intros Hm Hc. eapply trip_holds; eassumption. Qed.

Lemma z_bool m k :
  (m < n)%nat -> In k (py_range K) -> v (z_ m k) = 0 \/ v (z_ m k) = 1.
Proof.
  intros Hm Hk.
  assert (H : 0 <= v (z_ m k) <= 1); [|lia].
  eapply domain_of_satisfies; [exact Hsat|].
  unfold build_model; cbn [variables]. unfold base_variables.
  rewrite !in_app_iff. left. do 5 right.
  apply in_flat_map. exists m. split; [apply in_range, Hm|].
  apply in_map_iff. exists k. split; [reflexivity | exact Hk].
Qed.

(** A used slot has exactly one vehicle, an unused one none (line 119). *)
Lemma vehicle_sum m :
  (m < n)%nat -> sumZ (map (fun k => v (z_ m k)) (py_range K)) = v (used_ m).
Proof.
  intros Hm.
  assert (H : holds v (Add (lsum (map (fun k => z_ m k) (py_range K))) EQ
                           (var (used_ m)) None) = true).
  { apply (@fleet_trip_holds m _ Hm). unfold trip_constraints.
    rewrite !in_app_iff. right; left. simpl. tauto. }
  cbn [holds compare] in H. rewrite eval_lsum, eval_var, map_map in H.
  apply Z.eqb_eq, H.
Qed.

(** The riders of a slot fit the seats of its vehicle (line 123). *)
Lemma load_fits m :
  (m < n)%nat ->
  sumZ (map (fun i => v (x_ i m)) (range n))
  <= sumZ (map (fun k => nth k vehicle_caps 0 * v (z_ m k)) (py_range K)).
Proof.
  intros Hm.
  assert (H : holds v (Add (trip_load guests m) LE
                 (mkLinear (map (fun k => (nth k vehicle_caps 0, z_ m k))
                                (py_range K)) 0) None) = true).
  { apply (@fleet_trip_holds m _ Hm). unfold trip_constraints.
    rewrite !in_app_iff. right; left. simpl. tauto. }
  cbn [holds compare] in H. unfold trip_load in H.
  rewrite eval_lsum, eval_terms, !map_map in H. cbn [fst snd] in H.
  apply Z.leb_le in H. lia.
Qed.

Lemma max_arr_bounded m : (m < n)%nat -> v (max_arr_ m) <= max_a.
Proof.
  intros Hm.
  assert (H : BIG_NEG <= v (max_arr_ m) <= max_a); [|lia].
  eapply domain_of_satisfies; [exact Hsat|].
  unfold build_model; cbn [variables]. unfold base_variables.
  rewrite !in_app_iff. left. do 4 right; left.
  apply in_map_iff. exists m. split; [reflexivity | apply in_range, Hm].
Qed.

(** A slot leaves no earlier than any of its riders arrives. *)
Lemma dep_after_arrival i m :
  (i < n)%nat -> (m < n)%nat -> v (x_ i m) = 1 ->
  arrival guests i <= v (dep_ m).
Proof.
  intros Hi Hm Hx.
  rewrite (dep_is_max_arr Hsat Hm).
  assert (Hv : holds v (Add (var (vmax_ i m)) EQ (const (arrival guests i))
                            (Some (Lit (x_ i m)))) = true).
  { apply (@fleet_trip_holds m _ Hm). unfold trip_constraints. rewrite !in_app_iff.
    right; right; left. apply in_flat_map. exists i.
    split; [apply in_range, Hi | simpl; tauto]. }
  assert (Hmax : holds v (AddMaxEquality (max_arr_ m)
                   (map (fun i => vmax_ i m) (range n) ++ [dummy_max_ m])) = true).
  { apply (@fleet_trip_holds m _ Hm). unfold trip_constraints.
    rewrite !in_app_iff. do 3 right. simpl. tauto. }
  cbn [holds compare] in Hmax, Hv. unfold lit_true, lit_value in Hv.
  rewrite Hx, eval_var, eval_const in Hv. simpl in Hv.
  apply Z.eqb_eq in Hv. rewrite <- Hv.
  apply andb_true_iff in Hmax as [_ Hall].
  rewrite forallb_forall in Hall. apply Z.leb_le, Hall.
  rewrite in_app_iff. left. apply in_map_iff. exists i.
  split; [reflexivity | apply in_range, Hi].
Qed.

End FleetFacts.

Arguments z_bool {_ _ _ _ _ _ _ _ _ _ _} _ [_ _] _ _.
Arguments vehicle_sum {_ _ _ _ _ _ _ _ _ _ _} _ [_] _.
Arguments load_fits {_ _ _ _ _ _ _ _ _ _ _} _ [_] _.
Arguments max_arr_bounded {_ _ _ _ _ _ _ _ _ _ _} _ [_] _.
Arguments dep_after_arrival {_ _ _ _ _ _ _ _ _ _ _} _ [_ _] _ _ _.

(** Both answers of [tie_solver] are optimal: no assignment that
    satisfies the formulation of two guests with different arrival
    minutes has an objective below 2. *)
Section TwoGuests.
Variables g0 g1 : Guest.
Variables K W RT : Z.
Variable vehicle_caps : list Z.
Variables min_a max_a horizon : Z.
Variables incompatible together : list Constraint.
Variable v : IntVar -> Z.

Local Abbreviation pair := [g0; g1].
Local Abbreviation model :=
  (build_model pair K W RT vehicle_caps min_a max_a horizon
               incompatible together).

Hypothesis Hsat : satisfies v model = true.

Lemma wait_of_rider i m :
  (i < 2)%nat -> (m < 2)%nat -> v (x_ i m) = 1 ->
  v (wait_ i) = v (dep_ m) - arrival pair i.
Proof.
  intros Hi Hm Hx.
  rewrite (wait_is_dep_minus_arrival Hsat Hi), (dep_guest_is_dep Hsat Hi Hm Hx).
  reflexivity.
Qed.

Lemma objective_two_guests :
  eval v (objective model) = v (wait_ 0) + v (wait_ 1) + (v (used_ 0) + v (used_ 1)).
Proof.
  unfold build_model; cbn [objective]. unfold minimized, trip_penalty.
  rewrite eval_plus, eval_scale, eval_var, eval_lsum, (total_wait_is_sum Hsat).
  unfold range, sumZ. cbn [length seq map fold_right]. lia.
Qed.

Lemma objective_at_least_two :
  arrival_min g0 <> arrival_min g1 -> 2 <= eval v (objective model).
Proof.
  intros Hne. rewrite objective_two_guests.
  assert (L0 : (0 < 2)%nat) by lia. assert (L1 : (1 < 2)%nat) by lia.
  destruct (some_slot_per_guest pair K W RT vehicle_caps min_a max_a horizon
              incompatible together v Hsat L0) as (m0 & Hm0 & Hx0).
  destruct (some_slot_per_guest pair K W RT vehicle_caps min_a max_a horizon
              incompatible together v Hsat L1) as (m1 & Hm1 & Hx1).
  assert (Hu0 := x_used Hsat L0 Hm0 Hx0).
  assert (Hu1 := x_used Hsat L1 Hm1 Hx1).
  assert (Hw0 := wait_of_rider L0 Hm0 Hx0).
  assert (Hw1 := wait_of_rider L1 Hm1 Hx1).
  assert (Hd0 := dep_after_arrival Hsat L0 Hm0 Hx0).
  assert (Hd1 := dep_after_arrival Hsat L1 Hm1 Hx1).
  assert (Hb0 := used_bool Hsat L0). assert (Hb1 := used_bool Hsat L1).
  unfold arrival in *. cbn [nth_error length] in *.
  destruct (Nat.eq_dec m0 m1) as [E | E].
  - subst m1.
    assert (Hd01 := dep_after_arrival Hsat L1 Hm0 Hx1).
    assert (Hd10 := dep_after_arrival Hsat L0 Hm0 Hx0).
    unfold arrival in *. cbn [nth_error] in *.
    assert (1 <= v (used_ 0) + v (used_ 1)).
    { destruct m0 as [|[|]]; lia. }
    lia.
  - assert (v (used_ 0) + v (used_ 1) = 2).
    { destruct m0 as [|[|]], m1 as [|[|]]; lia. }
    lia.
Qed.

End TwoGuests.

(** What the scheduler does on the two orders, for any solver. *)
Lemma tie_formulation Solve :
  solve_pickups_multitrip Solve tie_guests tie_params
  = (if negb (has_solution (status (Solve tie_model)))
     then inr infeasible_report
     else inr (ok_report tie_guests tie_params (Value (Solve tie_model))))
  /\ solve_pickups_multitrip Solve tie_guests_reordered tie_params
     = (if negb (has_solution (status (Solve tie_model_reordered)))
        then inr infeasible_report
        else inr (ok_report tie_guests_reordered tie_params
                            (Value (Solve tie_model_reordered)))).
Proof. split; reflexivity. Qed.

Lemma tie_answers_optimal :
  (satisfies together_plan tie_model = true /\
   forall v, satisfies v tie_model = true ->
     eval together_plan (objective tie_model) <= eval v (objective tie_model))
  /\
  (satisfies apart_plan tie_model_reordered = true /\
   forall v, satisfies v tie_model_reordered = true ->
     eval apart_plan (objective tie_model_reordered)
     <= eval v (objective tie_model_reordered)).
Proof.
  split; (split; [vm_compute; reflexivity|]); intros v Hv.
  - change (eval together_plan (objective tie_model)) with 2.
    apply (objective_at_least_two _ _ _ _ _ _ _ _ _ _ _ _ Hv). discriminate.
  - change (eval apart_plan (objective tie_model_reordered)) with 2.
    apply (objective_at_least_two _ _ _ _ _ _ _ _ _ _ _ _ Hv). discriminate.
Qed.

(** The trips of an "ok" report list every guest of the input exactly
    once. *)
Lemma ok_trips_listed Solve guests params r trips :
  sound Solve ->
  solve_pickups_multitrip Solve guests params = inr r ->
  get "status" r = Some (PStr "ok") ->
  get "trips" r = Some (PTrips trips) ->
  Permutation (listed trips) guests /\
  get "num_guests" r = Some (PInt (Z.of_nat (length guests))).
Proof.
  intros Hsound H Hst Htrips.
  destruct (solve_returns _ _ _ H) as [[-> ->] | (Hne & _)].
  - rewrite empty_report_trips in Htrips. inversion Htrips; subst trips.
    split; [constructor | reflexivity].
  - destruct (solve_ok_inv params Hsound H Hne Hst)
      as (a & b & h & inc & tog & v & Hsat & ->).
    rewrite ok_report_trips in Htrips. inversion Htrips; subst trips.
    split; [apply (listed_is_guests Hsat) | reflexivity].
Qed.

(** ** Capacities: exactly [K] entries *)

Lemma normalized_length params :
  0 <= num_cars params ->
  len (normalize_vehicle_caps params) = num_cars params.
Proof.
  intros HK. unfold normalize_vehicle_caps.
  set (K := num_cars params) in *. set (c := capacity_per_car params).
  set (caps := match vehicle_capacities params with
               | Some raw_caps => raw_caps
               | None => py_repeat c K
               end).
  destruct (Z.ltb_spec (len caps) K) as [Hlt | Hge].
  - unfold len, py_repeat in *. rewrite length_app, repeat_length. lia.
  - destruct (Z.ltb_spec K (len caps)) as [Hgt | Hle]; [|lia].
    unfold py_slice_to. destruct (Z.leb_spec 0 K); [|lia].
    unfold len in *. rewrite length_firstn. lia.
Qed.

(** With at least one vehicle and no grouping rule, the capacity check
    is the only way for a non-empty instance to be refused. *)
Lemma refused_only_for_capacity Solve guests params :
  guests <> [] -> 1 <= num_cars params ->
  must_ride_together_in_vehicle params = None ->
  (exists e, solve_pickups_multitrip Solve guests params = inl e) <->
  (exists cap, In cap (normalize_vehicle_caps params) /\ cap < 1).
Proof.
  intros Hne HK Hrule. unfold solve_pickups_multitrip.
  destruct guests as [|g gs]; [contradiction|].
  assert (Hlen := normalized_length params ltac:(lia)).
  destruct (existsb _ _) eqn:Hex.
  - split; [intros _ | intros _; eexists; reflexivity].
    apply existsb_exists in Hex as (cap & Hin & Hlt).
    exists cap. split; [exact Hin | apply Z.ltb_lt, Hlt].
  - split.
    + intros (e & He). exfalso.
      destruct (normalize_vehicle_caps params) as [|c0 caps];
        [unfold len in Hlen; simpl in Hlen; lia|].
      rewrite Hrule in He. cbn [py_min py_max map bind ret together_constraints] in He.
      destruct (negb _); discriminate.
    + intros (cap & Hin & Hlt). exfalso.
      assert (existsb (fun c => c <? 1) (normalize_vehicle_caps params) = true).
      { apply existsb_exists. exists cap. split; [exact Hin | apply Z.ltb_lt, Hlt]. }
      congruence.
Qed.

(** ** Three simultaneous guests: the grouping follows list positions *)

(** Who rides in a slot, by guest id. *)
Lemma in_riders guests K vehicle_caps v m gid :
  In gid (riders (trip_out guests K vehicle_caps v m)) <->
  exists p gst, nth_error guests p = Some gst /\ v (x_ p m) = 1 /\
                guest_id gst = gid.
Proof.
  unfold riders. rewrite in_map_iff. split.
  - intros (row & <- & Hin). apply in_guests_of in Hin as (p & gst & H1 & H2 & ->).
    exists p, gst. auto.
  - intros (p & gst & H1 & H2 & <-).
    exists (mkGuestRow (guest_id gst) (name gst) (arrival_min gst) (v (wait_ p))).
    split; [reflexivity|]. apply in_guests_of. exists p, gst. auto.
Qed.

(** The scheduler hands the solver the same formulation for the three
    orders, and reads the three plans off the same answer. *)
Lemma trio_formulation Solve guests :
  guests = trio_guests \/ guests = trio_swap_12 \/ guests = trio_swap_01 ->
  solve_pickups_multitrip Solve guests trio_params
  = (if negb (has_solution (status (Solve trio_model)))
     then inr infeasible_report
     else inr (ok_report guests trio_params (Value (Solve trio_model)))).
Proof. intros [-> | [-> | ->]]; reflexivity. Qed.

Section Trio.
Variable v : IntVar -> Z.
Hypothesis Hsat : satisfies v trio_model = true.

Lemma trio_x_bool i m :
  (i < 3)%nat -> (m < 3)%nat -> v (x_ i m) = 0 \/ v (x_ i m) = 1.
Proof. intros Hi Hm. apply (x_bool Hsat Hi Hm). Qed.

Lemma trio_slot i : (i < 3)%nat -> exists m, (m < 3)%nat /\ v (x_ i m) = 1.
Proof.
  intros Hi.
  apply (some_slot_per_guest trio_guests 2 0 60 [2; 2] 0 0 60 [] [] v Hsat Hi).
Qed.

Lemma trio_one_slot i m1 m2 :
  (i < 3)%nat -> (m1 < 3)%nat -> (m2 < 3)%nat ->
  v (x_ i m1) = 1 -> v (x_ i m2) = 1 -> m1 = m2.
Proof.
  intros Hi H1 H2.
  apply (one_slot_per_guest trio_guests 2 0 60 [2; 2] 0 0 60 [] [] v Hsat Hi H1 H2).
Qed.

(** At most two riders per slot. *)
Lemma trio_load m :
  (m < 3)%nat -> v (x_ 0 m) + v (x_ 1 m) + v (x_ 2 m) <= 2.
Proof.
  intros Hm.
  assert (Hl := load_fits Hsat Hm). assert (Hs := vehicle_sum Hsat Hm).
  assert (Hu := used_bool Hsat Hm).
  change (py_range 2) with [0; 1]%nat in Hl, Hs.
  change (range (length trio_guests)) with [0; 1; 2]%nat in Hl.
  unfold sumZ in Hl, Hs. cbn [map fold_right nth] in Hl, Hs.
  lia.
Qed.

(** A used slot leaves at minute 0. *)
Lemma trio_departure i m :
  (i < 3)%nat -> (m < 3)%nat -> v (x_ i m) = 1 -> v (dep_ m) = 0.
Proof.
  intros Hi Hm Hx.
  assert (Hlo := dep_after_arrival Hsat Hi Hm Hx).
  assert (Hhi := max_arr_bounded Hsat Hm).
  rewrite <- (dep_is_max_arr Hsat Hm) in Hhi.
  assert (E : arrival trio_guests i = 0).
  { destruct i as [|[|[|]]]; try reflexivity. lia. }
  lia.
Qed.

(** Two used slots never share a vehicle: both leave at minute 0. *)
Lemma trio_vehicle i1 i2 m1 m2 k :
  (i1 < 3)%nat -> (i2 < 3)%nat -> (m1 < 3)%nat -> (m2 < 3)%nat -> m1 <> m2 ->
  (k < 2)%nat -> v (x_ i1 m1) = 1 -> v (x_ i2 m2) = 1 ->
  v (z_ m1 k) + v (z_ m2 k) <= 1.
Proof.
  intros Hi1 Hi2 Hm1 Hm2 Hne Hk Hx1 Hx2.
  assert (Hin : In k (py_range 2)) by (apply in_range; exact Hk).
  destruct (z_bool Hsat Hm1 Hin) as [E1 | E1]; [destruct (z_bool Hsat Hm2 Hin); lia|].
  destruct (z_bool Hsat Hm2 Hin) as [E2 | E2]; [lia|].
  assert (H := same_vehicle_apart Hsat Hm1 Hm2 Hne Hin E1 E2).
  rewrite (trio_departure Hi1 Hm1 Hx1), (trio_departure Hi2 Hm2 Hx2) in H. lia.
Qed.

(** The three guests do not ride in three different slots. *)
Lemma trio_not_apart m0 m1 m2 :
  (m0 < 3)%nat -> (m1 < 3)%nat -> (m2 < 3)%nat ->
  v (x_ 0 m0) = 1 -> v (x_ 1 m1) = 1 -> v (x_ 2 m2) = 1 ->
  m0 <> m1 -> m0 <> m2 -> m1 <> m2 -> False.
Proof.
  intros H0 H1 H2 X0 X1 X2 N01 N02 N12.
  assert (L0 : (0 < 3)%nat) by lia. assert (L1 : (1 < 3)%nat) by lia.
  assert (L2 : (2 < 3)%nat) by lia.
  assert (K0 : (0 < 2)%nat) by lia. assert (K1 : (1 < 2)%nat) by lia.
  assert (S0 := vehicle_sum Hsat H0). assert (S1 := vehicle_sum Hsat H1).
  assert (S2 := vehicle_sum Hsat H2).
  rewrite (x_used Hsat L0 H0 X0) in S0. rewrite (x_used Hsat L1 H1 X1) in S1.
  rewrite (x_used Hsat L2 H2 X2) in S2.
  change (py_range 2) with [0; 1]%nat in S0, S1, S2.
  unfold sumZ in S0, S1, S2. cbn [map fold_right] in S0, S1, S2.
  assert (A := trio_vehicle L0 L1 H0 H1 N01 K0 X0 X1).
  assert (B := trio_vehicle L0 L2 H0 H2 N02 K0 X0 X2).
  assert (C := trio_vehicle L1 L2 H1 H2 N12 K0 X1 X2).
  assert (A' := trio_vehicle L0 L1 H0 H1 N01 K1 X0 X1).
  assert (B' := trio_vehicle L0 L2 H0 H2 N02 K1 X0 X2).
  assert (C' := trio_vehicle L1 L2 H1 H2 N12 K1 X1 X2).
  assert (In 0%nat (py_range 2)) by (apply in_range; lia).
  assert (In 1%nat (py_range 2)) by (apply in_range; lia).
  destruct (z_bool Hsat H0 H), (z_bool Hsat H1 H), (z_bool Hsat H2 H); lia.
Qed.

Lemma trio_trip_listed i m :
  (i < 3)%nat -> (m < 3)%nat -> v (x_ i m) = 1 ->
  In (trip_out trio_guests 2 [2; 2] v m) (trio_trips trio_guests v).
Proof.
  intros Hi Hm Hx. apply in_trips_out. exists m.
  split; [exact Hm|]. split; [|reflexivity].
  rewrite (x_used Hsat Hi Hm Hx). discriminate.
Qed.

(** Ann shares slot [m0] with exactly one of Bob and Cy: exchanging
    Bob and Cy in the list regroups them. *)
Lemma pair_split_12 m0 :
  (m0 < 3)%nat -> v (x_ 0 m0) = 1 ->
  (v (x_ 1 m0) = 1 /\ v (x_ 2 m0) <> 1) \/
  (v (x_ 2 m0) = 1 /\ v (x_ 1 m0) <> 1) ->
  ~ same_partition (trio_trips trio_guests v) (trio_trips trio_swap_12 v).
Proof.
  intros Hm0 X0 Hcase [Hfwd _].
  assert (L0 : (0 < 3)%nat) by lia.
  destruct (Hfwd _ (trio_trip_listed L0 Hm0 X0)) as (t' & Hin' & Hperm).
  apply in_trips_out in Hin' as (m' & Hm' & _ & ->).
  assert (Ha : In "a"%string (riders (trip_out trio_swap_12 2 [2; 2] v m'))).
  { apply (Permutation_in _ Hperm). apply in_riders.
    exists 0%nat, (mkGuest "a" "Ann" 0). auto. }
  apply in_riders in Ha as (p & gst & Hnth & Hx & Hid).
  destruct p as [|[|[|p]]]; cbn in Hnth;
    [ | | | destruct p; discriminate ];
    injection Hnth as <-; try (cbn in Hid; discriminate Hid).
  assert (E : m' = m0) by (apply (trio_one_slot L0 Hm' Hm0 Hx X0)). subst m'.
  destruct Hcase as [[X1 N2] | [X2 N1]].
  - assert (Hb : In "b"%string (riders (trip_out trio_swap_12 2 [2; 2] v m0))).
    { apply (Permutation_in _ Hperm). apply in_riders.
      exists 1%nat, (mkGuest "b" "Bob" 0). auto. }
    apply in_riders in Hb as (p & gst & Hnth' & Hx' & Hid').
    destruct p as [|[|[|p]]]; cbn in Hnth';
      [ | | | destruct p; discriminate ];
      injection Hnth' as <-; try (cbn in Hid'; discriminate Hid').
    contradiction.
  - assert (Hc : In "c"%string (riders (trip_out trio_swap_12 2 [2; 2] v m0))).
    { apply (Permutation_in _ Hperm). apply in_riders.
      exists 2%nat, (mkGuest "c" "Cy" 0). auto. }
    apply in_riders in Hc as (p & gst & Hnth' & Hx' & Hid').
    destruct p as [|[|[|p]]]; cbn in Hnth';
      [ | | | destruct p; discriminate ];
      injection Hnth' as <-; try (cbn in Hid'; discriminate Hid').
    contradiction.
Qed.

(** Bob and Cy share slot [m0] and Ann rides elsewhere: exchanging Ann
    and Bob in the list regroups them. *)
Lemma pair_split_01 m0 :
  (m0 < 3)%nat -> v (x_ 1 m0) = 1 -> v (x_ 2 m0) = 1 -> v (x_ 0 m0) <> 1 ->
  ~ same_partition (trio_trips trio_guests v) (trio_trips trio_swap_01 v).
Proof.
  intros Hm0 X1 X2 N0 [Hfwd _].
  assert (L1 : (1 < 3)%nat) by lia. assert (L2 : (2 < 3)%nat) by lia.
  destruct (Hfwd _ (trio_trip_listed L1 Hm0 X1)) as (t' & Hin' & Hperm).
  apply in_trips_out in Hin' as (m' & Hm' & _ & ->).
  assert (Hc : In "c"%string (riders (trip_out trio_swap_01 2 [2; 2] v m'))).
  { apply (Permutation_in _ Hperm). apply in_riders.
    exists 2%nat, (mkGuest "c" "Cy" 0). auto. }
  apply in_riders in Hc as (p & gst & Hnth & Hx & Hid).
  destruct p as [|[|[|p]]]; cbn in Hnth;
    [ | | | destruct p; discriminate ];
    injection Hnth as <-; try (cbn in Hid; discriminate Hid).
  assert (E : m' = m0) by (apply (trio_one_slot L2 Hm' Hm0 Hx X2)). subst m'.
  assert (Hb : In "b"%string (riders (trip_out trio_swap_01 2 [2; 2] v m0))).
  { apply (Permutation_in _ Hperm). apply in_riders.
    exists 1%nat, (mkGuest "b" "Bob" 0). auto. }
  apply in_riders in Hb as (p & gst & Hnth' & Hx' & Hid').
  destruct p as [|[|[|p]]]; cbn in Hnth';
    [ | | | destruct p; discriminate ];
    injection Hnth' as <-; try (cbn in Hid'; discriminate Hid').
  contradiction.
Qed.

(** Whatever the assignment, one of the two exchanges changes the
    grouping. *)
Lemma trio_regrouped :
  ~ same_partition (trio_trips trio_guests v) (trio_trips trio_swap_12 v) \/
  ~ same_partition (trio_trips trio_guests v) (trio_trips trio_swap_01 v).
Proof.
  assert (L0 : (0 < 3)%nat) by lia. assert (L1 : (1 < 3)%nat) by lia.
  assert (L2 : (2 < 3)%nat) by lia.
  destruct (trio_slot L0) as (m0 & H0 & X0).
  destruct (trio_slot L1) as (m1 & H1 & X1).
  destruct (trio_slot L2) as (m2 & H2 & X2).
  destruct (Nat.eq_dec m0 m1) as [E01 | N01];
    destruct (Nat.eq_dec m0 m2) as [E02 | N02].
  - subst m1 m2. assert (H := trio_load H0). lia.
  - subst m1. left. apply (pair_split_12 H0 X0). left. split; [exact X1|].
    intros X. apply N02. apply (trio_one_slot L2 H0 H2 X X2).
  - subst m2. left. apply (pair_split_12 H0 X0). right. split; [exact X2|].
    intros X. apply N01. apply (trio_one_slot L1 H0 H1 X X1).
  - destruct (Nat.eq_dec m1 m2) as [E12 | N12].
    + subst m2. right. apply (pair_split_01 H1 X1 X2).
      intros X. apply N01. apply (trio_one_slot L0 H0 H1 X0 X).
    + exfalso. apply (trio_not_apart H0 H1 H2 X0 X1 X2 N01 N02 N12).
Qed.

End Trio.

(** Every solver within its contract that finds a plan for the trio
    groups the guests differently for some order of the list. *)
Lemma any_solver_regroups_trio Solve :
  sound Solve ->
  has_solution (status (Solve trio_model)) = true ->
  exists guests' r r' trips trips',
    Permutation trio_guests guests' /\
    solve_pickups_multitrip Solve trio_guests trio_params = inr r /\
    solve_pickups_multitrip Solve guests' trio_params = inr r' /\
    get "status" r = Some (PStr "ok") /\
    get "status" r' = Some (PStr "ok") /\
    get "trips" r = Some (PTrips trips) /\
    get "trips" r' = Some (PTrips trips') /\
    ~ same_partition trips trips'.
Proof.
  intros Hsound Hs.
  assert (Hsat := Hsound _ Hs).
  assert (Hret : forall guests,
            guests = trio_guests \/ guests = trio_swap_12 \/
            guests = trio_swap_01 ->
            solve_pickups_multitrip Solve guests trio_params
            = inr (ok_report guests trio_params (Value (Solve trio_model)))).
  { intros guests Hg. rewrite (trio_formulation Solve Hg), Hs. reflexivity. }
  destruct (trio_regrouped _ Hsat) as [Hn | Hn].
  - exists trio_swap_12. do 4 eexists.
    split; [apply perm_skip, perm_swap|].
    split; [apply Hret; auto|]. split; [apply Hret; auto|].
    split; [reflexivity|]. split; [reflexivity|].
    split; [reflexivity|]. split; [reflexivity|]. exact Hn.
  - exists trio_swap_01. do 4 eexists.
    split; [apply perm_swap|].
    split; [apply Hret; auto|]. split; [apply Hret; auto|].
    split; [reflexivity|]. split; [reflexivity|].
    split; [reflexivity|]. split; [reflexivity|]. exact Hn.
Qed.

(** Such a solver exists: the trio has a plan. *)
Lemma trio_has_plan :
  sound (checking_solver trio_plan) /\
  has_solution (status (checking_solver trio_plan trio_model)) = true.
Proof. split; [apply checking_solver_sound | vm_compute; reflexivity]. Qed.

(** * The claims *)

(** C1: whenever [solve_pickups_multitrip] returns (no validation error
    is raised), the result's status is exactly "ok" or "infeasible";
    the reason field is present if and only if the status is
    "infeasible", and the trips plan is present only when the status is
    "ok". *)
Theorem result_status_shape Solve guests params r :
  solve_pickups_multitrip Solve guests params = inr r ->
  (get "status" r = Some (PStr "ok") \/
   get "status" r = Some (PStr "infeasible")) /\
  (has_key "reason" r = true <-> get "status" r = Some (PStr "infeasible")) /\
  (has_key "trips" r = true -> get "status" r = Some (PStr "ok")).
Proof.
  intros H.
  destruct (solve_returns _ _ _ H) as [[_ ->] | (_ & _ & H')].
  - repeat split; try (left; reflexivity); try discriminate; reflexivity.
  - destruct H' as (a & b & h & inc & tog & [[_ ->] | [_ ->]]).
    + repeat split; try (right; reflexivity); try discriminate; reflexivity.
    + repeat split; try (left; reflexivity); try discriminate; reflexivity.
Qed.

Lemma result_status_shape_witness :
  solve_pickups_multitrip (checking_solver scenario_A_plan)
                          scenario_A_guests scenario_A_params
  = inr scenario_A_report /\
  (get "status" scenario_A_report = Some (PStr "ok") \/
   get "status" scenario_A_report = Some (PStr "infeasible")) /\
  (has_key "reason" scenario_A_report = true <->
   get "status" scenario_A_report = Some (PStr "infeasible")) /\
  (has_key "trips" scenario_A_report = true ->
   get "status" scenario_A_report = Some (PStr "ok")).
Proof.
  split; [vm_compute; reflexivity|].
  apply (@result_status_shape (checking_solver scenario_A_plan)
           scenario_A_guests scenario_A_params scenario_A_report).
  vm_compute; reflexivity.
Defined.

(** C2: in every result with status "ok", every trip of the trips list
    has [departure_min] equal to [max_arrival_min], and every guest
    listed in that trip has [wait_min] equal to the trip's
    [departure_min] minus the guest's [arrival_min]. *)
Theorem departure_consistency Solve guests params r trips :
  sound Solve ->
  solve_pickups_multitrip Solve guests params = inr r ->
  get "status" r = Some (PStr "ok") ->
  get "trips" r = Some (PTrips trips) ->
  forall t, In t trips ->
    departure_min t = max_arrival_min t /\
    forall g, In g (guests_of t) ->
      wait_min g = departure_min t - row_arrival_min g.
Proof.
  intros Hsound H Hst Htrips t Hin.
  destruct (ok_trips_inv _ _ Hsound H Hst Htrips)
    as [-> | (a & b & h & inc & tog & v & Hsat & _ & ->)]; [contradiction|].
  apply in_trips_out in Hin as (m & Hm & _ & ->).
  split.
  - cbn [trip_out departure_min max_arrival_min].
    apply (dep_is_max_arr Hsat Hm).
  - intros g Hg.
    replace (departure_min _) with (v (dep_ m)) by reflexivity.
    apply (listed_guest_wait Hsat Hm Hg).
Qed.

Lemma departure_consistency_witness :
  solve_pickups_multitrip (checking_solver scenario_A_plan)
                          scenario_A_guests scenario_A_params
  = inr scenario_A_report
  /\ (forall t, In t scenario_A_trips ->
        departure_min t = max_arrival_min t /\
        forall g, In g (guests_of t) ->
          wait_min g = departure_min t - row_arrival_min g).
Proof.
  split; [vm_compute; reflexivity|].
  apply (@departure_consistency (checking_solver scenario_A_plan)
           scenario_A_guests scenario_A_params scenario_A_report
           scenario_A_trips).
  - apply checking_solver_sound.
  - vm_compute; reflexivity.
  - reflexivity.
  - reflexivity.
Defined.

(** C3: in every result with status "ok", two different trips of the
    trips list that run on the same vehicle [k] have disjoint half-open
    intervals [[departure_min, departure_min + round_trip_min)]. *)
Theorem vehicle_non_overlap Solve guests params r trips RT :
  sound Solve ->
  solve_pickups_multitrip Solve guests params = inr r ->
  get "status" r = Some (PStr "ok") ->
  get "trips" r = Some (PTrips trips) ->
  get "round_trip_min" r = Some (PInt RT) ->
  forall p q t1 t2 k,
    nth_error trips p = Some t1 -> nth_error trips q = Some t2 -> p <> q ->
    vehicle_index t1 = Some k -> vehicle_index t2 = Some k ->
    forall minute,
      ~ (departure_min t1 <= minute < departure_min t1 + RT /\
         departure_min t2 <= minute < departure_min t2 + RT).
Proof.
  intros Hsound H Hst Htrips HRT p q t1 t2 k Hp Hq Hne Hk1 Hk2 minute.
  destruct (ok_trips_inv _ _ Hsound H Hst Htrips)
    as [-> | (a & b & h & inc & tog & v & Hsat & -> & ->)].
  { destruct p; discriminate. }
  rewrite ok_report_round_trip in HRT. inversion HRT; subst RT; clear HRT.
  assert (Hd : trip_index t1 <> trip_index t2)
    by (eapply trips_out_distinct; eauto).
  apply nth_error_In, in_trips_out in Hp as (m1 & Hm1 & _ & ->).
  apply nth_error_In, in_trips_out in Hq as (m2 & Hm2 & _ & ->).
  cbn [trip_out trip_index vehicle_index departure_min] in *.
  unfold vehicle_of in Hk1, Hk2.
  apply find_some in Hk1 as [Hk Hz1]. apply find_some in Hk2 as [_ Hz2].
  apply Z.eqb_eq in Hz1, Hz2.
  destruct (same_vehicle_apart Hsat Hm1 Hm2 Hd Hk Hz1 Hz2); lia.
Qed.

Lemma vehicle_non_overlap_witness :
  solve_pickups_multitrip (checking_solver relay_plan) relay_guests relay_params
  = inr relay_report
  /\ nth_error relay_trips 0 = Some (mkTrip 0 (Some 0%nat) (Some 1) 0 0 0 1
                                     [ mkGuestRow "g1" "Ann" 0 0 ]%string)
  /\ nth_error relay_trips 1 = Some (mkTrip 1 (Some 0%nat) (Some 1) 100 100 100 1
                                     [ mkGuestRow "g2" "Bob" 100 0 ]%string)
  /\ (forall minute, ~ (0 <= minute < 0 + 60 /\ 100 <= minute < 100 + 60)).
Proof.
  split; [vm_compute; reflexivity|].
  split; [reflexivity|]. split; [reflexivity|].
  apply (@vehicle_non_overlap (checking_solver relay_plan) relay_guests
           relay_params relay_report relay_trips 60
           (checking_solver_sound relay_plan) relay_solved
           eq_refl eq_refl eq_refl 0%nat 1%nat _ _ 0%nat eq_refl eq_refl).
  - discriminate.
  - reflexivity.
  - reflexivity.
Defined.



(** C5: for the empty guest list the scheduler returns a result with
    status "ok", [num_trips_used = 0], [total_wait_min = 0] and an
    empty trips list, whatever the other parameters are. *)
Theorem empty_input Solve params :
  exists r,
    solve_pickups_multitrip Solve [] params = inr r /\
    get "status" r = Some (PStr "ok") /\
    get "num_trips_used" r = Some (PInt 0) /\
    get "total_wait_min" r = Some (PInt 0) /\
    get "trips" r = Some (PTrips []).
Proof. eexists. repeat split. Qed.

(** C6: in every result with status "ok" on a non-empty guest list,
    [total_wait_min] is the sum of [wait_min] over all guests listed
    across all trips, and [num_trips_used] is the number of trips in the
    trips list. *)
Theorem total_wait_consistency Solve guests params r :
  sound Solve ->
  solve_pickups_multitrip Solve guests params = inr r ->
  guests <> [] ->
  get "status" r = Some (PStr "ok") ->
  exists trips,
    get "trips" r = Some (PTrips trips) /\
    get "total_wait_min" r = Some (PInt (plan_wait trips)) /\
    get "num_trips_used" r = Some (PInt (len trips)).
Proof.
  intros Hsound H Hne Hst.
  destruct (solve_ok_inv params Hsound H Hne Hst)
    as (a & b & h & inc & tog & v & Hsat & ->).
  eexists. split; [apply ok_report_trips|]. split.
  - rewrite ok_report_total. do 2 f_equal. symmetry.
    apply (plan_wait_is_total Hsat).
  - apply ok_report_num_trips.
Qed.

Lemma total_wait_consistency_witness :
  scenario_A_guests <> []
  /\ exists trips,
       get "trips" scenario_A_report = Some (PTrips trips) /\
       get "total_wait_min" scenario_A_report = Some (PInt (plan_wait trips)) /\
       get "num_trips_used" scenario_A_report = Some (PInt (len trips)).
Proof.
  split; [discriminate|].
  apply (@total_wait_consistency (checking_solver scenario_A_plan)
           scenario_A_guests scenario_A_params scenario_A_report
           (checking_solver_sound scenario_A_plan) scenario_A_solved).
  - discriminate.
  - reflexivity.
Defined.

(** C7, as stated, fails on the empty guest list: there the grouping
    rule is never looked at, so a rule that names an unknown guest and
    a vehicle out of range still gets the trivial "ok" result. *)
Lemma grouping_rule_unchecked_on_empty_list :
  ~ (forall Solve guests params rule,
       must_ride_together_in_vehicle params = Some rule ->
       names_unknown_guest guests rule \/
       vehicle_out_of_range (num_cars params) rule ->
       exists e, solve_pickups_multitrip Solve guests params = inl e).
Proof.
  intros H.
  destruct (H (checking_solver scenario_A_plan) [] malformed_params
              (mkTogetherRule (Some "ghost"%string) None (Some 9)) eq_refl)
    as (e & He).
  - right. exists 9. split; [reflexivity|]. cbn. lia.
  - discriminate.
Qed.

(** C7, amended: an [incompatible_pairs] entry that names a guest id
    not in the guest list is skipped, it changes nothing in the outcome
    and raises nothing; and for every non-empty guest list a grouping
    rule that names an unknown guest id, or a vehicle index outside
    [0..num_cars-1], makes the call fail with an error instead of
    returning a solver outcome. *)
Theorem unknown_ids_handling Solve guests params :
  (forall pre post gid1 gid2,
     ~ In gid1 (map guest_id guests) \/ ~ In gid2 (map guest_id guests) ->
     solve_pickups_multitrip Solve guests
       (with_pairs params (pre ++ (gid1, gid2) :: post))
     = solve_pickups_multitrip Solve guests (with_pairs params (pre ++ post)))
  /\
  (forall rule,
     guests <> [] ->
     must_ride_together_in_vehicle params = Some rule ->
     names_unknown_guest guests rule \/
     vehicle_out_of_range (num_cars params) rule ->
     exists e, solve_pickups_multitrip Solve guests params = inl e).
Proof.
  split.
  - intros pre post gid1 gid2 H. apply solve_unknown_pair, H.
  - intros rule Hne Hrule Hbad. eapply solve_bad_rule; eassumption.
Qed.

Lemma unknown_ids_handling_witness :
  solve_pickups_multitrip (checking_solver scenario_A_plan) scenario_A_guests
    (with_pairs scenario_A_params ([] ++ ("g1", "ghost")%string :: []))
  = inr scenario_A_report
  /\ exists e,
       solve_pickups_multitrip (checking_solver scenario_A_plan)
                               scenario_A_guests ghost_rule_params = inl e.
Proof.
  split.
  - rewrite (proj1 (@unknown_ids_handling (checking_solver scenario_A_plan)
                      scenario_A_guests scenario_A_params)).
    + vm_compute; reflexivity.
    + right. cbn. intros [H | [H | [H | []]]]; discriminate.
  - apply (proj2 (@unknown_ids_handling (checking_solver scenario_A_plan)
                    scenario_A_guests ghost_rule_params) ghost_rule).
    + discriminate.
    + reflexivity.
    + left. exists "ghost"%string. split; [right; reflexivity|].
      cbn. intros [H | [H | [H | []]]]; discriminate.
Defined.




(** C9: on the empty guest list the scheduler returns its trivial "ok"
    result without normalizing or validating anything: capacities below
    1 and a malformed grouping rule raise no error; the returned object
    has no [vehicle_capacities], [max_wait_min] or [round_trip_min]
    field, while every "ok" result for a non-empty list has all
    three. *)
Theorem empty_input_skips_validation Solve :
  (forall params,
     solve_pickups_multitrip Solve [] params = inr (empty_report params) /\
     has_key "vehicle_capacities" (empty_report params) = false /\
     has_key "max_wait_min" (empty_report params) = false /\
     has_key "round_trip_min" (empty_report params) = false) /\
  (forall guests params r,
     guests <> [] ->
     solve_pickups_multitrip Solve guests params = inr r ->
     get "status" r = Some (PStr "ok") ->
     has_key "vehicle_capacities" r = true /\
     has_key "max_wait_min" r = true /\
     has_key "round_trip_min" r = true).
Proof.
  split.
  - intros params. repeat split.
  - intros guests params r Hne H Hst.
    destruct (solve_returns _ _ _ H) as [[He _] | (_ & _ & H')]; [contradiction|].
    destruct H' as (a & b & h & inc & tog & [[_ ->] | [_ ->]]).
    + discriminate.
    + repeat split.
Qed.

Lemma empty_input_skips_validation_witness :
  solve_pickups_multitrip (checking_solver scenario_A_plan) [] malformed_params
  = inr (empty_report malformed_params)
  /\ (exists cap, In cap (normalize_vehicle_caps malformed_params) /\ cap < 1)
  /\ has_key "vehicle_capacities" (empty_report malformed_params) = false
  /\ has_key "vehicle_capacities" scenario_A_report = true.
Proof.
  destruct (empty_input_skips_validation (checking_solver scenario_A_plan))
    as [Hempty Hfull].
  destruct (Hempty malformed_params) as (Hret & Hcaps & _).
  split; [exact Hret|].
  split; [exists 0; split; [left; reflexivity | lia]|].
  split; [exact Hcaps|].
  apply (Hfull scenario_A_guests scenario_A_params scenario_A_report).
  - discriminate.
  - apply scenario_A_solved.
  - reflexivity.
Defined.

(** C10: at the [/solve] endpoint a request whose [round_trip_min] is 0
    or absent is solved with [round_trip_min = 240]; no request makes
    the scheduler see a zero round trip. *)
Theorem endpoint_round_trip_default Solve req :
  (req_round_trip_min req = Some 0 \/ req_round_trip_min req = None ->
   round_trip_min (request_params req) = 240 /\
   solve Solve req =
   solve_pickups_multitrip Solve (request_guests req)
     (mkSolveParams (req_num_cars req) (req_capacity_per_car req)
                    (req_max_wait_min req) (req_time_horizon_min req) 240
                    (req_vehicle_capacities req) (req_incompatible_pairs req)
                    (req_must_ride_together_in_vehicle req))) /\
  round_trip_min (request_params req) <> 0.
Proof.
  split.
  - intros H. unfold solve, request_params.
    assert (E : py_or (req_round_trip_min req) 240 = 240)
      by (destruct H as [-> | ->]; reflexivity).
    rewrite E. split; reflexivity.
  - unfold request_params; cbn [round_trip_min]. unfold py_or.
    destruct (req_round_trip_min req) as [t|]; [|discriminate].
    destruct (Z.eqb_spec t 0); [discriminate | assumption].
Qed.

Lemma endpoint_round_trip_default_witness :
  req_round_trip_min zero_round_trip_request = Some 0 /\
  round_trip_min (request_params zero_round_trip_request) = 240.
Proof.
  split; [reflexivity|].
  apply (proj1 (@endpoint_round_trip_default (checking_solver scenario_A_plan)
                  zero_round_trip_request)).
  left; reflexivity.
Defined.

(** * Further properties of the scheduler *)

(** ** The least and the greatest arrival *)

Lemma fold_min_spec l a :
  fold_left Z.min l a <= a /\
  (forall b, In b l -> fold_left Z.min l a <= b) /\
  (fold_left Z.min l a = a \/ In (fold_left Z.min l a) l).
Proof.
  revert a; induction l as [|c l IH]; intros a; cbn [fold_left].
  - split; [lia|]. split; [intros b []|]. left; reflexivity.
  - destruct (IH (Z.min a c)) as (H1 & H2 & H3). split; [lia|]. split.
    + intros b [<- | Hb]; [lia | auto].
    + destruct H3 as [H3 | H3]; [|right; right; exact H3].
      rewrite H3.
      destruct (Z.min_spec a c) as [[_ E] | [_ E]]; rewrite E.
      * left; reflexivity.
      * right; left; reflexivity.
Qed.

Lemma fold_max_spec l a :
  a <= fold_left Z.max l a /\
  (forall b, In b l -> b <= fold_left Z.max l a) /\
  (fold_left Z.max l a = a \/ In (fold_left Z.max l a) l).
Proof.
  revert a; induction l as [|c l IH]; intros a; cbn [fold_left].
  - split; [lia|]. split; [intros b []|]. left; reflexivity.
  - destruct (IH (Z.max a c)) as (H1 & H2 & H3). split; [lia|]. split.
    + intros b [<- | Hb]; [lia | auto].
    + destruct H3 as [H3 | H3]; [|right; right; exact H3].
      rewrite H3.
      destruct (Z.max_spec a c) as [[_ E] | [_ E]]; rewrite E.
      * right; left; reflexivity.
      * left; reflexivity.
Qed.

Lemma py_min_spec l a :
  py_min l = inr a -> In a l /\ forall b, In b l -> a <= b.
Proof.
  destruct l as [|c l]; [discriminate|]. cbn [py_min ret].
  intros H; injection H as <-.
  destruct (fold_min_spec l c) as (H1 & H2 & H3). split.
  - destruct H3 as [-> | H3]; [left; reflexivity | right; exact H3].
  - intros b [<- | Hb]; auto.
Qed.

Lemma py_max_spec l a :
  py_max l = inr a -> In a l /\ forall b, In b l -> b <= a.
Proof.
  destruct l as [|c l]; [discriminate|]. cbn [py_max ret].
  intros H; injection H as <-.
  destruct (fold_max_spec l c) as (H1 & H2 & H3). split.
  - destruct H3 as [-> | H3]; [left; reflexivity | right; exact H3].
  - intros b [<- | Hb]; auto.
Qed.

(** ** A plan comes from an instance that passed every check *)

Lemma solve_plan_inv Solve guests params r :
  sound Solve ->
  solve_pickups_multitrip Solve guests params = inr r ->
  guests <> [] ->
  get "status" r = Some (PStr "ok") ->
  exists min_a max_a together v,
    py_min (map arrival_min guests) = inr min_a /\
    py_max (map arrival_min guests) = inr max_a /\
    together_constraints guests (num_cars params) (build_id_to_i guests)
                         (must_ride_together_in_vehicle params) = inr together /\
    existsb (fun c => c <? 1) (normalize_vehicle_caps params) = false /\
    normalize_vehicle_caps params <> [] /\
    satisfies v (formulation guests params min_a max_a together) = true /\
    r = ok_report guests params v.
Proof.
  intros Hsound H Hne Hst. unfold solve_pickups_multitrip in H.
  destruct guests as [|g gs]; [contradiction|].
  destruct (existsb _ _) eqn:Hex; [discriminate|].
  destruct (normalize_vehicle_caps params) as [|c0 caps] eqn:Hcaps;
    [discriminate|].
  cbn [bind py_min py_max map ret] in H.
  destruct (together_constraints _ _ _ _) as [e|together] eqn:Ht;
    [discriminate|].
  cbn [bind] in H.
  match type of H with
  | context [Solve ?m] => set (model := m) in *
  end.
  destruct (has_solution (status (Solve model))) eqn:Hs; cbn [negb] in H;
    inversion H; subst r; [|discriminate].
  do 3 eexists. exists (Value (Solve model)).
  split; [reflexivity|]. split; [reflexivity|]. split; [reflexivity|].
  split; [reflexivity|]. split; [discriminate|].
  split; [|unfold ok_report; rewrite Hcaps; reflexivity].
  unfold formulation. rewrite Hcaps. apply Hsound, Hs.
Qed.

(** Every trip of an "ok" report is the slot of a satisfying
    assignment. *)
Lemma ok_trip_inv Solve guests params r trips t :
  sound Solve ->
  solve_pickups_multitrip Solve guests params = inr r ->
  get "status" r = Some (PStr "ok") ->
  get "trips" r = Some (PTrips trips) ->
  In t trips ->
  exists min_a max_a together v m,
    py_min (map arrival_min guests) = inr min_a /\
    py_max (map arrival_min guests) = inr max_a /\
    together_constraints guests (num_cars params) (build_id_to_i guests)
                         (must_ride_together_in_vehicle params) = inr together /\
    satisfies v (formulation guests params min_a max_a together) = true /\
    trips = build_trips_out guests (num_cars params)
                            (normalize_vehicle_caps params) v /\
    (m < length guests)%nat /\ v (used_ m) = 1 /\
    t = trip_out guests (num_cars params) (normalize_vehicle_caps params) v m.
Proof.
  intros Hsound H Hst Htrips Hin.
  destruct (solve_returns _ _ _ H) as [[-> ->] | (Hne & _)].
  - rewrite empty_report_trips in Htrips. inversion Htrips; subst trips.
    contradiction.
  - destruct (solve_plan_inv params Hsound H Hne Hst)
      as (a & b & tog & v & Ha & Hb & Ht & _ & _ & Hsat & ->).
    rewrite ok_report_trips in Htrips. inversion Htrips; subst trips.
    apply in_trips_out in Hin as (m & Hm & Hu & ->).
    exists a, b, tog, v, m. repeat split; auto.
    destruct (used_bool Hsat Hm); [contradiction | assumption].
Qed.

(** ** Slots, riders and vehicles under a satisfying assignment *)

Lemma sumZ_single {A : Type} (g : A -> Z) l a :
  NoDup l -> In a l -> (forall b, In b l -> b <> a -> g b = 0) ->
  sumZ (map g l) = g a.
Proof.
  induction l as [|c l IH]; cbn [map sumZ fold_right]; intros Hnd Ha Hz;
    [contradiction|].
  fold (sumZ (map g l)). inversion Hnd as [|? ? Hc Hl]; subst.
  destruct Ha as [-> | Ha].
  - rewrite sumZ_map_zero; [lia|].
    intros b Hb. apply Hz; [right; exact Hb|]. intros ->. contradiction.
  - rewrite (IH Hl Ha) by (intros b Hb; apply Hz; right; exact Hb).
    rewrite (Hz c); [lia | left; reflexivity |]. intros ->. contradiction.
Qed.

Lemma length_filter_sum {A : Type} (p : A -> bool) l :
  Z.of_nat (length (filter p l))
  = sumZ (map (fun a => if p a then 1 else 0) l).
Proof.
  induction l as [|c l IH]; cbn [filter map sumZ fold_right length];
    [reflexivity|].
  fold (sumZ (map (fun a => if p a then 1 else 0) l)).
  destruct (p c); cbn [length]; lia.
Qed.

Section SlotFacts.
Variable guests : list Guest.
Variables K W RT : Z.
Variable vehicle_caps : list Z.
Variables min_a max_a horizon : Z.
Variables incompatible together : list Constraint.
Variable v : IntVar -> Z.

Local Abbreviation n := (length guests).
Local Abbreviation model :=
  (build_model guests K W RT vehicle_caps min_a max_a horizon
               incompatible together).

Hypothesis Hsat : satisfies v model = true.

Lemma slot_holds m c :
  (m < n)%nat ->
  In c (trip_constraints guests K W vehicle_caps min_a horizon m) ->
  holds v c = true.
Proof. intros Hm Hc. eapply trip_holds; eassumption. Qed.

Lemma incompatible_holds c : In c incompatible -> holds v c = true.
Proof.
  intros Hc. eapply holds_of_satisfies; [exact Hsat|].
  unfold build_model; cbn [constraints].
  rewrite !in_app_iff. right; right; left. exact Hc.
Qed.

Lemma together_holds c : In c together -> holds v c = true.
Proof.
  intros Hc. eapply holds_of_satisfies; [exact Hsat|].
  unfold build_model; cbn [constraints].
  rewrite !in_app_iff. do 3 right; left. exact Hc.
Qed.

(** A used slot has a rider (line 115). *)
Lemma used_has_rider m :
  (m < n)%nat -> v (used_ m) = 1 ->
  exists i, (i < n)%nat /\ v (x_ i m) = 1.
Proof.
  intros Hm Hu.
  assert (H : holds v (Add (trip_load guests m) GE (const 1)
                           (Some (Lit (used_ m)))) = true).
  { apply (@slot_holds m _ Hm). unfold trip_constraints.
    rewrite !in_app_iff. right; left. simpl. tauto. }
  cbn [holds compare] in H. unfold lit_true, lit_value, trip_load in H.
  rewrite Hu, eval_lsum, eval_const, map_map in H. simpl in H.
  apply Z.leb_le in H.
  destruct (@sumZ_positive_term nat (fun i => v (x_ i m)) (range n))
    as (i & Hi & Hx); [lia|].
  apply in_range in Hi. exists i. split; [exact Hi|].
  destruct (x_bool Hsat Hi Hm); [contradiction | assumption].
Qed.

(** A used slot runs on exactly one vehicle, the one the report
    names (lines 119 and 236-240). *)
Lemma vehicle_of_used m :
  (m < n)%nat -> v (used_ m) = 1 ->
  exists k,
    vehicle_of K v m = Some k /\ In k (py_range K) /\ v (z_ m k) = 1 /\
    forall k', In k' (py_range K) -> v (z_ m k') = 1 -> k' = k.
Proof.
  intros Hm Hu.
  assert (Hsum := vehicle_sum Hsat Hm). rewrite Hu in Hsum.
  assert (Huniq : forall k1 k2, In k1 (py_range K) -> In k2 (py_range K) ->
                    v (z_ m k1) = 1 -> v (z_ m k2) = 1 -> k1 = k2).
  { intros k1 k2 H1 H2 E1 E2.
    destruct (Nat.eq_dec k1 k2) as [E | Hne]; [exact E | exfalso].
    assert (H := @sumZ_ge_two nat (fun k => v (z_ m k)) (py_range K) k1 k2).
    cbv beta in H. rewrite Hsum, E1, E2 in H.
    assert (1 + 1 <= 1); [|lia].
    apply H; auto. intros k Hk. destruct (z_bool Hsat Hm Hk); lia. }
  destruct (find (fun k => v (z_ m k) =? 1) (py_range K)) as [k|] eqn:Hf.
  - destruct (find_some _ _ Hf) as [Hk Hz]. apply Z.eqb_eq in Hz.
    exists k. split; [exact Hf|]. split; [exact Hk|]. split; [exact Hz|].
    intros k' Hk' Hz'. apply (Huniq k' k); auto.
  - exfalso.
    destruct (@sumZ_positive_term nat (fun k => v (z_ m k)) (py_range K))
      as (k & Hk & Hz); [lia|].
    apply (find_none _ _ Hf) in Hk as Hn. apply Z.eqb_neq in Hn.
    destruct (z_bool Hsat Hm Hk); contradiction.
Qed.

(** The riders listed for a slot are counted by its assignment
    variables (lines 242-250). *)
Lemma riders_count m :
  (m < n)%nat ->
  Z.of_nat (length (assigned_to guests v m))
  = sumZ (map (fun i => v (x_ i m)) (range n)).
Proof.
  intros Hm. unfold assigned_to. rewrite length_map, length_filter_sum.
  rewrite <- enumerate_fst, map_map. apply sumZ_map_ext.
  intros [i g] Hin. cbn [fst]. apply in_enumerate in Hin.
  assert (Hi : (i < n)%nat) by (apply nth_error_Some; congruence).
  destruct (x_bool Hsat Hi Hm) as [E | E]; rewrite E; reflexivity.
Qed.

(** Between one rider and the seats of the vehicle (lines 115-123). *)
Lemma riders_fit m k :
  (m < n)%nat -> v (used_ m) = 1 -> vehicle_of K v m = Some k ->
  1 <= Z.of_nat (length (assigned_to guests v m)) <= nth k vehicle_caps 0.
Proof.
  intros Hm Hu Hk. rewrite (riders_count Hm).
  destruct (vehicle_of_used Hm Hu) as (k' & Hk' & Hin & Hz & Huniq).
  assert (k' = k) by congruence. subst k'.
  split.
  - destruct (used_has_rider Hm Hu) as (i & Hi & Hx).
    rewrite <- Hx.
    apply (@sumZ_ge_one nat (fun i => v (x_ i m)) (range n) i);
      [|apply in_range, Hi].
    intros j Hj. apply in_range in Hj. destruct (x_bool Hsat Hj Hm); lia.
  - eapply Z.le_trans; [apply (load_fits Hsat Hm)|].
    rewrite (@sumZ_single nat (fun k => nth k vehicle_caps 0 * v (z_ m k))
               (py_range K) k).
    + rewrite Hz. lia.
    + unfold py_range, range. apply seq_NoDup.
    + exact Hin.
    + intros b Hb Hne. destruct (z_bool Hsat Hm Hb) as [E | E]; [rewrite E; lia|].
      elim Hne. apply Huniq; assumption.
Qed.

(** A rider arrives no earlier than the slot's least arrival (lines
    131-132 and 153). *)
Lemma min_arr_before_rider i m :
  (i < n)%nat -> (m < n)%nat -> v (x_ i m) = 1 ->
  v (min_arr_ m) <= arrival guests i.
Proof.
  intros Hi Hm Hx.
  assert (Hv : holds v (Add (var (vmin_ i m)) EQ (const (arrival guests i))
                            (Some (Lit (x_ i m)))) = true).
  { apply (@slot_holds m _ Hm). unfold trip_constraints. rewrite !in_app_iff.
    right; right; left. apply in_flat_map. exists i.
    split; [apply in_range, Hi | simpl; tauto]. }
  assert (Hmin : holds v (AddMinEquality (min_arr_ m)
                   (map (fun i => vmin_ i m) (range n) ++ [dummy_min_ m])) = true).
  { apply (@slot_holds m _ Hm). unfold trip_constraints.
    rewrite !in_app_iff. do 3 right. simpl. tauto. }
  cbn [holds compare] in Hmin, Hv. unfold lit_true, lit_value in Hv.
  rewrite Hx, eval_var, eval_const in Hv. simpl in Hv.
  apply Z.eqb_eq in Hv. rewrite <- Hv.
  apply andb_true_iff in Hmin as [_ Hall].
  rewrite forallb_forall in Hall. apply Z.leb_le, Hall.
  rewrite in_app_iff. left. apply in_map_iff. exists i.
  split; [reflexivity | apply in_range, Hi].
Qed.

Lemma rider_before_max_arr i m :
  (i < n)%nat -> (m < n)%nat -> v (x_ i m) = 1 ->
  arrival guests i <= v (max_arr_ m).
Proof.
  intros Hi Hm Hx. rewrite <- (dep_is_max_arr Hsat Hm).
  apply (dep_after_arrival Hsat Hi Hm Hx).
Qed.

(** The arrivals of a used slot are at most [W] apart (line 160). *)
Lemma spread_bounded m :
  (m < n)%nat -> v (used_ m) = 1 -> v (max_arr_ m) - v (min_arr_ m) <= W.
Proof.
  intros Hm Hu.
  assert (H : holds v (Add (minus (var (max_arr_ m)) (var (min_arr_ m))) LE
                           (const W) (Some (Lit (used_ m)))) = true).
  { apply (@slot_holds m _ Hm). unfold trip_constraints.
    rewrite !in_app_iff. do 3 right. simpl. tauto. }
  cbn [holds compare] in H. unfold lit_true, lit_value in H.
  rewrite Hu, eval_minus, !eval_var, eval_const in H. simpl in H.
  apply Z.leb_le, H.
Qed.

(** The mask of a guest outside the slot is the sentinel (lines 132
    and 135). *)
Lemma masks_of_outsider i m :
  (i < n)%nat -> (m < n)%nat -> v (x_ i m) = 0 ->
  v (vmin_ i m) = BIG_POS horizon /\ v (vmax_ i m) = BIG_NEG.
Proof.
  intros Hi Hm Hx.
  assert (Hin : forall c,
            In c [ Add (var (vmin_ i m)) EQ (const (BIG_POS horizon))
                       (Some (Not (x_ i m)));
                   Add (var (vmax_ i m)) EQ (const BIG_NEG)
                       (Some (Not (x_ i m))) ] ->
            holds v c = true).
  { intros c Hc. apply (@slot_holds m _ Hm). unfold trip_constraints.
    rewrite !in_app_iff. right; right; left. apply in_flat_map. exists i.
    split; [apply in_range, Hi|]. simpl in *. tauto. }
  assert (H1 := Hin _ (or_introl eq_refl)).
  assert (H2 := Hin _ (or_intror (or_introl eq_refl))).
  cbn [holds compare] in H1, H2. unfold lit_true, lit_value in H1, H2.
  rewrite Hx, eval_var, eval_const in H1, H2. simpl in H1, H2.
  split; apply Z.eqb_eq; assumption.
Qed.

Lemma masks_of_rider i m :
  (i < n)%nat -> (m < n)%nat -> v (x_ i m) = 1 ->
  v (vmin_ i m) = arrival guests i /\ v (vmax_ i m) = arrival guests i.
Proof.
  intros Hi Hm Hx.
  assert (Hin : forall c,
            In c [ Add (var (vmin_ i m)) EQ (const (arrival guests i))
                       (Some (Lit (x_ i m)));
                   Add (var (vmax_ i m)) EQ (const (arrival guests i))
                       (Some (Lit (x_ i m))) ] ->
            holds v c = true).
  { intros c Hc. apply (@slot_holds m _ Hm). unfold trip_constraints.
    rewrite !in_app_iff. right; right; left. apply in_flat_map. exists i.
    split; [apply in_range, Hi|]. simpl in *. tauto. }
  assert (H1 := Hin _ (or_introl eq_refl)).
  assert (H2 := Hin _ (or_intror (or_introl eq_refl))).
  cbn [holds compare] in H1, H2. unfold lit_true, lit_value in H1, H2.
  rewrite Hx, eval_var, eval_const in H1, H2. simpl in H1, H2.
  split; apply Z.eqb_eq; assumption.
Qed.

Lemma mask_domains i m :
  (i < n)%nat -> (m < n)%nat ->
  v (vmin_ i m) <= BIG_POS horizon /\ BIG_NEG <= v (vmax_ i m).
Proof.
  intros Hi Hm.
  assert (H1 : min_a <= v (vmin_ i m) <= BIG_POS horizon).
  { eapply domain_of_satisfies; [exact Hsat|].
    unfold build_model; cbn [variables].
    rewrite !in_app_iff. right; left.
    apply in_flat_map. exists m. split; [apply in_range, Hm|].
    unfold trip_variables. rewrite in_app_iff. left.
    apply in_flat_map. exists i. split; [apply in_range, Hi | simpl; tauto]. }
  assert (H2 : BIG_NEG <= v (vmax_ i m) <= max_a).
  { eapply domain_of_satisfies; [exact Hsat|].
    unfold build_model; cbn [variables].
    rewrite !in_app_iff. right; left.
    apply in_flat_map. exists m. split; [apply in_range, Hm|].
    unfold trip_variables. rewrite in_app_iff. left.
    apply in_flat_map. exists i. split; [apply in_range, Hi | simpl; tauto]. }
  lia.
Qed.

(** The dummies of a used slot are the sentinels (lines 145 and 148). *)
Lemma dummies_of_used m :
  (m < n)%nat -> v (used_ m) = 1 ->
  v (dummy_min_ m) = BIG_POS horizon /\ v (dummy_max_ m) = BIG_NEG.
Proof.
  intros Hm Hu.
  assert (Hin : forall c,
            In c [ Add (var (dummy_min_ m)) EQ (const (BIG_POS horizon))
                       (Some (Lit (used_ m)));
                   Add (var (dummy_max_ m)) EQ (const BIG_NEG)
                       (Some (Lit (used_ m))) ] ->
            holds v c = true).
  { intros c Hc. apply (@slot_holds m _ Hm). unfold trip_constraints.
    rewrite !in_app_iff. do 3 right. simpl in *. tauto. }
  assert (H1 := Hin _ (or_introl eq_refl)).
  assert (H2 := Hin _ (or_intror (or_introl eq_refl))).
  cbn [holds compare] in H1, H2. unfold lit_true, lit_value in H1, H2.
  rewrite Hu, eval_var, eval_const in H1, H2. simpl in H1, H2.
  split; apply Z.eqb_eq; assumption.
Qed.

(** The greatest arrival of a used slot is the arrival of one of its
    riders (lines 134-154). *)
Lemma max_arr_attained m :
  (m < n)%nat -> v (used_ m) = 1 ->
  exists i, (i < n)%nat /\ v (x_ i m) = 1 /\ arrival guests i = v (max_arr_ m).
Proof.
  intros Hm Hu.
  assert (Hmax : holds v (AddMaxEquality (max_arr_ m)
                   (map (fun i => vmax_ i m) (range n) ++ [dummy_max_ m])) = true).
  { apply (@slot_holds m _ Hm). unfold trip_constraints.
    rewrite !in_app_iff. do 3 right. simpl. tauto. }
  cbn [holds] in Hmax. apply andb_true_iff in Hmax as [Hex _].
  apply existsb_exists in Hex as (y & Hy & E). apply Z.eqb_eq in E.
  destruct (used_has_rider Hm Hu) as (j & Hj & Hxj).
  assert (Hsentinel : v (max_arr_ m) = BIG_NEG ->
            arrival guests j = v (max_arr_ m)).
  { intros Hs. assert (H1 := rider_before_max_arr Hj Hm Hxj).
    destruct (masks_of_rider Hj Hm Hxj) as [_ H2].
    destruct (mask_domains Hj Hm) as [_ H3]. lia. }
  apply in_app_iff in Hy as [Hy | [<- | []]].
  - apply in_map_iff in Hy as (i & <- & Hi). apply in_range in Hi.
    destruct (x_bool Hsat Hi Hm) as [Hx | Hx].
    + destruct (masks_of_outsider Hi Hm Hx) as [_ H2].
      exists j. repeat split; auto. apply Hsentinel. congruence.
    + destruct (masks_of_rider Hi Hm Hx) as [_ H2].
      exists i. repeat split; auto. congruence.
  - destruct (dummies_of_used Hm Hu) as [_ H2].
    exists j. repeat split; auto. apply Hsentinel. congruence.
Qed.

(** The least arrival of a used slot is the arrival of one of its
    riders (lines 131-153). *)
Lemma min_arr_attained m :
  (m < n)%nat -> v (used_ m) = 1 ->
  exists i, (i < n)%nat /\ v (x_ i m) = 1 /\ arrival guests i = v (min_arr_ m).
Proof.
  intros Hm Hu.
  assert (Hmin : holds v (AddMinEquality (min_arr_ m)
                   (map (fun i => vmin_ i m) (range n) ++ [dummy_min_ m])) = true).
  { apply (@slot_holds m _ Hm). unfold trip_constraints.
    rewrite !in_app_iff. do 3 right. simpl. tauto. }
  cbn [holds] in Hmin. apply andb_true_iff in Hmin as [Hex _].
  apply existsb_exists in Hex as (y & Hy & E). apply Z.eqb_eq in E.
  destruct (used_has_rider Hm Hu) as (j & Hj & Hxj).
  assert (Hsentinel : v (min_arr_ m) = BIG_POS horizon ->
            arrival guests j = v (min_arr_ m)).
  { intros Hs. assert (H1 := min_arr_before_rider Hj Hm Hxj).
    destruct (masks_of_rider Hj Hm Hxj) as [H2 _].
    destruct (mask_domains Hj Hm) as [H3 _]. lia. }
  apply in_app_iff in Hy as [Hy | [<- | []]].
  - apply in_map_iff in Hy as (i & <- & Hi). apply in_range in Hi.
    destruct (x_bool Hsat Hi Hm) as [Hx | Hx].
    + destruct (masks_of_outsider Hi Hm Hx) as [H2 _].
      exists j. repeat split; auto. apply Hsentinel. congruence.
    + destruct (masks_of_rider Hi Hm Hx) as [H2 _].
      exists i. repeat split; auto. congruence.
  - destruct (dummies_of_used Hm Hu) as [H2 _].
    exists j. repeat split; auto. apply Hsentinel. congruence.
Qed.

(** Departures stay within the horizon, the total within its cap
    (lines 92 and 213). *)
Lemma dep_domain m : (m < n)%nat -> min_a <= v (dep_ m) <= horizon.
Proof.
  intros Hm. eapply domain_of_satisfies; [exact Hsat|].
  unfold build_model; cbn [variables]. unfold base_variables.
  rewrite !in_app_iff. left. do 2 right; left.
  apply in_map_iff. exists m. split; [reflexivity | apply in_range, Hm].
Qed.

Lemma total_wait_domain : 0 <= v total_wait_ <= 10000000.
Proof.
  eapply domain_of_satisfies; [exact Hsat|].
  unfold build_model; cbn [variables].
  rewrite !in_app_iff. do 3 right. unfold wait_variables.
  rewrite in_app_iff. right. simpl. tauto.
Qed.

End SlotFacts.

Arguments incompatible_holds {_ _ _ _ _ _ _ _ _ _ _} _ [_] _.
Arguments together_holds {_ _ _ _ _ _ _ _ _ _ _} _ [_] _.
Arguments used_has_rider {_ _ _ _ _ _ _ _ _ _ _} _ [_] _ _.
Arguments vehicle_of_used {_ _ _ _ _ _ _ _ _ _ _} _ [_] _ _.
Arguments riders_count {_ _ _ _ _ _ _ _ _ _ _} _ [_] _.
Arguments riders_fit {_ _ _ _ _ _ _ _ _ _ _} _ [_ _] _ _ _.
Arguments min_arr_before_rider {_ _ _ _ _ _ _ _ _ _ _} _ [_ _] _ _ _.
Arguments rider_before_max_arr {_ _ _ _ _ _ _ _ _ _ _} _ [_ _] _ _ _.
Arguments spread_bounded {_ _ _ _ _ _ _ _ _ _ _} _ [_] _ _.
Arguments masks_of_rider {_ _ _ _ _ _ _ _ _ _ _} _ [_ _] _ _ _.
Arguments mask_domains {_ _ _ _ _ _ _ _ _ _ _} _ [_ _] _ _.
Arguments max_arr_attained {_ _ _ _ _ _ _ _ _ _ _} _ [_] _ _.
Arguments min_arr_attained {_ _ _ _ _ _ _ _ _ _ _} _ [_] _ _.
Arguments dep_domain {_ _ _ _ _ _ _ _ _ _ _} _ [_] _.
Arguments total_wait_domain {_ _ _ _ _ _ _ _ _ _ _} _.

(** ** The id dictionary *)

Lemma enumerate_from_snoc {A : Type} (l : list A) (a : A) s :
  combine (seq s (length (l ++ [a]))) (l ++ [a])
  = combine (seq s (length l)) l ++ [((s + length l)%nat, a)].
Proof.
  revert s; induction l as [|b l IH]; intros s; cbn [app length seq combine].
  - rewrite Nat.add_0_r. reflexivity.
  - rewrite IH. rewrite <- Nat.add_succ_comm. reflexivity.
Qed.

Lemma build_id_to_i_snoc guests g gid :
  build_id_to_i (guests ++ [g]) gid
  = if String.eqb gid (guest_id g) then Some (length guests)
    else build_id_to_i guests gid.
Proof.
  unfold build_id_to_i, enumerate.
  rewrite enumerate_from_snoc, fold_left_app. reflexivity.
Qed.

(** A lookup finds the last guest that carries the id (line 81). *)
Lemma id_to_i_spec guests gid i :
  build_id_to_i guests gid = Some i <->
  (exists g, nth_error guests i = Some g /\ guest_id g = gid) /\
  (forall j g', (i < j)%nat -> nth_error guests j = Some g' ->
                guest_id g' <> gid).
Proof.
  revert i; induction guests as [|g guests IH] using rev_ind; intros i.
  - split; [discriminate|]. intros [(g & H & _) _]. destruct i; discriminate.
  - rewrite build_id_to_i_snoc.
    destruct (String.eqb_spec gid (guest_id g)) as [E | E].
    + split.
      * intros H; injection H as <-. split.
        -- exists g. rewrite nth_error_app2, Nat.sub_diag by lia. auto.
        -- intros j g' Hj Hnth.
           assert (nth_error (guests ++ [g]) j <> None) by congruence.
           apply nth_error_Some in H. rewrite length_app in H. simpl in H. lia.
      * intros [(g0 & Hnth & Hid) Hlast].
        assert (Hi : (i < length (guests ++ [g]))%nat)
          by (apply nth_error_Some; congruence).
        rewrite length_app in Hi; simpl in Hi.
        destruct (Nat.eq_dec i (length guests)) as [-> | Hne]; [reflexivity|].
        exfalso. apply (Hlast (length guests) g); [lia| |auto].
        rewrite nth_error_app2, Nat.sub_diag by lia. reflexivity.
    + rewrite IH. split.
      * intros [(g0 & Hnth & Hid) Hlast].
        assert (Hi : (i < length guests)%nat)
          by (apply nth_error_Some; congruence).
        split.
        -- exists g0. rewrite nth_error_app1 by lia. auto.
        -- intros j g' Hj Hnth'.
           destruct (Nat.lt_ge_cases j (length guests)) as [Hlt | Hge].
           ++ rewrite nth_error_app1 in Hnth' by lia. eauto.
           ++ rewrite nth_error_app2 in Hnth' by lia.
              destruct (j - length guests)%nat as [|[|]]; simpl in Hnth';
                try discriminate.
              injection Hnth' as <-. congruence.
      * intros [(g0 & Hnth & Hid) Hlast].
        assert (Hi : (i < length (guests ++ [g]))%nat)
          by (apply nth_error_Some; congruence).
        rewrite length_app in Hi; simpl in Hi.
        destruct (Nat.eq_dec i (length guests)) as [-> | Hne].
        -- rewrite nth_error_app2, Nat.sub_diag in Hnth by lia.
           simpl in Hnth. injection Hnth as <-. congruence.
        -- rewrite nth_error_app1 in Hnth by lia. split; [eauto|].
           intros j g' Hj Hnth'. apply (Hlast j g' Hj).
           rewrite nth_error_app1; [exact Hnth'|].
           apply nth_error_Some. congruence.
Qed.

(** With distinct ids, the dictionary gives the position of the one
    guest that carries the id. *)
Lemma id_to_i_unique guests gid i p gst :
  NoDup (map guest_id guests) ->
  build_id_to_i guests gid = Some i ->
  nth_error guests p = Some gst -> guest_id gst = gid -> p = i.
Proof.
  intros Hnd Hi Hp Hid.
  apply id_to_i_spec in Hi as [(g & Hg & Hgid) _].
  assert (Hlen : (p < length (map guest_id guests))%nat).
  { rewrite length_map. apply nth_error_Some. congruence. }
  apply (proj1 (NoDup_nth_error _) Hnd p i Hlen).
  rewrite !nth_error_map, Hp, Hg. simpl. congruence.
Qed.

Lemma id_to_i_known guests gid :
  In gid (map guest_id guests) ->
  exists i, build_id_to_i guests gid = Some i /\ (i < length guests)%nat.
Proof.
  intros Hin. destruct (build_id_to_i guests gid) as [i|] eqn:E.
  - exists i. split; [reflexivity|].
    apply id_to_i_spec in E as [(g & Hg & _) _].
    apply nth_error_Some. congruence.
  - apply id_to_i_none in E. contradiction.
Qed.

(** Who rides in a trip of the report, by position in the input. *)
Lemma row_of_rider guests K vehicle_caps v m g :
  In g (guests_of (trip_out guests K vehicle_caps v m)) ->
  exists i, (i < length guests)%nat /\ v (x_ i m) = 1 /\
            row_arrival_min g = arrival guests i /\ wait_min g = v (wait_ i).
Proof.
  intros Hg. apply in_guests_of in Hg as (i & gst & Hnth & Hx & ->).
  exists i. split; [apply nth_error_Some; congruence|]. split; [exact Hx|].
  unfold arrival. rewrite Hnth. split; reflexivity.
Qed.

Lemma rider_has_row guests K vehicle_caps v m i :
  (i < length guests)%nat -> v (x_ i m) = 1 ->
  exists g, In g (guests_of (trip_out guests K vehicle_caps v m)) /\
            row_arrival_min g = arrival guests i.
Proof.
  intros Hi Hx.
  destruct (nth_error guests i) as [gst|] eqn:Hnth;
    [|apply nth_error_None in Hnth; lia].
  exists (mkGuestRow (guest_id gst) (name gst) (arrival_min gst) (v (wait_ i))).
  split.
  - apply in_guests_of. exists i, gst. auto.
  - unfold arrival. rewrite Hnth. reflexivity.
Qed.

Lemma length_flat_map_sum {A B : Type} (f : A -> list B) l :
  Z.of_nat (length (flat_map f l))
  = sumZ (map (fun a => Z.of_nat (length (f a))) l).
Proof.
  induction l as [|a l IH]; cbn [flat_map map sumZ fold_right]; [reflexivity|].
  fold (sumZ (map (fun a => Z.of_nat (length (f a))) l)).
  rewrite length_app. lia.
Qed.

(** A status other than "ok" is "infeasible". *)
Lemma not_ok_is_infeasible Solve guests params r :
  solve_pickups_multitrip Solve guests params = inr r ->
  get "status" r <> Some (PStr "ok") ->
  get "status" r = Some (PStr "infeasible").
Proof.
  intros H Hno.
  destruct (solve_returns _ _ _ H) as [[_ ->] | (_ & _ & H')].
  - elim Hno. reflexivity.
  - destruct H' as (a & b & h & inc & tog & [[_ ->] | [_ ->]]).
    + reflexivity.
    + elim Hno. reflexivity.
Qed.

(** ** The plan, trip by trip *)

(** X1: in every result with status "ok" the trips list each guest of
    the input exactly once, and the [num_guests] of the trips add up to
    the number of guests. *)
Theorem every_guest_rides_once Solve guests params r trips :
  sound Solve ->
  solve_pickups_multitrip Solve guests params = inr r ->
  get "status" r = Some (PStr "ok") ->
  get "trips" r = Some (PTrips trips) ->
  Permutation (listed trips) guests /\
  sumZ (map (fun t => Z.of_nat (num_guests t)) trips) = len guests.
Proof.
  intros Hsound H Hst Htrips.
  destruct (ok_trips_listed _ _ Hsound H Hst Htrips) as [Hperm _].
  split; [exact Hperm|].
  unfold len. rewrite <- (Permutation_length Hperm). unfold listed.
  rewrite length_flat_map_sum. apply sumZ_map_ext.
  intros t Hin.
  destruct (@ok_trip_inv Solve guests params r trips t Hsound H Hst Htrips Hin)
    as (a & b & tog & v & m & _ & _ & _ & _ & _ & _ & _ & ->).
  cbn [trip_out num_guests guests_of].
  rewrite length_map, sorted_by_length. reflexivity.
Qed.

Lemma every_guest_rides_once_witness :
  Permutation (listed scenario_A_trips) scenario_A_guests /\
  sumZ (map (fun t => Z.of_nat (num_guests t)) scenario_A_trips)
  = len scenario_A_guests.
Proof.
  apply (@every_guest_rides_once (checking_solver scenario_A_plan)
           scenario_A_guests scenario_A_params scenario_A_report
           scenario_A_trips (checking_solver_sound scenario_A_plan)
           scenario_A_solved eq_refl eq_refl).
Defined.

(** X2: every trip of an "ok" result runs on a vehicle of the fleet,
    reports that vehicle's normalized capacity, and carries at least
    one guest and at most as many as the vehicle has seats;
    [num_guests] is the length of the trip's guest list. *)
Theorem trip_fits_its_vehicle Solve guests params r trips :
  sound Solve ->
  solve_pickups_multitrip Solve guests params = inr r ->
  get "status" r = Some (PStr "ok") ->
  get "trips" r = Some (PTrips trips) ->
  forall t, In t trips ->
    exists k,
      vehicle_index t = Some k /\ Z.of_nat k < num_cars params /\
      vehicle_capacity t = Some (nth k (normalize_vehicle_caps params) 0) /\
      1 <= Z.of_nat (num_guests t) <= nth k (normalize_vehicle_caps params) 0 /\
      num_guests t = length (guests_of t).
Proof.
  intros Hsound H Hst Htrips t Hin.
  destruct (@ok_trip_inv Solve guests params r trips t Hsound H Hst Htrips Hin)
    as (a & b & tog & v & m & _ & _ & _ & Hsat & _ & Hm & Hu & ->).
  unfold formulation in Hsat.
  destruct (vehicle_of_used Hsat Hm Hu) as (k & Hk & Hrange & _ & _).
  exists k. cbn [trip_out vehicle_index vehicle_capacity num_guests guests_of].
  rewrite Hk. split; [reflexivity|]. split.
  - apply in_range in Hrange. lia.
  - split; [reflexivity|]. split.
    + apply (riders_fit Hsat Hm Hu Hk).
    + rewrite sorted_by_length. reflexivity.
Qed.

Lemma trip_fits_its_vehicle_witness :
  In scenario_A_trip scenario_A_trips /\
  exists k,
    vehicle_index scenario_A_trip = Some k /\
    Z.of_nat k < num_cars scenario_A_params /\
    vehicle_capacity scenario_A_trip
    = Some (nth k (normalize_vehicle_caps scenario_A_params) 0) /\
    1 <= Z.of_nat (num_guests scenario_A_trip)
      <= nth k (normalize_vehicle_caps scenario_A_params) 0 /\
    num_guests scenario_A_trip = length (guests_of scenario_A_trip).
Proof.
  assert (Hin : In scenario_A_trip scenario_A_trips) by (left; reflexivity).
  split; [exact Hin|].
  apply (@trip_fits_its_vehicle (checking_solver scenario_A_plan)
           scenario_A_guests scenario_A_params scenario_A_report
           scenario_A_trips (checking_solver_sound scenario_A_plan)
           scenario_A_solved eq_refl eq_refl scenario_A_trip Hin).
Defined.

(** X3: in every trip of an "ok" result the arrivals are at most
    [max_wait_min] apart, and every listed guest waits between 0 and
    [max_wait_min] minutes. *)
Theorem waits_within_max_wait Solve guests params r trips :
  sound Solve ->
  solve_pickups_multitrip Solve guests params = inr r ->
  get "status" r = Some (PStr "ok") ->
  get "trips" r = Some (PTrips trips) ->
  forall t, In t trips ->
    max_arrival_min t - min_arrival_min t <= max_wait_min params /\
    forall g, In g (guests_of t) -> 0 <= wait_min g <= max_wait_min params.
Proof.
  intros Hsound H Hst Htrips t Hin.
  destruct (@ok_trip_inv Solve guests params r trips t Hsound H Hst Htrips Hin)
    as (a & b & tog & v & m & _ & _ & _ & Hsat & _ & Hm & Hu & ->).
  unfold formulation in Hsat.
  assert (Hspread := spread_bounded Hsat Hm Hu).
  split; [exact Hspread|].
  intros g Hg. rewrite (listed_guest_wait Hsat Hm Hg).
  destruct (row_of_rider _ _ _ _ _ _ Hg) as (i & Hi & Hx & -> & _).
  assert (H1 := min_arr_before_rider Hsat Hi Hm Hx).
  assert (H2 := dep_after_arrival Hsat Hi Hm Hx).
  rewrite (dep_is_max_arr Hsat Hm) in *. lia.
Qed.

Lemma waits_within_max_wait_witness :
  In scenario_A_trip scenario_A_trips /\
  max_arrival_min scenario_A_trip - min_arrival_min scenario_A_trip
  <= max_wait_min scenario_A_params /\
  forall g, In g (guests_of scenario_A_trip) ->
    0 <= wait_min g <= max_wait_min scenario_A_params.
Proof.
  assert (Hin : In scenario_A_trip scenario_A_trips) by (left; reflexivity).
  split; [exact Hin|].
  apply (@waits_within_max_wait (checking_solver scenario_A_plan)
           scenario_A_guests scenario_A_params scenario_A_report
           scenario_A_trips (checking_solver_sound scenario_A_plan)
           scenario_A_solved eq_refl eq_refl scenario_A_trip Hin).
Defined.

(** X4: in every trip of an "ok" result, [min_arrival_min] and
    [max_arrival_min] are the least and the greatest [arrival_min]
    among the guests the trip lists: every listed arrival lies between
    them and each is the arrival of a listed guest. *)
Theorem trip_span_is_exact Solve guests params r trips :
  sound Solve ->
  solve_pickups_multitrip Solve guests params = inr r ->
  get "status" r = Some (PStr "ok") ->
  get "trips" r = Some (PTrips trips) ->
  forall t, In t trips ->
    (forall g, In g (guests_of t) ->
       min_arrival_min t <= row_arrival_min g <= max_arrival_min t) /\
    (exists g, In g (guests_of t) /\ row_arrival_min g = min_arrival_min t) /\
    (exists g, In g (guests_of t) /\ row_arrival_min g = max_arrival_min t).
Proof.
  intros Hsound H Hst Htrips t Hin.
  destruct (@ok_trip_inv Solve guests params r trips t Hsound H Hst Htrips Hin)
    as (a & b & tog & v & m & _ & _ & _ & Hsat & _ & Hm & Hu & ->).
  unfold formulation in Hsat.
  split; [|split].
  - intros g Hg.
    destruct (row_of_rider _ _ _ _ _ _ Hg) as (i & Hi & Hx & -> & _).
    cbn [trip_out min_arrival_min max_arrival_min].
    split; [apply (min_arr_before_rider Hsat Hi Hm Hx)
           | apply (rider_before_max_arr Hsat Hi Hm Hx)].
  - destruct (min_arr_attained Hsat Hm Hu) as (i & Hi & Hx & E).
    destruct (rider_has_row guests (num_cars params)
                (normalize_vehicle_caps params) v m Hi Hx) as (g & Hg & Hrow).
    exists g. split; [exact Hg|]. cbn [trip_out min_arrival_min]. congruence.
  - destruct (max_arr_attained Hsat Hm Hu) as (i & Hi & Hx & E).
    destruct (rider_has_row guests (num_cars params)
                (normalize_vehicle_caps params) v m Hi Hx) as (g & Hg & Hrow).
    exists g. split; [exact Hg|]. cbn [trip_out max_arrival_min]. congruence.
Qed.

Lemma trip_span_is_exact_witness :
  In scenario_A_trip scenario_A_trips /\
  (forall g, In g (guests_of scenario_A_trip) ->
     min_arrival_min scenario_A_trip <= row_arrival_min g
     <= max_arrival_min scenario_A_trip) /\
  (exists g, In g (guests_of scenario_A_trip) /\
             row_arrival_min g = min_arrival_min scenario_A_trip) /\
  (exists g, In g (guests_of scenario_A_trip) /\
             row_arrival_min g = max_arrival_min scenario_A_trip).
Proof.
  assert (Hin : In scenario_A_trip scenario_A_trips) by (left; reflexivity).
  split; [exact Hin|].
  apply (@trip_span_is_exact (checking_solver scenario_A_plan)
           scenario_A_guests scenario_A_params scenario_A_report
           scenario_A_trips (checking_solver_sound scenario_A_plan)
           scenario_A_solved eq_refl eq_refl scenario_A_trip Hin).
Defined.

(** ** Incompatible pairs and the grouping rule *)

Lemma together_constraints_inv guests K id_to_i rule together :
  together_constraints guests K id_to_i (Some rule) = inr together ->
  exists gid_a gid_b k0 ia ib,
    rule_guest_id_a rule = Some gid_a /\ rule_guest_id_b rule = Some gid_b /\
    rule_vehicle_index rule = Some k0 /\
    id_to_i gid_a = Some ia /\ id_to_i gid_b = Some ib /\ 0 <= k0 < K /\
    together
    = flat_map (fun m =>
        [ Add (var (x_ ia m)) EQ (var (x_ ib m)) None;
          AddImplication (Lit (x_ ia m)) (Lit (z_ m (Z.to_nat k0))) ])
        (range (length guests)).
Proof.
  unfold together_constraints.
  destruct rule as [[ga|] [gb|] [k0|]];
    cbn [getitem bind ret raise rule_guest_id_a rule_guest_id_b
         rule_vehicle_index]; try discriminate.
  destruct (id_to_i ga) as [ia|] eqn:Ha; [|discriminate].
  destruct (id_to_i gb) as [ib|] eqn:Hb; [|discriminate].
  destruct ((0 <=? k0) && (k0 <? K)) eqn:Hk; cbn [negb]; [|discriminate].
  intros H; injection H as <-.
  apply andb_true_iff in Hk as [H1 H2].
  apply Z.leb_le in H1. apply Z.ltb_lt in H2.
  exists ga, gb, k0, ia, ib. repeat split; auto.
Qed.

(** X5: with distinct guest ids, no trip of an "ok" result lists both
    guests of an [incompatible_pairs] entry. *)
Theorem incompatible_guests_kept_apart Solve guests params r trips :
  sound Solve ->
  NoDup (map guest_id guests) ->
  solve_pickups_multitrip Solve guests params = inr r ->
  get "status" r = Some (PStr "ok") ->
  get "trips" r = Some (PTrips trips) ->
  forall gid1 gid2 t,
    In (gid1, gid2) (pairs_of params) -> In t trips ->
    ~ (In gid1 (riders t) /\ In gid2 (riders t)).
Proof.
  intros Hsound Hnd H Hst Htrips gid1 gid2 t Hpair Hin [H1 H2].
  destruct (@ok_trip_inv Solve guests params r trips t Hsound H Hst Htrips Hin)
    as (a & b & tog & v & m & _ & _ & _ & Hsat & _ & Hm & Hu & ->).
  unfold formulation in Hsat.
  apply in_riders in H1 as (p1 & g1 & Hp1 & Hx1 & Hid1).
  apply in_riders in H2 as (p2 & g2 & Hp2 & Hx2 & Hid2).
  destruct (@id_to_i_known guests gid1) as (i1 & Hi1 & _).
  { rewrite <- Hid1. apply in_map, (nth_error_In _ _ Hp1). }
  destruct (@id_to_i_known guests gid2) as (i2 & Hi2 & _).
  { rewrite <- Hid2. apply in_map, (nth_error_In _ _ Hp2). }
  assert (p1 = i1) by (eapply id_to_i_unique; eassumption).
  assert (p2 = i2) by (eapply id_to_i_unique; eassumption).
  subst p1 p2.
  assert (Hc : holds v (Add (plus (var (x_ i1 m)) (var (x_ i2 m))) LE
                            (const 1) None) = true).
  { apply (incompatible_holds Hsat). unfold incompatibility_constraints.
    apply in_flat_map. exists (gid1, gid2). split; [exact Hpair|].
    cbn [fst snd]. rewrite Hi1, Hi2.
    apply in_map_iff. exists m. split; [reflexivity | apply in_range, Hm]. }
  cbn [holds compare] in Hc. rewrite eval_plus, !eval_var, eval_const in Hc.
  apply Z.leb_le in Hc. lia.
Qed.

Lemma incompatible_guests_kept_apart_witness :
  NoDup (map guest_id relay_guests) /\
  In ("g1", "g2")%string (pairs_of relay_apart_params) /\
  In relay_first_trip relay_trips /\
  ~ (In "g1"%string (riders relay_first_trip) /\
     In "g2"%string (riders relay_first_trip)).
Proof.
  assert (Hnd : NoDup (map guest_id relay_guests)).
  { repeat constructor; cbn; intros H; repeat destruct H as [H | H];
      try discriminate; auto. }
  assert (Hpair : In ("g1", "g2")%string (pairs_of relay_apart_params))
    by (left; reflexivity).
  assert (Hin : In relay_first_trip relay_trips) by (left; reflexivity).
  split; [exact Hnd|]. split; [exact Hpair|]. split; [exact Hin|].
  apply (@incompatible_guests_kept_apart (checking_solver relay_plan)
           relay_guests relay_apart_params relay_report relay_trips
           (checking_solver_sound relay_plan) Hnd).
  - vm_compute; reflexivity.
  - reflexivity.
  - reflexivity.
  - exact Hpair.
  - exact Hin.
Defined.

(** X6: with distinct guest ids and a non-empty guest list, an "ok"
    result under a grouping rule has a trip that lists both named
    guests, and every trip that lists one of them lists the other and
    runs on the named vehicle. *)
Theorem grouped_guests_ride_together Solve guests params r trips rule :
  sound Solve ->
  NoDup (map guest_id guests) ->
  guests <> [] ->
  solve_pickups_multitrip Solve guests params = inr r ->
  get "status" r = Some (PStr "ok") ->
  get "trips" r = Some (PTrips trips) ->
  must_ride_together_in_vehicle params = Some rule ->
  exists gid_a gid_b k0,
    rule_guest_id_a rule = Some gid_a /\ rule_guest_id_b rule = Some gid_b /\
    rule_vehicle_index rule = Some k0 /\
    (exists t, In t trips /\ In gid_a (riders t) /\ In gid_b (riders t)) /\
    (forall t, In t trips -> In gid_a (riders t) \/ In gid_b (riders t) ->
       In gid_a (riders t) /\ In gid_b (riders t) /\
       vehicle_index t = Some (Z.to_nat k0)).
Proof.
  intros Hsound Hnd Hne H Hst Htrips Hrule.
  destruct (solve_plan_inv params Hsound H Hne Hst)
    as (a & b & tog & v & _ & _ & Ht & _ & _ & Hsat & ->).
  rewrite ok_report_trips in Htrips. inversion Htrips; subst trips; clear Htrips.
  rewrite Hrule in Ht.
  destruct (together_constraints_inv _ _ _ _ Ht)
    as (ga & gb & k0 & ia & ib & Ea & Eb & Ek & Hia & Hib & Hk & ->).
  unfold formulation in Hsat.
  exists ga, gb, k0. split; [exact Ea|]. split; [exact Eb|]. split; [exact Ek|].
  destruct (proj1 (id_to_i_spec _ _ _) Hia) as [(gsta & Hna & Hida) _].
  destruct (proj1 (id_to_i_spec _ _ _) Hib) as [(gstb & Hnb & Hidb) _].
  assert (Lia : (ia < length guests)%nat) by (apply nth_error_Some; congruence).
  assert (Lib : (ib < length guests)%nat) by (apply nth_error_Some; congruence).
  assert (Hsame : forall m, (m < length guests)%nat -> v (x_ ia m) = v (x_ ib m)).
  { intros m Hm.
    assert (Hc : holds v (Add (var (x_ ia m)) EQ (var (x_ ib m)) None) = true).
    { apply (together_holds Hsat). apply in_flat_map. exists m.
      split; [apply in_range, Hm | simpl; tauto]. }
    cbn [holds compare] in Hc. rewrite !eval_var in Hc. apply Z.eqb_eq, Hc. }
  assert (Hveh : forall m, (m < length guests)%nat -> v (x_ ia m) = 1 ->
            vehicle_index (trip_out guests (num_cars params)
                             (normalize_vehicle_caps params) v m)
            = Some (Z.to_nat k0)).
  { intros m Hm Hx.
    assert (Hc : holds v (AddImplication (Lit (x_ ia m))
                            (Lit (z_ m (Z.to_nat k0)))) = true).
    { apply (together_holds Hsat). apply in_flat_map. exists m.
      split; [apply in_range, Hm | simpl; tauto]. }
    cbn [holds] in Hc. unfold lit_true, lit_value in Hc.
    rewrite Hx in Hc. simpl in Hc. apply Z.eqb_eq in Hc.
    destruct (vehicle_of_used Hsat Hm (x_used Hsat Lia Hm Hx))
      as (k & Hvk & _ & _ & Huniq).
    cbn [trip_out vehicle_index]. rewrite Hvk. f_equal. symmetry.
    apply Huniq; [|exact Hc]. apply in_range. lia. }
  assert (Hboth : forall m, (m < length guests)%nat -> v (x_ ia m) = 1 ->
            In ga (riders (trip_out guests (num_cars params)
                             (normalize_vehicle_caps params) v m)) /\
            In gb (riders (trip_out guests (num_cars params)
                             (normalize_vehicle_caps params) v m))).
  { intros m Hm Hx. split; apply in_riders.
    - exists ia, gsta. auto.
    - exists ib, gstb. rewrite <- (Hsame m Hm). auto. }
  split.
  - destruct (some_slot_per_guest _ _ _ _ _ _ _ _ _ _ _ Hsat Lia)
      as (m & Hm & Hx).
    exists (trip_out guests (num_cars params) (normalize_vehicle_caps params) v m).
    split; [|apply (Hboth m Hm Hx)].
    apply in_trips_out. exists m. split; [exact Hm|]. split; [|reflexivity].
    rewrite (x_used Hsat Lia Hm Hx). discriminate.
  - intros t Hin Hone.
    apply in_trips_out in Hin as (m & Hm & _ & ->).
    assert (Hx : v (x_ ia m) = 1).
    { destruct Hone as [Hr | Hr];
        apply in_riders in Hr as (p & gst & Hp & Hxp & Hid).
      - assert (p = ia) by (eapply id_to_i_unique; eassumption). congruence.
      - assert (p = ib) by (eapply id_to_i_unique; eassumption).
        subst p. rewrite (Hsame m Hm). exact Hxp. }
    destruct (Hboth m Hm Hx). auto.
Qed.

Lemma grouped_guests_ride_together_witness :
  NoDup (map guest_id scenario_A_guests) /\
  scenario_A_guests <> [] /\
  exists gid_a gid_b k0,
    Some "g1"%string = Some gid_a /\ Some "g3"%string = Some gid_b /\
    Some 0 = Some k0 /\
    (exists t, In t scenario_A_trips /\ In gid_a (riders t) /\
               In gid_b (riders t)) /\
    (forall t, In t scenario_A_trips ->
       In gid_a (riders t) \/ In gid_b (riders t) ->
       In gid_a (riders t) /\ In gid_b (riders t) /\
       vehicle_index t = Some (Z.to_nat k0)).
Proof.
  assert (Hnd : NoDup (map guest_id scenario_A_guests)).
  { repeat constructor; cbn; intros H; repeat destruct H as [H | H];
      try discriminate; auto. }
  assert (Hne : scenario_A_guests <> []) by discriminate.
  split; [exact Hnd|]. split; [exact Hne|].
  apply (@grouped_guests_ride_together (checking_solver scenario_A_plan)
           scenario_A_guests scenario_A_grouped_params scenario_A_report
           scenario_A_trips
           (mkTogetherRule (Some "g1"%string) (Some "g3"%string) (Some 0))
           (checking_solver_sound scenario_A_plan) Hnd Hne).
  - vm_compute; reflexivity.
  - reflexivity.
  - reflexivity.
  - reflexivity.
Defined.

(** ** The order of the report *)

Section StableOrder.
Variable A : Type.
Variable key : A -> Z.
Variable before : A -> A -> Prop.

Local Abbreviation lex := (key_then_before key before).

Lemma insert_by_ordered a s :
  ForallOrdPairs lex s -> Forall (before a) s ->
  ForallOrdPairs lex (insert_by key a s).
Proof.
  induction s as [|b s IH]; cbn [insert_by]; intros Hs Ha.
  - constructor; constructor.
  - inversion Hs as [|? ? Hb Hs']; subst. inversion Ha as [|? ? Hab Ha']; subst.
    destruct (Z.leb_spec (key a) (key b)) as [Hle | Hgt].
    + constructor; [|exact Hs]. constructor.
      * unfold key_then_before. destruct (Z.eq_dec (key a) (key b)); [right | left];
          [split; assumption | lia].
      * rewrite Forall_forall in *. intros c Hc.
        assert (Hbc := Hb c Hc). assert (Hac := Ha' c Hc).
        unfold key_then_before in *.
        destruct (Z.eq_dec (key a) (key c)); [right; split; assumption | left].
        destruct Hbc as [? | [? _]]; lia.
    + constructor; [|apply IH; assumption].
      rewrite Forall_forall in *. intros c Hc.
      apply (Permutation_in _ (insert_by_perm key a s)) in Hc.
      destruct Hc as [<- | Hc]; [left; lia | auto].
Qed.

Lemma sorted_by_ordered l :
  ForallOrdPairs before l ->
  ForallOrdPairs lex (sorted_by key l).
Proof.
  induction l as [|a l IH]; cbn [sorted_by fold_right]; intros Hl;
    [constructor|].
  inversion Hl as [|? ? Ha Hl']; subst.
  apply insert_by_ordered; [apply IH, Hl'|].
  rewrite Forall_forall in *. intros c Hc. apply Ha.
  apply (Permutation_in _ (sorted_by_perm key l)). exact Hc.
Qed.

End StableOrder.

Lemma FOP_weaken {A : Type} (R S : A -> A -> Prop) l :
  (forall a b, R a b -> S a b) -> ForallOrdPairs R l -> ForallOrdPairs S l.
Proof.
  intros HRS. induction 1 as [|a l Ha Hl IH]; constructor; [|exact IH].
  rewrite Forall_forall in *. auto.
Qed.

Lemma FOP_nth {A : Type} (R : A -> A -> Prop) l p q a b :
  ForallOrdPairs R l -> (p < q)%nat ->
  nth_error l p = Some a -> nth_error l q = Some b -> R a b.
Proof.
  intros Hl. revert p q. induction Hl as [|c l Hc Hl IH]; intros p q Hpq Hp Hq.
  - destruct p; discriminate.
  - destruct q as [|q]; [lia|]. cbn in Hq. destruct p as [|p].
    + cbn in Hp. injection Hp as <-.
      rewrite Forall_forall in Hc. apply Hc, (nth_error_In _ _ Hq).
    + cbn in Hp. apply (IH p q); auto. lia.
Qed.

Lemma FOP_trivial {A : Type} (l : list A) :
  ForallOrdPairs (fun _ _ => True) l.
Proof.
  induction l; constructor; auto. apply Forall_forall. auto.
Qed.

Lemma FOP_seq s n : ForallOrdPairs lt (seq s n).
Proof.
  revert s; induction n as [|n IH]; intros s; cbn [seq]; constructor; auto.
  apply Forall_forall. intros c Hc. apply in_seq in Hc. lia.
Qed.

Lemma FOP_filter {A : Type} (R : A -> A -> Prop) p l :
  ForallOrdPairs R l -> ForallOrdPairs R (filter p l).
Proof.
  induction 1 as [|a l Ha Hl IH]; cbn [filter]; [constructor|].
  destruct (p a); [|exact IH]. constructor; [|exact IH].
  rewrite Forall_forall in *. intros c Hc. apply filter_In in Hc as [Hc _].
  auto.
Qed.

Lemma FOP_map {A B : Type} (f : A -> B) (R : B -> B -> Prop) l :
  ForallOrdPairs (fun a b => R (f a) (f b)) l -> ForallOrdPairs R (map f l).
Proof.
  induction 1 as [|a l Ha Hl IH]; cbn [map]; constructor; [|exact IH].
  rewrite Forall_forall in *. intros c Hc.
  apply in_map_iff in Hc as (c' & <- & Hc'). auto.
Qed.

(** The trips of a report, whatever the solver answered. *)
Lemma trips_of_report Solve guests params r trips :
  solve_pickups_multitrip Solve guests params = inr r ->
  get "trips" r = Some (PTrips trips) ->
  trips = [] \/
  exists v, trips = build_trips_out guests (num_cars params)
                                    (normalize_vehicle_caps params) v.
Proof.
  intros H Htrips.
  destruct (solve_returns _ _ _ H) as [[_ ->] | (_ & _ & H')].
  - left. rewrite empty_report_trips in Htrips. congruence.
  - destruct H' as (a & b & h & inc & tog & [[_ ->] | [_ ->]]);
      [discriminate|].
    right. rewrite ok_report_trips in Htrips. inversion Htrips.
    eexists; reflexivity.
Qed.

(** X7: the trips of a report come by ascending [departure_min], trips
    with the same departure by ascending [trip_index]; the guests of a
    trip come by ascending [arrival_min].  This holds for whatever the
    solver answered. *)
Theorem report_is_ordered Solve guests params r trips :
  solve_pickups_multitrip Solve guests params = inr r ->
  get "trips" r = Some (PTrips trips) ->
  (forall p q t1 t2,
     (p < q)%nat -> nth_error trips p = Some t1 -> nth_error trips q = Some t2 ->
     departure_min t1 < departure_min t2 \/
     (departure_min t1 = departure_min t2 /\
      (trip_index t1 < trip_index t2)%nat)) /\
  (forall t p q g1 g2,
     In t trips -> (p < q)%nat ->
     nth_error (guests_of t) p = Some g1 ->
     nth_error (guests_of t) q = Some g2 ->
     row_arrival_min g1 <= row_arrival_min g2).
Proof.
  intros H Htrips.
  destruct (trips_of_report _ _ _ H Htrips) as [-> | (v & ->)].
  { split; [intros p q t1 t2 _ Hp; destruct p; discriminate
           | intros t p q g1 g2 []]. }
  split.
  - intros p q t1 t2 Hpq Hp Hq.
    refine (FOP_nth (R := key_then_before departure_min
                             (fun a b => (trip_index a < trip_index b)%nat))
                    _ Hpq Hp Hq).
    unfold build_trips_out. apply sorted_by_ordered.
    apply FOP_map. cbn [trip_out trip_index].
    apply FOP_filter. unfold range. apply FOP_seq.
  - intros t p q g1 g2 Hin Hpq Hp Hq.
    apply in_trips_out in Hin as (m & _ & _ & ->).
    cbn [trip_out guests_of] in Hp, Hq.
    assert (Hs : ForallOrdPairs (key_then_before row_arrival_min (fun _ _ => True))
                   (sorted_by row_arrival_min (assigned_to guests v m)))
      by (apply sorted_by_ordered, FOP_trivial).
    destruct (FOP_nth Hs Hpq Hp Hq) as [Hlt | [Heq _]]; lia.
Qed.

Lemma report_is_ordered_witness :
  nth_error relay_trips 0 = Some relay_first_trip /\
  nth_error relay_trips 1 = Some relay_second_trip /\
  (departure_min relay_first_trip < departure_min relay_second_trip \/
   (departure_min relay_first_trip = departure_min relay_second_trip /\
    (trip_index relay_first_trip < trip_index relay_second_trip)%nat)).
Proof.
  split; [reflexivity|]. split; [reflexivity|].
  apply (proj1 (@report_is_ordered (checking_solver relay_plan) relay_guests
                  relay_params relay_report relay_trips relay_solved eq_refl)
               0%nat 1%nat relay_first_trip relay_second_trip).
  - lia.
  - reflexivity.
  - reflexivity.
Defined.

(** X8: the trips of a report carry distinct slot numbers below the
    number of guests, so a report never has more trips than guests;
    this holds for whatever the solver answered. *)
Theorem no_more_trips_than_guests Solve guests params r trips :
  solve_pickups_multitrip Solve guests params = inr r ->
  get "trips" r = Some (PTrips trips) ->
  NoDup (map trip_index trips) /\
  (forall t, In t trips -> (trip_index t < length guests)%nat) /\
  (length trips <= length guests)%nat.
Proof.
  intros H Htrips.
  destruct (trips_of_report _ _ _ H Htrips) as [-> | (v & ->)].
  { split; [constructor|]. split; [intros t []|]. cbn. lia. }
  split; [apply trips_out_NoDup|]. split.
  - intros t Hin. apply in_trips_out in Hin as (m & Hm & _ & ->). exact Hm.
  - unfold build_trips_out. rewrite sorted_by_length, length_map.
    eapply Nat.le_trans; [apply filter_length_le|].
    unfold range. rewrite length_seq. lia.
Qed.

Lemma no_more_trips_than_guests_witness :
  NoDup (map trip_index relay_trips) /\
  (forall t, In t relay_trips -> (trip_index t < length relay_guests)%nat) /\
  (length relay_trips <= length relay_guests)%nat.
Proof.
  apply (@no_more_trips_than_guests (checking_solver relay_plan) relay_guests
           relay_params relay_report relay_trips relay_solved eq_refl).
Defined.

(** ** Limits of the formulation *)

Section GuestSlot.
Variable guests : list Guest.
Variables K W RT : Z.
Variable vehicle_caps : list Z.
Variables min_a max_a horizon : Z.
Variables incompatible together : list Constraint.
Variable v : IntVar -> Z.

Hypothesis Hsat :
  satisfies v (build_model guests K W RT vehicle_caps min_a max_a horizon
                           incompatible together) = true.

Lemma guest_has_slot i :
  (i < length guests)%nat ->
  exists m, (m < length guests)%nat /\ v (x_ i m) = 1 /\ v (used_ m) = 1.
Proof.
  intros Hi.
  destruct (some_slot_per_guest _ _ _ _ _ _ _ _ _ _ _ Hsat Hi) as (m & Hm & Hx).
  exists m. split; [exact Hm|]. split; [exact Hx|]. apply (x_used Hsat Hi Hm Hx).
Qed.

End GuestSlot.

Arguments guest_has_slot {_ _ _ _ _ _ _ _ _ _ _} _ [_] _.

Lemma first_guest (guests : list Guest) :
  guests <> [] -> (0 < length guests)%nat.
Proof. destruct guests; [contradiction | cbn; lia]. Qed.

Lemma in_guests_position (guests : list Guest) g :
  In g guests ->
  exists i, (i < length guests)%nat /\ arrival guests i = arrival_min g.
Proof.
  intros Hin. apply In_nth_error in Hin as (i & Hi). exists i.
  split; [apply nth_error_Some; congruence|].
  unfold arrival. rewrite Hi. reflexivity.
Qed.

(** X9: in an "ok" result for a non-empty guest list,
    [total_wait_min] lies between 0 and 10,000,000, and when
    [time_horizon_min] is supplied no trip departs after it. *)
Theorem plan_within_bounds Solve guests params r trips :
  sound Solve ->
  guests <> [] ->
  solve_pickups_multitrip Solve guests params = inr r ->
  get "status" r = Some (PStr "ok") ->
  get "trips" r = Some (PTrips trips) ->
  (exists total, get "total_wait_min" r = Some (PInt total) /\
                 0 <= total <= 10000000) /\
  (forall h t, time_horizon_min params = Some h -> In t trips ->
               departure_min t <= h).
Proof.
  intros Hsound Hne H Hst Htrips.
  destruct (solve_plan_inv params Hsound H Hne Hst)
    as (a & b & tog & v & _ & _ & _ & _ & _ & Hsat & ->).
  rewrite ok_report_trips in Htrips. inversion Htrips; subst trips; clear Htrips.
  unfold formulation in Hsat. split.
  - exists (v total_wait_). split; [reflexivity|].
    apply (total_wait_domain Hsat).
  - intros h t Hh Hin. apply in_trips_out in Hin as (m & Hm & _ & ->).
    cbn [trip_out departure_min].
    assert (Hd := dep_domain Hsat Hm). unfold horizon_of in Hd.
    rewrite Hh in Hd. lia.
Qed.

Lemma plan_within_bounds_witness :
  scenario_A_guests <> [] /\
  (exists total, get "total_wait_min" scenario_A_report = Some (PInt total) /\
                 0 <= total <= 10000000) /\
  (forall h t, time_horizon_min scenario_A_params = Some h ->
               In t scenario_A_trips -> departure_min t <= h).
Proof.
  assert (Hne : scenario_A_guests <> []) by discriminate.
  split; [exact Hne|].
  apply (@plan_within_bounds (checking_solver scenario_A_plan)
           scenario_A_guests scenario_A_params scenario_A_report
           scenario_A_trips (checking_solver_sound scenario_A_plan) Hne
           scenario_A_solved eq_refl eq_refl).
Defined.

Lemma no_cars_no_caps params :
  num_cars params = 0 -> normalize_vehicle_caps params = [].
Proof.
  intros HK. unfold normalize_vehicle_caps. rewrite HK.
  set (caps := match vehicle_capacities params with
               | Some raw_caps => raw_caps
               | None => py_repeat (capacity_per_car params) 0
               end).
  destruct (Z.ltb_spec (len caps) 0) as [Hlt | _]; [unfold len in Hlt; lia|].
  destruct (Z.ltb_spec 0 (len caps)) as [_ | Hle]; [reflexivity|].
  destruct caps; [reflexivity | unfold len in Hle; cbn in Hle; lia].
Qed.

(** X10: with [num_cars = 0] and at least one guest the call raises
    the [ValueError] of [max()] on an empty list, whatever the supplied
    capacities and whatever the solver. *)
Theorem no_vehicle_is_an_error Solve guests params :
  guests <> [] -> num_cars params = 0 ->
  solve_pickups_multitrip Solve guests params
  = inl (ValueError "max() arg is an empty sequence").
Proof.
  intros Hne HK. unfold solve_pickups_multitrip.
  destruct guests as [|g gs]; [contradiction|].
  rewrite (no_cars_no_caps params HK). reflexivity.
Qed.

Lemma no_vehicle_is_an_error_witness :
  scenario_A_guests <> [] /\ num_cars no_vehicle_params = 0 /\
  solve_pickups_multitrip (checking_solver scenario_A_plan)
                          scenario_A_guests no_vehicle_params
  = inl (ValueError "max() arg is an empty sequence").
Proof.
  assert (Hne : scenario_A_guests <> []) by discriminate.
  split; [exact Hne|]. split; [reflexivity|].
  apply (@no_vehicle_is_an_error (checking_solver scenario_A_plan)
           scenario_A_guests no_vehicle_params Hne eq_refl).
Defined.

(** X11: an "ok" result for a non-empty guest list means there is at
    least one vehicle, and the reported [vehicle_capacities] has
    exactly [num_cars] entries, each at least 1. *)
Theorem ok_needs_a_fleet Solve guests params r :
  sound Solve ->
  guests <> [] ->
  solve_pickups_multitrip Solve guests params = inr r ->
  get "status" r = Some (PStr "ok") ->
  1 <= num_cars params /\
  exists caps,
    get "vehicle_capacities" r = Some (PIntList caps) /\
    len caps = num_cars params /\ forall c, In c caps -> 1 <= c.
Proof.
  intros Hsound Hne H Hst.
  destruct (solve_plan_inv params Hsound H Hne Hst)
    as (a & b & tog & v & _ & _ & _ & Hex & _ & Hsat & ->).
  unfold formulation in Hsat.
  assert (HK : 1 <= num_cars params).
  { destruct (guest_has_slot Hsat (first_guest Hne)) as (m & Hm & _ & Hu).
    assert (Hs := vehicle_sum Hsat Hm). rewrite Hu in Hs.
    destruct (Z.le_gt_cases 1 (num_cars params)) as [? | Hlt]; [assumption|].
    unfold py_range in Hs. replace (Z.to_nat (num_cars params)) with 0%nat in Hs
      by lia. discriminate. }
  split; [exact HK|].
  exists (normalize_vehicle_caps params). split; [reflexivity|].
  split; [apply normalized_length; lia|].
  intros c Hc. destruct (Z.le_gt_cases 1 c) as [? | Hlt]; [assumption|].
  assert (existsb (fun c => c <? 1) (normalize_vehicle_caps params) = true).
  { apply existsb_exists. exists c. split; [exact Hc | apply Z.ltb_lt; lia]. }
  congruence.
Qed.

Lemma ok_needs_a_fleet_witness :
  scenario_A_guests <> [] /\
  1 <= num_cars scenario_A_params /\
  exists caps,
    get "vehicle_capacities" scenario_A_report = Some (PIntList caps) /\
    len caps = num_cars scenario_A_params /\ forall c, In c caps -> 1 <= c.
Proof.
  assert (Hne : scenario_A_guests <> []) by discriminate.
  split; [exact Hne|].
  apply (@ok_needs_a_fleet (checking_solver scenario_A_plan)
           scenario_A_guests scenario_A_params scenario_A_report
           (checking_solver_sound scenario_A_plan) Hne
           scenario_A_solved eq_refl).
Defined.

(** X12: with a negative [max_wait_min] a non-empty guest list never
    gets a plan: whenever the call returns, the status is
    "infeasible". *)
Theorem negative_max_wait_is_infeasible Solve guests params r :
  sound Solve ->
  guests <> [] ->
  max_wait_min params < 0 ->
  solve_pickups_multitrip Solve guests params = inr r ->
  get "status" r = Some (PStr "infeasible").
Proof.
  intros Hsound Hne HW H. apply (not_ok_is_infeasible _ _ _ H). intros Hst.
  destruct (solve_plan_inv params Hsound H Hne Hst)
    as (a & b & tog & v & _ & _ & _ & _ & _ & Hsat & _).
  unfold formulation in Hsat.
  assert (Hi := first_guest Hne).
  destruct (guest_has_slot Hsat Hi) as (m & Hm & Hx & Hu).
  assert (H1 := min_arr_before_rider Hsat Hi Hm Hx).
  assert (H2 := rider_before_max_arr Hsat Hi Hm Hx).
  assert (H3 := spread_bounded Hsat Hm Hu). lia.
Qed.

Lemma negative_max_wait_is_infeasible_witness :
  scenario_A_guests <> [] /\ max_wait_min negative_wait_params < 0 /\
  solve_pickups_multitrip (checking_solver scenario_A_plan)
                          scenario_A_guests negative_wait_params
  = inr infeasible_report /\
  get "status" infeasible_report = Some (PStr "infeasible").
Proof.
  assert (Hne : scenario_A_guests <> []) by discriminate.
  assert (HW : max_wait_min negative_wait_params < 0) by (cbn; lia).
  assert (Hs : solve_pickups_multitrip (checking_solver scenario_A_plan)
                 scenario_A_guests negative_wait_params
               = inr infeasible_report) by (vm_compute; reflexivity).
  split; [exact Hne|]. split; [exact HW|]. split; [exact Hs|].
  apply (@negative_max_wait_is_infeasible (checking_solver scenario_A_plan)
           scenario_A_guests negative_wait_params infeasible_report
           (checking_solver_sound scenario_A_plan) Hne HW Hs).
Defined.

(** X13: when [time_horizon_min] is supplied and some guest arrives
    after it, the guest list never gets a plan. *)
Theorem horizon_before_an_arrival_is_infeasible Solve guests params r h g :
  sound Solve ->
  time_horizon_min params = Some h ->
  In g guests -> h < arrival_min g ->
  solve_pickups_multitrip Solve guests params = inr r ->
  get "status" r = Some (PStr "infeasible").
Proof.
  intros Hsound Hh Hg Hlate H. apply (not_ok_is_infeasible _ _ _ H). intros Hst.
  assert (Hne : guests <> []) by (intros ->; contradiction).
  destruct (solve_plan_inv params Hsound H Hne Hst)
    as (a & b & tog & v & _ & _ & _ & _ & _ & Hsat & _).
  unfold formulation in Hsat.
  destruct (in_guests_position guests g Hg) as (i & Hi & Ea).
  destruct (guest_has_slot Hsat Hi) as (m & Hm & Hx & Hu).
  assert (H1 := dep_after_arrival Hsat Hi Hm Hx).
  assert (H2 := dep_domain Hsat Hm). unfold horizon_of in H2.
  rewrite Hh in H2. lia.
Qed.

Lemma horizon_before_an_arrival_is_infeasible_witness :
  time_horizon_min early_horizon_params = Some 9 /\
  In (mkGuest "g3" "Cy" 10) scenario_A_guests /\
  9 < arrival_min (mkGuest "g3" "Cy" 10) /\
  solve_pickups_multitrip (checking_solver scenario_A_plan)
                          scenario_A_guests early_horizon_params
  = inr infeasible_report /\
  get "status" infeasible_report = Some (PStr "infeasible").
Proof.
  assert (Hg : In (mkGuest "g3" "Cy" 10) scenario_A_guests)
    by (right; right; left; reflexivity).
  assert (Hlate : 9 < arrival_min (mkGuest "g3" "Cy" 10)) by (cbn; lia).
  assert (Hs : solve_pickups_multitrip (checking_solver scenario_A_plan)
                 scenario_A_guests early_horizon_params
               = inr infeasible_report) by (vm_compute; reflexivity).
  split; [reflexivity|]. split; [exact Hg|]. split; [exact Hlate|].
  split; [exact Hs|].
  apply (@horizon_before_an_arrival_is_infeasible
           (checking_solver scenario_A_plan) scenario_A_guests
           early_horizon_params infeasible_report 9 (mkGuest "g3" "Cy" 10)
           (checking_solver_sound scenario_A_plan) eq_refl Hg Hlate Hs).
Defined.

(** X14: a guest whose [arrival_min] is below the sentinel -10000 can
    sit in no slot, so the guest list never gets a plan. *)
Theorem arrival_below_sentinel_is_infeasible Solve guests params r g :
  sound Solve ->
  In g guests -> arrival_min g < -10000 ->
  solve_pickups_multitrip Solve guests params = inr r ->
  get "status" r = Some (PStr "infeasible").
Proof.
  intros Hsound Hg Hlow H. apply (not_ok_is_infeasible _ _ _ H). intros Hst.
  assert (Hne : guests <> []) by (intros ->; contradiction).
  destruct (solve_plan_inv params Hsound H Hne Hst)
    as (a & b & tog & v & _ & _ & _ & _ & _ & Hsat & _).
  unfold formulation in Hsat.
  destruct (in_guests_position guests g Hg) as (i & Hi & Ea).
  destruct (guest_has_slot Hsat Hi) as (m & Hm & Hx & Hu).
  destruct (masks_of_rider Hsat Hi Hm Hx) as [_ H1].
  destruct (mask_domains Hsat Hi Hm) as [_ H2].
  unfold BIG_NEG in H2. lia.
Qed.

Lemma arrival_below_sentinel_is_infeasible_witness :
  In (mkGuest "g0" "Eve" (-10001)) early_bird_guests /\
  arrival_min (mkGuest "g0" "Eve" (-10001)) < -10000 /\
  solve_pickups_multitrip (checking_solver relay_plan)
                          early_bird_guests relay_params
  = inr infeasible_report /\
  get "status" infeasible_report = Some (PStr "infeasible").
Proof.
  assert (Hg : In (mkGuest "g0" "Eve" (-10001)) early_bird_guests)
    by (left; reflexivity).
  assert (Hlow : arrival_min (mkGuest "g0" "Eve" (-10001)) < -10000)
    by (cbn; lia).
  assert (Hs : solve_pickups_multitrip (checking_solver relay_plan)
                 early_bird_guests relay_params
               = inr infeasible_report) by (vm_compute; reflexivity).
  split; [exact Hg|]. split; [exact Hlow|]. split; [exact Hs|].
  apply (@arrival_below_sentinel_is_infeasible (checking_solver relay_plan)
           early_bird_guests relay_params infeasible_report
           (mkGuest "g0" "Eve" (-10001))
           (checking_solver_sound relay_plan) Hg Hlow Hs).
Defined.

(** X15: an [incompatible_pairs] entry that names the same known guest
    twice bars that guest from every slot, so the guest list never gets
    a plan. *)
Theorem self_incompatible_is_infeasible Solve guests params r gid :
  sound Solve ->
  In (gid, gid) (pairs_of params) ->
  In gid (map guest_id guests) ->
  solve_pickups_multitrip Solve guests params = inr r ->
  get "status" r = Some (PStr "infeasible").
Proof.
  intros Hsound Hpair Hknown H. apply (not_ok_is_infeasible _ _ _ H).
  intros Hst.
  assert (Hne : guests <> []) by (intros ->; contradiction).
  destruct (solve_plan_inv params Hsound H Hne Hst)
    as (a & b & tog & v & _ & _ & _ & _ & _ & Hsat & _).
  unfold formulation in Hsat.
  destruct (id_to_i_known guests gid Hknown) as (i & Hid & Hi).
  destruct (guest_has_slot Hsat Hi) as (m & Hm & Hx & Hu).
  assert (Hc : holds v (Add (plus (var (x_ i m)) (var (x_ i m))) LE
                            (const 1) None) = true).
  { apply (incompatible_holds Hsat). unfold incompatibility_constraints.
    apply in_flat_map. exists (gid, gid). split; [exact Hpair|].
    cbn [fst snd]. rewrite Hid.
    apply in_map_iff. exists m. split; [reflexivity | apply in_range, Hm]. }
  cbn [holds compare] in Hc. rewrite eval_plus, !eval_var, eval_const in Hc.
  apply Z.leb_le in Hc. lia.
Qed.

Lemma self_incompatible_is_infeasible_witness :
  In ("g2", "g2")%string (pairs_of self_pair_params) /\
  In "g2"%string (map guest_id scenario_A_guests) /\
  solve_pickups_multitrip (checking_solver scenario_A_plan)
                          scenario_A_guests self_pair_params
  = inr infeasible_report /\
  get "status" infeasible_report = Some (PStr "infeasible").
Proof.
  assert (Hpair : In ("g2", "g2")%string (pairs_of self_pair_params))
    by (left; reflexivity).
  assert (Hknown : In "g2"%string (map guest_id scenario_A_guests))
    by (right; left; reflexivity).
  assert (Hs : solve_pickups_multitrip (checking_solver scenario_A_plan)
                 scenario_A_guests self_pair_params
               = inr infeasible_report) by (vm_compute; reflexivity).
  split; [exact Hpair|]. split; [exact Hknown|]. split; [exact Hs|].
  apply (@self_incompatible_is_infeasible (checking_solver scenario_A_plan)
           scenario_A_guests self_pair_params infeasible_report "g2"%string
           (checking_solver_sound scenario_A_plan) Hpair Hknown Hs).
Defined.

(** ** The id dictionary, the capacity list and the checks *)

(** X16: the id dictionary has no entry for an id that no guest
    carries, and maps an id to the position of the last guest that
    carries it. *)
Theorem id_lookup_finds_last_guest guests gid :
  (build_id_to_i guests gid = None <-> ~ In gid (map guest_id guests)) /\
  (forall pre g post,
     guests = pre ++ g :: post -> guest_id g = gid ->
     ~ In gid (map guest_id post) ->
     build_id_to_i guests gid = Some (length pre)).
Proof.
  split; [apply id_to_i_none|].
  intros pre g post -> Hid Hlast. apply id_to_i_spec. split.
  - exists g. rewrite nth_error_app2, Nat.sub_diag by lia. auto.
  - intros j g' Hj Hnth Hid'. apply Hlast.
    rewrite nth_error_app2 in Hnth by lia.
    destruct (j - length pre)%nat as [|d] eqn:E; [lia|]. cbn in Hnth.
    rewrite <- Hid'. apply in_map, (nth_error_In _ _ Hnth).
Qed.

Lemma id_lookup_finds_last_guest_witness :
  namesake_guests
  = [ mkGuest "g1" "Ann" 0; mkGuest "g2" "Bob" 5 ]%string
    ++ mkGuest "g1" "Ann II" 10 :: [] /\
  build_id_to_i namesake_guests "g1" = Some 2%nat.
Proof.
  split; [reflexivity|].
  apply (proj2 (id_lookup_finds_last_guest namesake_guests "g1")
               [ mkGuest "g1" "Ann" 0; mkGuest "g2" "Bob" 5 ]%string
               (mkGuest "g1" "Ann II" 10) []).
  - reflexivity.
  - reflexivity.
  - intros [].
Defined.

(** X17: for [num_cars >= 0] the normalized capacity list has exactly
    [num_cars] entries; entry [k] is the supplied capacity when one was
    supplied at that position and [capacity_per_car] otherwise.  For a
    negative [num_cars] a supplied list loses its last [-num_cars]
    entries instead. *)
Theorem capacity_list_entries params :
  (0 <= num_cars params ->
   len (normalize_vehicle_caps params) = num_cars params /\
   forall k, Z.of_nat k < num_cars params ->
     nth k (normalize_vehicle_caps params) 0 = expected_capacity params k) /\
  (forall raw, num_cars params < 0 -> vehicle_capacities params = Some raw ->
     normalize_vehicle_caps params
     = firstn (length raw - Z.to_nat (- num_cars params)) raw).
Proof.
  split.
  - intros HK. split; [apply normalized_length, HK|].
    intros k Hk. unfold normalize_vehicle_caps, expected_capacity.
    set (K := num_cars params) in *. set (c := capacity_per_car params).
    destruct (vehicle_capacities params) as [raw|].
    + destruct (Z.ltb_spec (len raw) K) as [Hlt | Hge].
      * unfold len in Hlt. destruct (Nat.ltb_spec k (length raw)) as [Hk' | Hk'].
        -- apply app_nth1, Hk'.
        -- rewrite app_nth2 by lia. unfold py_repeat. apply nth_repeat_lt.
           unfold len. lia.
      * unfold len in Hge.
        destruct (Nat.ltb_spec k (length raw)) as [Hk' | Hk']; [|lia].
        destruct (Z.ltb_spec K (len raw)) as [Hgt | _]; [|reflexivity].
        unfold py_slice_to. destruct (Z.leb_spec 0 K); [|lia].
        rewrite nth_firstn.
        destruct (Nat.ltb_spec k (Z.to_nat K)); [reflexivity | lia].
    + unfold py_repeat, len. rewrite repeat_length.
      destruct (Z.ltb_spec (Z.of_nat (Z.to_nat K)) K); [lia|].
      destruct (Z.ltb_spec K (Z.of_nat (Z.to_nat K))); [lia|].
      apply nth_repeat_lt. lia.
  - intros raw HK Hraw. unfold normalize_vehicle_caps. rewrite Hraw.
    destruct (Z.ltb_spec (len raw) (num_cars params)) as [Hlt | _];
      [unfold len in Hlt; lia|].
    destruct (Z.ltb_spec (num_cars params) (len raw)) as [_ | Hle];
      [|unfold len in Hle; lia].
    unfold py_slice_to. destruct (Z.leb_spec 0 (num_cars params)); [lia|].
    f_equal. unfold len. lia.
Qed.

Lemma capacity_list_entries_witness :
  0 <= num_cars short_caps_params /\
  len (normalize_vehicle_caps short_caps_params) = 3 /\
  nth 2 (normalize_vehicle_caps short_caps_params) 0 = 4 /\
  num_cars minus_one_vehicle_params < 0 /\
  normalize_vehicle_caps minus_one_vehicle_params = [3].
Proof.
  assert (HK : 0 <= num_cars short_caps_params) by (cbn; lia).
  assert (HN : num_cars minus_one_vehicle_params < 0) by (cbn; lia).
  destruct (capacity_list_entries short_caps_params) as [Hpos _].
  destruct (capacity_list_entries minus_one_vehicle_params) as [_ Hneg].
  destruct (Hpos HK) as [Hlen Hnth].
  split; [exact HK|]. split; [exact Hlen|].
  split; [apply (Hnth 2%nat); cbn; lia|]. split; [exact HN|].
  apply (Hneg [3; 3] HN eq_refl).
Defined.






(** ** Guests who land together *)

Lemma sumZ_pick (f : nat -> Z) ks n :
  NoDup ks -> (forall k, In k ks -> (k < n)%nat) ->
  (forall k, (k < n)%nat -> 0 <= f k) ->
  sumZ (map f ks) <= sumZ (map f (seq 0 n)).
Proof.
  revert ks. induction n as [|n IH]; intros ks Hnd Hlt Hpos.
  - destruct ks as [|k ks]; [cbn; lia|].
    specialize (Hlt k (or_introl eq_refl)). lia.
  - rewrite seq_S, map_app, sumZ_app. cbn [map sumZ fold_right Nat.add].
    destruct (in_dec Nat.eq_dec n ks) as [Hin | Hout].
    + apply in_split in Hin as (l1 & l2 & ->).
      assert (Hnd' : NoDup (l1 ++ l2)) by (apply NoDup_remove_1 in Hnd; exact Hnd).
      assert (Hn : ~ In n (l1 ++ l2)) by (apply NoDup_remove_2 in Hnd; exact Hnd).
      assert (IH' : sumZ (map f (l1 ++ l2)) <= sumZ (map f (seq 0 n))).
      { apply IH; auto. intros k Hk.
        assert (k < S n)%nat by (apply Hlt; rewrite in_app_iff in *; cbn; tauto).
        assert (k <> n) by (intros ->; contradiction). lia. }
      rewrite map_app, sumZ_app in *. cbn [map sumZ fold_right].
      fold (sumZ (map f l2)). lia.
    + assert (IH' : sumZ (map f ks) <= sumZ (map f (seq 0 n))).
      { apply IH; auto. intros k Hk. assert (k < S n)%nat by auto.
        assert (k <> n) by (intros ->; contradiction). lia. }
      assert (0 <= f n) by (apply Hpos; lia). lia.
Qed.

Lemma sumZ_nth_seq (l : list Z) :
  sumZ (map (fun k => nth k l 0) (seq 0 (length l))) = sumZ l.
Proof.
  induction l as [|a l IH] using rev_ind; [reflexivity|].
  rewrite length_app, Nat.add_comm. cbn [length Nat.add].
  rewrite seq_S, map_app, !sumZ_app. cbn [map sumZ fold_right Nat.add].
  rewrite app_nth2, Nat.sub_diag by lia. cbn [nth].
  rewrite <- IH. f_equal. apply sumZ_map_ext.
  intros k Hk. apply in_seq in Hk. apply app_nth1. lia.
Qed.

Lemma sumZ_le_pointwise {A : Type} (f g : A -> Z) l :
  (forall a, In a l -> f a <= g a) -> sumZ (map f l) <= sumZ (map g l).
Proof.
  induction l as [|a l IH]; cbn [map sumZ fold_right]; intros H; [lia|].
  fold (sumZ (map f l)) (sumZ (map g l)).
  assert (f a <= g a) by (apply H; left; reflexivity).
  assert (sumZ (map f l) <= sumZ (map g l))
    by (apply IH; intros; apply H; right; assumption).
  lia.
Qed.

Lemma sumZ_ones {A : Type} (l : list A) :
  sumZ (map (fun _ => 1) l) = Z.of_nat (length l).
Proof.
  induction l as [|a l IH]; cbn [map sumZ fold_right length]; [reflexivity|].
  fold (sumZ (map (fun _ : A => 1) l)). rewrite IH. lia.
Qed.

Lemma NoDup_map_injective {A B : Type} (f : A -> B) l :
  (forall a b, In a l -> In b l -> f a = f b -> a = b) ->
  NoDup l -> NoDup (map f l).
Proof.
  induction l as [|c l IH]; cbn [map]; intros Hinj Hnd; [constructor|].
  inversion Hnd as [|? ? Hc Hl]; subst. constructor.
  - intros Hin. apply in_map_iff in Hin as (b & Hb & Hin).
    assert (b = c) by (apply Hinj; [right; exact Hin | left; reflexivity | exact Hb]).
    subst b. contradiction.
  - apply IH; [|exact Hl]. intros a b Ha Hb. apply Hinj; right; assumption.
Qed.

Section Together.
Variable guests : list Guest.
Variables K W RT : Z.
Variable vehicle_caps : list Z.
Variables min_a max_a horizon : Z.
Variables incompatible together : list Constraint.
Variable v : IntVar -> Z.
Variable minute : Z.

Local Abbreviation n := (length guests).
Local Abbreviation is_used := (fun m => negb (v (used_ m) =? 0)).

Hypothesis Hsat :
  satisfies v (build_model guests K W RT vehicle_caps min_a max_a horizon
                           incompatible together) = true.
Hypothesis Hsame : forall g, In g guests -> arrival_min g = minute.
Hypothesis HRT : 0 < RT.
Hypothesis Hlen : len vehicle_caps = K.
Hypothesis Hcaps : forall c, In c vehicle_caps -> 1 <= c.

Lemma used_of_filter m :
  In m (filter is_used (range n)) -> (m < n)%nat /\ v (used_ m) = 1.
Proof.
  intros Hin. apply filter_In in Hin as [Hm Hu]. apply in_range in Hm.
  split; [exact Hm|]. apply negb_true_iff, Z.eqb_neq in Hu.
  destruct (used_bool Hsat Hm); [contradiction | assumption].
Qed.

(** Every used slot leaves at the common minute. *)
Lemma used_slot_departure m :
  (m < n)%nat -> v (used_ m) = 1 -> v (dep_ m) = minute.
Proof.
  intros Hm Hu. rewrite (dep_is_max_arr Hsat Hm).
  destruct (max_arr_attained Hsat Hm Hu) as (i & Hi & _ & <-).
  unfold arrival. destruct (nth_error guests i) as [g|] eqn:E;
    [|apply nth_error_None in E; lia].
  apply Hsame, (nth_error_In _ _ E).
Qed.

(** So no two used slots share a vehicle. *)
Lemma used_slots_vehicles :
  NoDup (map (vehicle_or_zero K v) (filter is_used (range n))).
Proof.
  apply NoDup_map_injective.
  - intros m1 m2 H1 H2 E.
    destruct (@used_of_filter m1 H1) as [Hm1 Hu1].
    destruct (@used_of_filter m2 H2) as [Hm2 Hu2].
    destruct (Nat.eq_dec m1 m2) as [? | Hne]; [assumption | exfalso].
    destruct (vehicle_of_used Hsat Hm1 Hu1) as (k1 & Hk1 & Hin1 & Hz1 & _).
    destruct (vehicle_of_used Hsat Hm2 Hu2) as (k2 & Hk2 & _ & Hz2 & _).
    unfold vehicle_or_zero in E. rewrite Hk1, Hk2 in E. subst k2.
    assert (H := same_vehicle_apart Hsat Hm1 Hm2 Hne Hin1 Hz1 Hz2).
    rewrite (@used_slot_departure m1 Hm1 Hu1), (@used_slot_departure m2 Hm2 Hu2) in H.
    lia.
  - apply NoDup_filter. unfold range. apply seq_NoDup.
Qed.

(** The guests fit the seats of the whole fleet. *)
Lemma guests_fit_the_fleet : Z.of_nat n <= sumZ vehicle_caps.
Proof.
  assert (Hn : Z.of_nat n = sumZ (map (fun _ : nat => 1) (range n))).
  { rewrite sumZ_ones. unfold range. rewrite length_seq. reflexivity. }
  rewrite Hn.
  rewrite (sumZ_map_ext _ (fun i => sumZ (map (fun m => v (x_ i m)) (range n)))).
  2:{ intros i Hi. apply in_range in Hi. rewrite (assigned_once Hsat Hi).
      reflexivity. }
  rewrite (sumZ_exchange (fun i m => v (x_ i m))).
  rewrite (sumZ_map_ext _
             (fun m => if is_used m
                       then sumZ (map (fun i => v (x_ i m)) (range n)) else 0)).
  2:{ intros m Hm. apply in_range in Hm.
      destruct (v (used_ m) =? 0) eqn:Hu; cbn [negb]; [|reflexivity].
      apply Z.eqb_eq in Hu. apply sumZ_map_zero.
      intros i Hi. apply in_range in Hi.
      destruct (x_bool Hsat Hi Hm) as [E | E]; [exact E|].
      rewrite (x_used Hsat Hi Hm E) in Hu. discriminate. }
  rewrite <- sumZ_filter.
  eapply Z.le_trans.
  - apply (sumZ_le_pointwise _
             (fun m => nth (vehicle_or_zero K v m) vehicle_caps 0)).
    intros m Hin. destruct (@used_of_filter m Hin) as [Hm Hu].
    destruct (vehicle_of_used Hsat Hm Hu) as (k & Hk & _).
    unfold vehicle_or_zero. rewrite Hk.
    rewrite <- (riders_count Hsat Hm). apply (riders_fit Hsat Hm Hu Hk).
  - rewrite <- (map_map (vehicle_or_zero K v) (fun k => nth k vehicle_caps 0)).
    rewrite <- (sumZ_nth_seq vehicle_caps).
    apply sumZ_pick.
    + apply used_slots_vehicles.
    + intros k Hk. apply in_map_iff in Hk as (m & <- & Hin).
      destruct (@used_of_filter m Hin) as [Hm Hu].
      destruct (vehicle_of_used Hsat Hm Hu) as (k & Hk & Hr & _).
      unfold vehicle_or_zero. rewrite Hk. apply in_range in Hr.
      unfold len in Hlen. lia.
    + intros k Hk. assert (1 <= nth k vehicle_caps 0); [|lia].
      apply Hcaps, nth_In, Hk.
Qed.

End Together.

(** X20: when every guest arrives at the same minute and
    [round_trip_min] is positive, each vehicle can run one trip only,
    so a guest list that outnumbers the seats of the whole fleet never
    gets a plan. *)
Theorem crowd_at_one_minute_is_infeasible Solve guests params r minute :
  sound Solve ->
  guests <> [] ->
  (forall g, In g guests -> arrival_min g = minute) ->
  0 < round_trip_min params ->
  sumZ (normalize_vehicle_caps params) < len guests ->
  solve_pickups_multitrip Solve guests params = inr r ->
  get "status" r = Some (PStr "infeasible").
Proof.
  intros Hsound Hne Hsame HRT Hcrowd H.
  apply (not_ok_is_infeasible _ _ _ H). intros Hst.
  destruct (solve_plan_inv params Hsound H Hne Hst)
    as (a & b & tog & v & _ & _ & _ & Hex & _ & Hsat & Hr).
  unfold formulation in Hsat.
  assert (HK : 0 <= num_cars params).
  { destruct (guest_has_slot Hsat (first_guest Hne)) as (m & Hm & _ & Hu).
    assert (Hs := vehicle_sum Hsat Hm). rewrite Hu in Hs.
    destruct (Z.le_gt_cases 0 (num_cars params)) as [? | Hlt]; [assumption|].
    unfold py_range in Hs. replace (Z.to_nat (num_cars params)) with 0%nat in Hs
      by lia. discriminate. }
  assert (Hfit : Z.of_nat (length guests)
                 <= sumZ (normalize_vehicle_caps params)).
  { eapply guests_fit_the_fleet;
      [exact Hsat | exact Hsame | exact HRT | apply normalized_length, HK |].
    intros c Hc. destruct (Z.le_gt_cases 1 c) as [? | Hlt]; [assumption|].
    assert (existsb (fun c => c <? 1) (normalize_vehicle_caps params) = true).
    { apply existsb_exists. exists c. split; [exact Hc | apply Z.ltb_lt; lia]. }
    congruence. }
  unfold len in Hcrowd. lia.
Qed.

Lemma crowd_at_one_minute_is_infeasible_witness :
  scenario_B_guests <> [] /\
  0 < round_trip_min scenario_B_params /\
  sumZ (normalize_vehicle_caps scenario_B_params) < len scenario_B_guests /\
  solve_pickups_multitrip (checking_solver scenario_A_plan)
                          scenario_B_guests scenario_B_params
  = inr infeasible_report /\
  get "status" infeasible_report = Some (PStr "infeasible").
Proof.
  assert (Hne : scenario_B_guests <> []) by discriminate.
  assert (Hsame : forall g, In g scenario_B_guests -> arrival_min g = 0).
  { intros g [<- | [<- | [<- | [<- | []]]]]; reflexivity. }
  assert (HRT : 0 < round_trip_min scenario_B_params) by (cbn; lia).
  assert (Hcrowd : sumZ (normalize_vehicle_caps scenario_B_params)
                   < len scenario_B_guests) by (vm_compute; reflexivity).
  assert (Hs : solve_pickups_multitrip (checking_solver scenario_A_plan)
                 scenario_B_guests scenario_B_params
               = inr infeasible_report) by (vm_compute; reflexivity).
  split; [exact Hne|]. split; [exact HRT|]. split; [exact Hcrowd|].
  split; [exact Hs|].
  apply (@crowd_at_one_minute_is_infeasible (checking_solver scenario_A_plan)
           scenario_B_guests scenario_B_params infeasible_report 0
           (checking_solver_sound scenario_A_plan) Hne Hsame HRT Hcrowd Hs).
Defined.
